(** * Boxxy Binder, controls editor: settings resolution and curve evaluation

    A shallow embedding of the engine part of [src/controls-editor.js]:
    the curve math ([interpolateCurve]), the hierarchy builder
    ([parseVisibility], [parseCurve], [parseOptionGroup],
    [parseOptionTreesFromXml], [getDefaultControlsData]), the display
    transformer ([transformToSCHierarchy] with its local helpers
    [markSectionType] and [markDisabled]), the settings store
    ([getUserSetting], [getUserSettingWithInheritance], [setUserSetting])
    and the format converter ([generateControlOptionsXml],
    [loadControlSettings], [findNodeByName]); further the lookup by path
    ([findNodeByPath]), the device tabs ([switchDeviceType]), the curve
    editor's [addCurvePoint], the reset and the propagation to children
    ([resetNodeSettings], [propagateExponentToChildren],
    [propagateCurveToChildren]), the export ([getAllControlOptions]) and
    the save file ([getControlsForSaving], [loadControlsFromFile] and
    their converters, [hasControlSettings], [clearControlSettings]).

    Conventions of the embedding.
    - A JavaScript number is a rational or one of the three IEEE specials
      ([jsnum]).  Rounding and the sign of zero are not modelled; division
      by zero follows IEEE (0/0 is NaN, x/0 is an infinity).
    - A JavaScript string is a [string]; its characters are 8-bit code units.
    - A JavaScript object is an association list in insertion order
      ([obj]); [undefined] is the value [VUndefined].  An object is the
      properties it owns: [Object.prototype] is not modelled.  The reads
      and writes of the embedding are those of the code at every key but
      the twelve names [Object.prototype] supplies ([proto_key]); a
      statement that reads or writes at a key of the caller's choice
      assumes a key which is none of them ([plain_key]), and a page in
      which nothing has been assigned through one of them.
    - An operation that would throw a [TypeError] returns [None]. *)

From Stdlib Require Import List Bool Arith ZArith QArith Lia Lqa.
From Stdlib Require Import Strings.String Strings.Ascii.
From Stdlib Require Import Numbers.DecimalString Numbers.DecimalPos.
From Stdlib Require Import Sorting.Permutation Sorting.Sorted.
Import ListNotations.

Set Implicit Arguments.

(* ================================================================== *)
(** * Numbers *)
(* ================================================================== *)

Inductive jsnum : Type :=
| Fin (q : Q)
| PInf
| NInf
| NaN.

(** Sign of a rational as used for the infinities. *)
Definition Qsign (q : Q) : comparison := (0 ?= q)%Q.

Definition jsneg (a : jsnum) : jsnum :=
  match a with
  | Fin q => Fin (- q)
  | PInf => NInf
  | NInf => PInf
  | NaN => NaN
  end.

(** [inf_of c]: the infinity with the sign of a nonzero rational whose
    comparison with zero is [c]; [Eq] (zero) gives NaN. *)
Definition inf_of (c : comparison) : jsnum :=
  match c with
  | Lt => PInf
  | Gt => NInf
  | Eq => NaN
  end.

Definition jsadd (a b : jsnum) : jsnum :=
  match a, b with
  | NaN, _ | _, NaN => NaN
  | Fin x, Fin y => Fin (x + y)
  | PInf, NInf | NInf, PInf => NaN
  | PInf, _ | _, PInf => PInf
  | NInf, _ | _, NInf => NInf
  end.

Definition jssub (a b : jsnum) : jsnum := jsadd a (jsneg b).

Definition jsmul (a b : jsnum) : jsnum :=
  match a, b with
  | NaN, _ | _, NaN => NaN
  | Fin x, Fin y => Fin (x * y)
  | Fin x, PInf | PInf, Fin x => inf_of (Qsign x)
  | Fin x, NInf | NInf, Fin x => jsneg (inf_of (Qsign x))
  | PInf, PInf | NInf, NInf => PInf
  | PInf, NInf | NInf, PInf => NInf
  end.

Definition jsdiv (a b : jsnum) : jsnum :=
  match a, b with
  | NaN, _ | _, NaN => NaN
  | Fin x, Fin y =>
      if Qeq_bool y 0 then inf_of (Qsign x) else Fin (x / y)
  | Fin _, PInf | Fin _, NInf => Fin 0
  | PInf, Fin y => if Qle_bool 0 y then PInf else NInf
  | NInf, Fin y => if Qle_bool 0 y then NInf else PInf
  | _, _ => NaN
  end.

(** [a === b] on numbers. *)
Definition jsnum_eqb (a b : jsnum) : bool :=
  match a, b with
  | Fin x, Fin y => Qeq_bool x y
  | PInf, PInf | NInf, NInf => true
  | _, _ => false
  end.

(* ================================================================== *)
(** * Curve math *)
(* ================================================================== *)

(** A control point [{in, out}]; both coordinates are finite numbers. *)
Record Point : Type := mkPoint { in_ : Q; out : Q }.

(** [[...points].sort((a, b) => a.in - b.in)]: the sort is stable, so a
    point is placed before the already sorted later points of equal [in]. *)
Fixpoint insert_by_in (p : Point) (l : list Point) : list Point :=
  match l with
  | [] => [p]
  | q :: l' =>
      if Qle_bool (in_ p) (in_ q) then p :: q :: l'
      else q :: insert_by_in p l'
  end.

Fixpoint sort_by_in (l : list Point) : list Point :=
  match l with
  | [] => []
  | p :: l' => insert_by_in p (sort_by_in l')
  end.

(** The [for] loop of [interpolateCurve]: [lower] follows the points at or
    below [input], the first point at or above it becomes [upper] and ends
    the loop. *)
Fixpoint bracket (sorted : list Point) (input : Q) (lower upper : Point)
  : Point * Point :=
  match sorted with
  | [] => (lower, upper)
  | p :: rest =>
      let lower' := if Qle_bool (in_ p) input then p else lower in
      if Qle_bool input (in_ p) then (lower', p)
      else bracket rest input lower' upper
  end.

Definition interpolateCurve (input : Q) (points : list Point) : jsnum :=
  match sort_by_in points with
  | [] => Fin input
  | (first :: _) as sorted =>
      let '(lower, upper) :=
        bracket sorted input (mkPoint 0 0) (mkPoint 1 1) in
      if Qle_bool input (in_ first) then
        jsmul (Fin (out first)) (jsdiv (Fin input) (Fin (in_ first)))
      else
        let lastPoint := last sorted first in
        if Qle_bool (in_ lastPoint) input then
          let remaining := jssub (Fin input) (Fin (in_ lastPoint)) in
          let remainingRange := jssub (Fin 1) (Fin (in_ lastPoint)) in
          let outputRemaining := jssub (Fin 1) (Fin (out lastPoint)) in
          jsadd (Fin (out lastPoint))
                (jsmul (jsdiv remaining remainingRange) outputRemaining)
        else if Qeq_bool (in_ lower) (in_ upper) then Fin (out lower)
        else
          let t := jsdiv (jssub (Fin input) (Fin (in_ lower)))
                         (jssub (Fin (in_ upper)) (Fin (in_ lower))) in
          jsadd (Fin (out lower))
                (jsmul t (jssub (Fin (out upper)) (Fin (out lower))))
  end.

(** Points whose [in] coincide are the same point. *)
Definition in_determines_point (l : list Point) : Prop :=
  forall p q, In p l -> In q l -> (in_ p == in_ q)%Q -> p = q.

(** [l] is ordered by [in], ascending. *)
Definition le_in (p q : Point) : Prop := (in_ p <= in_ q)%Q.

(* ================================================================== *)
(** * Strings *)
(* ================================================================== *)

Open Scope string_scope.

(** [s.slice(n)]. *)
Fixpoint drop (n : nat) (s : string) : string :=
  match n, s with
  | O, _ => s
  | S n', String _ s' => drop n' s'
  | S _, EmptyString => EmptyString
  end.

(** [s.split('.')]: never empty, [""] for the empty string. *)
Fixpoint split_dot (s : string) : list string :=
  match s with
  | EmptyString => [EmptyString]
  | String c s' =>
      if Ascii.eqb c "."%char then EmptyString :: split_dot s'
      else match split_dot s' with
           | seg :: segs => String c seg :: segs
           | [] => [String c EmptyString]
           end
  end.

(** [parts.join('.')]. *)
Fixpoint join_dot (parts : list string) : string :=
  match parts with
  | [] => EmptyString
  | [seg] => seg
  | seg :: rest => seg ++ "." ++ join_dot rest
  end.

(** [path.split('.').pop()]. *)
Definition last_segment (path : string) : string :=
  last (split_dot path) EmptyString.

(** [s.replace(/pat/, rep)] for a literal [pat]: the first occurrence. *)
Fixpoint replace_first (pat rep s : string) : string :=
  if prefix pat s then rep ++ drop (length pat) s
  else match s with
       | EmptyString => EmptyString
       | String c s' => String c (replace_first pat rep s')
       end.

(** [s.replace(/pat$/, rep)] for a literal [pat]. *)
Fixpoint replace_at_end (pat rep s : string) : string :=
  if String.eqb s pat then rep
  else match s with
       | EmptyString => EmptyString
       | String c s' => String c (replace_at_end pat rep s')
       end.

(** [s.replace(/^pat/, rep)] for a literal [pat]. *)
Definition replace_at_start (pat rep s : string) : string :=
  if prefix pat s then rep ++ drop (length pat) s else s.

(** [s.replace(/^pat$/, rep)] for a literal [pat]. *)
Definition replace_whole (pat rep s : string) : string :=
  if String.eqb s pat then rep else s.

(** White space skipped by [parseInt] and [parseFloat]: TAB, LF, VT, FF,
    CR, SP and, among the 8-bit code units, NBSP. *)
Definition is_white_space (c : ascii) : bool :=
  let n := nat_of_ascii c in
  ((9 <=? n)%nat && (n <=? 13)%nat) || (n =? 32)%nat || (n =? 160)%nat.

Fixpoint trim_start (s : string) : string :=
  match s with
  | String c s' => if is_white_space c then trim_start s' else s
  | EmptyString => EmptyString
  end.

(** Value of a digit in the given radix (2, 8, 10 or 16). *)
Definition digit_value (radix : Z) (c : ascii) : option Z :=
  let n := Z.of_nat (nat_of_ascii c) in
  (if (48 <=? n) && (n <=? 57) && (n - 48 <? radix) then Some (n - 48)
   else if (radix =? 16) && (97 <=? n) && (n <=? 102) then Some (n - 87)
   else if (radix =? 16) && (65 <=? n) && (n <=? 70) then Some (n - 55)
   else None)%Z.

(** The longest prefix of digits, read as a number; [None] when there is
    no digit. *)
Fixpoint digits_prefix (radix : Z) (s : string) (acc : option Z) : option Z :=
  match s with
  | String c s' =>
      match digit_value radix c with
      | Some d =>
          digits_prefix radix s'
            (Some (radix * match acc with Some a => a | None => 0 end + d)%Z)
      | None => acc
      end
  | EmptyString => acc
  end.

(** [parseInt(s)] without a radix; [None] is NaN. *)
Definition parseInt (s : string) : option Z :=
  let s1 := trim_start s in
  let '(sign, s2) :=
    match s1 with
    | String "-"%char r => ((-1)%Z, r)
    | String "+"%char r => (1%Z, r)
    | _ => (1%Z, s1)
    end in
  let '(radix, s3) :=
    match s2 with
    | String "0"%char (String "x"%char r) => (16%Z, r)
    | String "0"%char (String "X"%char r) => (16%Z, r)
    | _ => (10%Z, s2)
    end in
  option_map (Z.mul sign) (digits_prefix radix s3 None).

(** Decimal digits at the head of [s]: their value, their number, and the
    rest of the string. *)
Fixpoint take_digits (s : string) (value : Z) (count : nat)
  : Z * nat * string :=
  match s with
  | String c s' =>
      match digit_value 10 c with
      | Some d => take_digits s' (10 * value + d)%Z (S count)
      | None => (value, count, s)
      end
  | EmptyString => (value, count, s)
  end.

(** The optional exponent part [e[+-]digits] of a decimal literal, and
    what follows it. *)
Definition exponent_part (s : string) : Z * string :=
  match s with
  | String e r =>
      if Ascii.eqb e "e"%char || Ascii.eqb e "E"%char then
        let '(sg, r') :=
          match r with
          | String "-"%char r' => ((-1)%Z, r')
          | String "+"%char r' => (1%Z, r')
          | _ => (1%Z, r)
          end in
        let '(ev, ec, rest) := take_digits r' 0%Z O in
        match ec with
        | O => (0%Z, s)
        | S _ => ((sg * ev)%Z, rest)
        end
      else (0%Z, s)
  | EmptyString => (0%Z, s)
  end.

(** The longest signed decimal literal (or [Infinity]) at the head of
    [s], and the rest; [None] when [s] does not start with one. *)
Definition scan_float (s : string) : option (jsnum * string) :=
  let '(neg, s2) :=
    match s with
    | String "-"%char r => (true, r)
    | String "+"%char r => (false, r)
    | _ => (false, s)
    end in
  if prefix "Infinity" s2 then Some (if neg then NInf else PInf, drop 8 s2)
  else
    let '(iv, ic, r1) := take_digits s2 0%Z O in
    let '(fv, fc, r2) :=
      match r1 with
      | String "."%char r => take_digits r 0%Z O
      | _ => (0%Z, O, r1)
      end in
    match ic, fc with
    | O, O => None
    | _, _ =>
        let mantissa := (inject_Z iv + inject_Z fv / (10 ^ Z.of_nat fc))%Q in
        let '(ex, rest) := exponent_part r2 in
        let value := (mantissa * 10 ^ ex)%Q in
        Some (Fin (if neg then - value else value)%Q, rest)
    end.

(** [parseFloat(s)]: the value of the longest prefix of the trimmed
    string that is a decimal literal. *)
Definition parseFloat (s : string) : jsnum :=
  match scan_float (trim_start s) with
  | Some (n, _) => n
  | None => NaN
  end.

Fixpoint all_white_space (s : string) : bool :=
  match s with
  | String c s' => is_white_space c && all_white_space s'
  | EmptyString => true
  end.

(** All of [s] as digits of the radix; [None] when empty or not digits. *)
Fixpoint digits_all (radix : Z) (s : string) (acc : option Z) : option Z :=
  match s with
  | String c s' =>
      match digit_value radix c with
      | Some d =>
          digits_all radix s'
            (Some (radix * match acc with Some a => a | None => 0 end + d)%Z)
      | None => if all_white_space s then acc else None
      end
  | EmptyString => acc
  end.

Definition num_of_opt_Z (z : option Z) : jsnum :=
  match z with
  | Some v => Fin (inject_Z v)
  | None => NaN
  end.

(** [Number(s)], the conversion the comparison operators apply to a
    string: the whole trimmed string must be a numeric literal. *)
Definition string_to_number (s : string) : jsnum :=
  let t := trim_start s in
  match t with
  | EmptyString => Fin 0
  | String "0"%char (String "x"%char r) | String "0"%char (String "X"%char r) =>
      num_of_opt_Z (digits_all 16 r None)
  | String "0"%char (String "o"%char r) | String "0"%char (String "O"%char r) =>
      num_of_opt_Z (digits_all 8 r None)
  | String "0"%char (String "b"%char r) | String "0"%char (String "B"%char r) =>
      num_of_opt_Z (digits_all 2 r None)
  | _ =>
      match scan_float t with
      | Some (n, rest) => if all_white_space rest then n else NaN
      | None => NaN
      end
  end.

(** [String(z)] for an integer. *)
Definition string_of_Z (z : Z) : string :=
  DecimalString.NilZero.string_of_int (Z.to_int z).

(* ================================================================== *)
(** * Hierarchy builder *)
(* ================================================================== *)

(** An XML element as the DOM presents it to the parser: tag, attributes
    and child elements, in document order. *)
#[local] Unset Elimination Schemes.

Inductive Element : Type :=
  mkElement (el_tag : string) (el_attrs : list (string * string))
            (el_children : list Element).

Definition el_tag (e : Element) : string :=
  match e with mkElement t _ _ => t end.
Definition el_attrs (e : Element) : list (string * string) :=
  match e with mkElement _ a _ => a end.
Definition el_children (e : Element) : list Element :=
  match e with mkElement _ _ c => c end.

(** [element.getAttribute(k)]; [None] is [null]. *)
Fixpoint lookup_attr (k : string) (l : list (string * string)) : option string :=
  match l with
  | [] => None
  | (k', v) :: l' => if String.eqb k' k then Some v else lookup_attr k l'
  end.

Definition getAttribute (e : Element) (k : string) : option string :=
  lookup_attr k (el_attrs e).

(** The elements below [e], in document order. *)
Fixpoint descendants (e : Element) : list Element :=
  match e with
  | mkElement _ _ cs =>
      (fix go (l : list Element) : list Element :=
         match l with
         | [] => []
         | c :: l' => c :: descendants c ++ go l'
         end) cs
  end.

(** [element.querySelectorAll(tag)]. *)
Definition querySelectorAll (e : Element) (tag : string) : list Element :=
  filter (fun d => String.eqb (el_tag d) tag) (descendants e).

(** A parsed document: its top-level elements.  [xmlDoc.querySelectorAll]
    also sees these themselves. *)
Definition Document : Type := list Element.

Definition doc_querySelectorAll (doc : Document) (tag : string) : list Element :=
  filter (fun d => String.eqb (el_tag d) tag)
         (flat_map (fun e => e :: descendants e) doc).

(** [element.querySelector(':scope > tag')]. *)
Definition child_by_tag (e : Element) (tag : string) : option Element :=
  find (fun c => String.eqb (el_tag c) tag) (el_children e).

(** The three states of a visibility flag, and [null]. *)
Inductive Visibility : Type :=
| VisNull
| VisInherit
| VisBool (b : bool).

Definition int_is (v : option Z) (z : Z) : bool :=
  match v with
  | Some x => Z.eqb x z
  | None => false
  end.

Definition parseVisibility (attr : option string) : Visibility :=
  match attr with
  | None => VisNull
  | Some a =>
      let val := parseInt a in
      if int_is val (-1) then VisInherit
      else if int_is val 0 then VisBool false
      else if int_is val 1 then VisBool true
      else VisNull
  end.

(** The mapping of the specification, on the integer read from the
    attribute: -1 is "inherit", 0 is false, 1 is true, anything else is
    [null]. *)
Definition visibility_of_int (v : option Z) : Visibility :=
  match v with
  | Some (-1)%Z => VisInherit
  | Some 0%Z => VisBool false
  | Some 1%Z => VisBool true
  | _ => VisNull
  end.

(** [parseFloat(attr)] of an attribute that may be [null]. *)
Definition parseFloat_attr (attr : option string) : jsnum :=
  match attr with
  | Some s => parseFloat s
  | None => NaN
  end.

Definition parseInt_attr (attr : option string) : option Z :=
  match attr with
  | Some s => parseInt s
  | None => None
  end.

(** Truthiness of a number. *)
Definition num_truthy (n : jsnum) : bool :=
  match n with
  | Fin q => negb (Qeq_bool q 0)
  | NaN => false
  | _ => true
  end.

Definition str_truthy (s : string) : bool :=
  match s with
  | EmptyString => false
  | _ => true
  end.

Definition opt_str_truthy (s : option string) : bool :=
  match s with
  | Some s' => str_truthy s'
  | None => false
  end.

(** A curve of a node; a coordinate is a number or [null]. *)
Record CurvePoint : Type := mkCurvePoint { pt_in : option jsnum; pt_out : option jsnum }.
Record Curve : Type := mkCurve { reset : bool; points : list CurvePoint }.

Definition parseCurve (curveElement : Element) : Curve :=
  match getAttribute curveElement "reset" with
  | Some "1" => mkCurve true []
  | _ =>
      mkCurve false
        (map (fun point =>
                mkCurvePoint (Some (parseFloat_attr (getAttribute point "in")))
                             (Some (parseFloat_attr (getAttribute point "out"))))
             (querySelectorAll curveElement "point"))
  end.

(** The fields every parsed option group carries. *)
Record OptionFields : Type := mkOptionFields {
  showInvert : Visibility;
  showCurve : Visibility;
  showSensitivity : Visibility;
  invert : bool;
  invertCvar : option string;
  exponent : option jsnum;
  curve : option Curve
}.

(** The own properties of a node object other than [children].  A field
    that the object may lack is an [option]; [isSection] and [disabled]
    are only ever set to [true], and [false] stands for their absence. *)
Record NodeData : Type := mkNodeData {
  name : string;
  label : string;
  path : option string;
  deviceType : string;
  fields : option OptionFields;
  sectionType : option string;
  isSection : bool;
  disabled : bool;
  disabledReason : option string;
  instances : option Z;
  sensitivityMin : option jsnum;
  sensitivityMax : option jsnum
}.

Inductive Node : Type :=
  mkNode (data : NodeData) (children : list Node).

#[local] Set Elimination Schemes.

Definition data (n : Node) : NodeData :=
  match n with mkNode d _ => d end.
Definition children (n : Node) : list Node :=
  match n with mkNode _ c => c end.

Definition node_name (n : Node) : string := name (data n).
Definition node_path (n : Node) : option string := path (data n).

Definition opt_or {A : Type} (a : option A) (b : A) : A :=
  match a with
  | Some x => x
  | None => b
  end.

Definition truthy_num_or_null (n : jsnum) : option jsnum :=
  if num_truthy n then Some n else None.

(** [element.getAttribute('name') || 'root']. *)
Definition group_name (attrs : list (string * string)) : string :=
  match lookup_attr "name" attrs with
  | Some s => if str_truthy s then s else "root"
  | None => "root"
  end.

(** [UILabel], or else [name], or else ['Unknown']. *)
Definition group_label (attrs : list (string * string)) : string :=
  match lookup_attr "UILabel" attrs with
  | Some s => if str_truthy s then s else
                match lookup_attr "name" attrs with
                | Some s' => if str_truthy s' then s' else "Unknown"
                | None => "Unknown"
                end
  | None => match lookup_attr "name" attrs with
            | Some s' => if str_truthy s' then s' else "Unknown"
            | None => "Unknown"
            end
  end.

(** The path: the parent's path, a separator and the [name] attribute (a
    missing attribute is printed as [null]); under a parent without a
    path the attribute alone. *)
Definition group_path (attrs : list (string * string))
           (parentPath : option string) : option string :=
  if opt_str_truthy parentPath
  then Some (opt_or parentPath "" ++ "." ++ opt_or (lookup_attr "name" attrs) "null")
  else lookup_attr "name" attrs.

(** The node object [parseOptionGroup] builds, before its children are
    pushed. *)
Definition group_data (attrs : list (string * string)) (cs : list Element)
           (deviceType : string) (parentPath : option string) : NodeData :=
  {| name := group_name attrs;
     label := group_label attrs;
     path := group_path attrs parentPath;
     deviceType := deviceType;
     fields := Some {|
       showInvert := parseVisibility (lookup_attr "UIShowInvert" attrs);
       showCurve := parseVisibility (lookup_attr "UIShowCurve" attrs);
       showSensitivity := parseVisibility (lookup_attr "UIShowSensitivity" attrs);
       invert := match lookup_attr "invert" attrs with
                 | Some "1" => true
                 | _ => false
                 end;
       invertCvar := match lookup_attr "invert_cvar" attrs with
                     | Some s => if str_truthy s then Some s else None
                     | None => None
                     end;
       exponent := truthy_num_or_null (parseFloat_attr (lookup_attr "exponent" attrs));
       curve := option_map parseCurve
                  (find (fun c => String.eqb (el_tag c) "nonlinearity_curve") cs) |};
     sectionType := None;
     isSection := false;
     disabled := false;
     disabledReason := None;
     instances := None;
     sensitivityMin := None;
     sensitivityMax := None |}.

Fixpoint parseOptionGroup (element : Element) (deviceType : string)
         (parentPath : option string) : Node :=
  match element with
  | mkElement _ attrs cs =>
      mkNode (group_data attrs cs deviceType parentPath)
        ((fix go (l : list Element) : list Node :=
            match l with
            | [] => []
            | c :: l' =>
                if String.eqb (el_tag c) "optiongroup"
                then parseOptionGroup c deviceType (group_path attrs parentPath)
                       :: go l'
                else go l'
            end) cs)
  end.

(* ================================================================== *)
(** * Display transformer *)
(* ================================================================== *)

Definition set_name (v : string) (d : NodeData) : NodeData :=
  mkNodeData v (label d) (path d) (deviceType d) (fields d) (sectionType d)
             (isSection d) (disabled d) (disabledReason d) (instances d)
             (sensitivityMin d) (sensitivityMax d).

Definition set_label (v : string) (d : NodeData) : NodeData :=
  mkNodeData (name d) v (path d) (deviceType d) (fields d) (sectionType d)
             (isSection d) (disabled d) (disabledReason d) (instances d)
             (sensitivityMin d) (sensitivityMax d).

Definition set_path (v : option string) (d : NodeData) : NodeData :=
  mkNodeData (name d) (label d) v (deviceType d) (fields d) (sectionType d)
             (isSection d) (disabled d) (disabledReason d) (instances d)
             (sensitivityMin d) (sensitivityMax d).

Definition set_fields (v : option OptionFields) (d : NodeData) : NodeData :=
  mkNodeData (name d) (label d) (path d) (deviceType d) v (sectionType d)
             (isSection d) (disabled d) (disabledReason d) (instances d)
             (sensitivityMin d) (sensitivityMax d).

Definition set_sectionType (v : option string) (d : NodeData) : NodeData :=
  mkNodeData (name d) (label d) (path d) (deviceType d) (fields d) v
             (isSection d) (disabled d) (disabledReason d) (instances d)
             (sensitivityMin d) (sensitivityMax d).

Definition set_isSection (v : bool) (d : NodeData) : NodeData :=
  mkNodeData (name d) (label d) (path d) (deviceType d) (fields d)
             (sectionType d) v (disabled d) (disabledReason d) (instances d)
             (sensitivityMin d) (sensitivityMax d).

Definition set_disabled (v : bool) (reason : option string) (d : NodeData)
  : NodeData :=
  mkNodeData (name d) (label d) (path d) (deviceType d) (fields d)
             (sectionType d) (isSection d) v reason (instances d)
             (sensitivityMin d) (sensitivityMax d).

Definition set_range (i : option Z) (lo hi : option jsnum) (d : NodeData)
  : NodeData :=
  mkNodeData (name d) (label d) (path d) (deviceType d) (fields d)
             (sectionType d) (isSection d) (disabled d) (disabledReason d)
             i lo hi.

(** What [JSON.stringify] leaves of a number: NaN and the infinities are
    written as [null]. *)
Definition jsonNum (n : jsnum) : option jsnum :=
  match n with
  | Fin q => Some (Fin q)
  | _ => None
  end.

Definition jsonOptNum (n : option jsnum) : option jsnum :=
  match n with
  | Some x => jsonNum x
  | None => None
  end.

Definition jsonCurve (c : Curve) : Curve :=
  mkCurve (reset c)
          (map (fun p => mkCurvePoint (jsonOptNum (pt_in p)) (jsonOptNum (pt_out p)))
               (points c)).

Definition jsonFields (f : OptionFields) : OptionFields :=
  mkOptionFields (showInvert f) (showCurve f) (showSensitivity f) (invert f)
                 (invertCvar f) (jsonOptNum (exponent f))
                 (option_map jsonCurve (curve f)).

Definition jsonData (d : NodeData) : NodeData :=
  set_range (instances d) (jsonOptNum (sensitivityMin d))
            (jsonOptNum (sensitivityMax d))
            (set_fields (option_map jsonFields (fields d)) d).

(** [JSON.parse(JSON.stringify(node))]: an independent copy. *)
Fixpoint jsonClone (n : Node) : Node :=
  match n with
  | mkNode d cs => mkNode (jsonData d) (map jsonClone cs)
  end.

(** The four replacements [markSectionType] chains on a path, for the
    segment [seg]. *)
Definition rewrite_with (seg pathPrefix p : string) : string :=
  replace_whole seg pathPrefix
    (replace_at_start (seg ++ ".") (pathPrefix ++ ".")
       (replace_at_end ("." ++ seg) ("." ++ pathPrefix)
          (replace_first ("." ++ seg ++ ".") ("." ++ pathPrefix ++ ".") p))).

Definition rewrite_path (pathPrefix p : string) : string :=
  rewrite_with "inversion" pathPrefix p.

Fixpoint markSectionType (sectionType : string) (pathPrefix : option string)
         (node : Node) : Node :=
  match node with
  | mkNode d cs =>
      let d1 := set_sectionType (Some sectionType) d in
      let d2 :=
        match pathPrefix, path d1 with
        | Some pre, Some p =>
            if str_truthy pre && str_truthy p
            then set_path (Some (rewrite_path pre p)) d1
            else d1
        | _, _ => d1
        end in
      mkNode d2 (map (markSectionType sectionType pathPrefix) cs)
  end.

Definition disabled_reason : string :=
  "Sensitivity curve settings do not persist properly in Star Citizen and have been temporarily disabled.".

Fixpoint markDisabled (node : Node) : Node :=
  match node with
  | mkNode d cs =>
      mkNode (set_disabled true (Some disabled_reason) d) (map markDisabled cs)
  end.

Definition map_data (f : NodeData -> NodeData) (n : Node) : Node :=
  match n with
  | mkNode d cs => mkNode (f d) cs
  end.

Definition name_is (nm : string) (c : Node) : bool := String.eqb (node_name c) nm.

Definition is_curves_container (c : Node) : bool :=
  name_is "mouse_curves" c || name_is "thumbstick_curves" c
  || name_is "joystick_curves" c.

(** The node whose children hold the [inversion] subtree: the curves
    container under [master], or the raw root. *)
Definition contentNode (rawData : Node) : Node :=
  match find (name_is "master") (children rawData) with
  | Some master =>
      match find is_curves_container (children master) with
      | Some curvesNode => curvesNode
      | None => rawData
      end
  | None => rawData
  end.

Definition inversionClone (inversionNode : Node) : Node :=
  map_data (fun d => set_isSection true (set_label "@ui_COInversionSettings" d))
           (markSectionType "inversion" None (jsonClone inversionNode)).

Definition curvesClone (deviceType : string) (inversionNode : Node) : Node :=
  markDisabled
    (map_data
       (fun d =>
          set_disabled true (Some disabled_reason)
            (set_isSection true
               (set_path (Some "sensitivity_curves")
                  (set_label
                     (if String.eqb deviceType "joystick"
                      then "@ui_COMasterSensitivityCurvesJoystick"
                      else "@ui_COMasterSensitivityCurvesThumb")
                     (set_name "sensitivity_curves" d)))))
       (markSectionType "curves" (Some "sensitivity_curves")
                        (jsonClone inversionNode))).

Definition instances_or_1 (i : option Z) : Z :=
  match i with
  | Some z => if Z.eqb z 0 then 1%Z else z
  | None => 1%Z
  end.

Definition display_root (lbl deviceType : string) (rawData : Node)
           (sections : list Node) : Node :=
  mkNode {| name := "root";
            label := lbl;
            path := Some "root";
            deviceType := deviceType;
            fields := None;
            sectionType := None;
            isSection := false;
            disabled := false;
            disabledReason := None;
            instances := Some (instances_or_1 (instances (data rawData)));
            sensitivityMin := sensitivityMin (data rawData);
            sensitivityMax := sensitivityMax (data rawData) |}
         sections.

Definition transformToSCHierarchy (rawData : option Node) (deviceType : string)
  : option Node :=
  match rawData with
  | None => None
  | Some raw =>
      let content := contentNode raw in
      if String.eqb deviceType "joystick" || String.eqb deviceType "gamepad" then
        match find (name_is "inversion") (children content) with
        | Some inversionNode =>
            Some (display_root
                    (if String.eqb deviceType "joystick"
                     then "Joystick Controls" else "Gamepad Controls")
                    deviceType raw
                    [inversionClone inversionNode;
                     curvesClone deviceType inversionNode])
        | None => Some raw
        end
      else
        match find (name_is "inversion") (children content) with
        | Some inversionNode =>
            Some (display_root "Mouse Controls" deviceType raw
                               [inversionClone inversionNode])
        | None => Some raw
        end
  end.

(** [controlsData]: one tree, or [null], per device class. *)
Record ControlsData : Type := mkControlsData {
  cd_keyboard : option Node;
  cd_gamepad : option Node;
  cd_joystick : option Node
}.

(** [controlsData[deviceType]]; [None] also stands for a missing key. *)
Definition tree_of (cd : ControlsData) (deviceType : string) : option Node :=
  if String.eqb deviceType "keyboard" then cd_keyboard cd
  else if String.eqb deviceType "gamepad" then cd_gamepad cd
  else if String.eqb deviceType "joystick" then cd_joystick cd
  else None.

Definition set_tree (deviceType : string) (t : option Node) (cd : ControlsData)
  : ControlsData :=
  if String.eqb deviceType "keyboard" then mkControlsData t (cd_gamepad cd) (cd_joystick cd)
  else if String.eqb deviceType "gamepad" then mkControlsData (cd_keyboard cd) t (cd_joystick cd)
  else if String.eqb deviceType "joystick" then mkControlsData (cd_keyboard cd) (cd_gamepad cd) t
  else cd.

(** [result.hasOwnProperty(type)]. *)
Definition is_device_class (type : string) : bool :=
  String.eqb type "keyboard" || String.eqb type "gamepad"
  || String.eqb type "joystick".

Definition default_node (lbl deviceType : string) (inst : option Z) : Node :=
  mkNode {| name := "root";
            label := lbl;
            path := None;
            deviceType := deviceType;
            fields := None;
            sectionType := None;
            isSection := false;
            disabled := false;
            disabledReason := None;
            instances := inst;
            sensitivityMin := None;
            sensitivityMax := None |}
         [].

Definition getDefaultControlsData : ControlsData :=
  {| cd_keyboard := Some (default_node "Keyboard Settings" "keyboard" None);
     cd_gamepad := Some (default_node "Gamepad Settings" "gamepad" None);
     cd_joystick := Some (default_node "Joystick Settings" "joystick" (Some 8%Z)) |}.

(** [rawData] of one [optiontree] element: the parsed groups, with the
    instance count and the sensitivity range of the tree. *)
Definition rawData_of (tree : Element) (type : string) : Node :=
  map_data
    (set_range
       (Some (instances_or_1 (parseInt_attr (getAttribute tree "instances"))))
       (Some (opt_or (truthy_num_or_null
                        (parseFloat_attr (getAttribute tree "UISensitivityMin")))
                     (Fin (1 # 100))))
       (Some (opt_or (truthy_num_or_null
                        (parseFloat_attr (getAttribute tree "UISensitivityMax")))
                     (Fin 2))))
    (parseOptionGroup tree type (Some "")).

(** The body of the [forEach] over the [optiontree] elements. *)
Definition parse_tree (result : ControlsData) (tree : Element) : ControlsData :=
  match getAttribute tree "type" with
  | Some type =>
      if str_truthy type && is_device_class type then
        set_tree type (transformToSCHierarchy (Some (rawData_of tree type)) type)
                 result
      else result
  | None => result
  end.

(** [parseOptionTreesFromXml] on the document the DOM parser returned. *)
Definition parseOptionTreesFromXml (xmlDoc : Document) : ControlsData :=
  fold_left parse_tree (doc_querySelectorAll xmlDoc "optiontree")
            (mkControlsData None None None).

(** The outcome of an awaited backend call. *)
Inductive Outcome (A : Type) : Type :=
| Resolved (a : A)
| Rejected.
Arguments Rejected {A}.

(** [loadControlsDataFromXml]: the value assigned to [controlsData]. *)
Definition loadControlsDataFromXml (xml : Outcome Document) : ControlsData :=
  match xml with
  | Resolved doc => parseOptionTreesFromXml doc
  | Rejected => getDefaultControlsData
  end.

(** [loadControlsData]: the backend's own answer is taken as it is. *)
Definition loadControlsData (backend : Outcome ControlsData)
           (xml : Outcome Document) : ControlsData :=
  match backend with
  | Resolved d => d
  | Rejected => loadControlsDataFromXml xml
  end.

(** [findNodeByName(root, name)]. *)
Fixpoint findNodeByName (root : Node) (nm : string) : option Node :=
  if negb (str_truthy nm) then None
  else
    match root with
    | mkNode d cs =>
        if String.eqb (name d) nm then Some root
        else
          (fix search (l : list Node) : option Node :=
             match l with
             | [] => None
             | child :: l' =>
                 match findNodeByName child nm with
                 | Some found => Some found
                 | None => search l'
                 end
             end) cs
    end.

(* ================================================================== *)
(** * Values and objects *)
(* ================================================================== *)

#[local] Unset Elimination Schemes.

Inductive Value : Type :=
| VUndefined
| VNull
| VBool (b : bool)
| VNum (n : jsnum)
| VStr (s : string)
| VArr (elems : list Value)
| VObj (props : list (string * Value)).

#[local] Set Elimination Schemes.

(** An object: its own properties in insertion order, keys distinct. *)
Definition obj : Type := list (string * Value).

(** The own property [k] of [o], or [undefined].  This is [o[k]] at every
    key that [Object.prototype] does not supply. *)
Fixpoint get_own (o : obj) (k : string) : Value :=
  match o with
  | [] => VUndefined
  | (k', v) :: o' => if String.eqb k' k then v else get_own o' k
  end.

(** [o[k] = v]: an existing property keeps its place. *)
Fixpoint set_own (o : obj) (k : string) (v : Value) : obj :=
  match o with
  | [] => [(k, v)]
  | (k', v') :: o' =>
      if String.eqb k' k then (k', v) :: o' else (k', v') :: set_own o' k v
  end.

Fixpoint all_digits (s : string) : bool :=
  match s with
  | String c s' =>
      match digit_value 10 c with
      | Some _ => all_digits s'
      | None => false
      end
  | EmptyString => true
  end.

(** A key that is an array index: a canonical decimal below [2^32 - 1]. *)
Definition array_index (k : string) : option nat :=
  match k with
  | EmptyString => None
  | String c r =>
      if all_digits k && (negb (Ascii.eqb c "0"%char) || String.eqb r "") then
        match digits_prefix 10 k None with
        | Some v => if (v <? 4294967295)%Z then Some (Z.to_nat v) else None
        | None => None
        end
      else None
  end.

Definition nullish (v : Value) : bool :=
  match v with
  | VUndefined | VNull => true
  | _ => false
  end.

Definition is_undefined (v : Value) : bool :=
  match v with
  | VUndefined => true
  | _ => false
  end.

Definition truthy (v : Value) : bool :=
  match v with
  | VUndefined | VNull => false
  | VBool b => b
  | VNum n => num_truthy n
  | VStr s => str_truthy s
  | VArr _ | VObj _ => true
  end.

(** [v === s] for a string constant. *)
Definition str_is (v : Value) (s : string) : bool :=
  match v with
  | VStr s' => String.eqb s' s
  | _ => false
  end.

(** [v === n] for a number constant. *)
Definition num_is (v : Value) (n : jsnum) : bool :=
  match v with
  | VNum m => jsnum_eqb m n
  | _ => false
  end.

Definition num_of_nat (n : nat) : jsnum := Fin (inject_Z (Z.of_nat n)).

(** [v[k]] on a value that is neither [undefined] nor [null], at a key
    the prototype of the value does not supply: an object, an array and a
    string give what they own. *)
Definition prop (v : Value) (k : string) : Value :=
  match v with
  | VObj o => get_own o k
  | VArr l =>
      if String.eqb k "length" then VNum (num_of_nat (List.length l))
      else match array_index k with
           | Some i => nth i l VUndefined
           | None => VUndefined
           end
  | VStr s =>
      if String.eqb k "length" then VNum (num_of_nat (String.length s))
      else match array_index k with
           | Some i => match String.get i s with
                       | Some c => VStr (String c EmptyString)
                       | None => VUndefined
                       end
           | None => VUndefined
           end
  | _ => VUndefined
  end.

(** [base[k] = v].  The base must be an object: on [undefined] and [null],
    and in strict code on every other primitive, the assignment throws.
    Arrays do not occur as bases.  The key is not [__proto__], at which
    the assignment sets the prototype and adds no property. *)
Definition write (base : Value) (k : string) (v : Value) : option Value :=
  match base with
  | VObj o => Some (VObj (set_own o k v))
  | _ => None
  end.

(** [Number(v)] for plain data. *)
Fixpoint to_number (v : Value) : jsnum :=
  match v with
  | VUndefined => NaN
  | VNull => Fin 0
  | VBool b => Fin (if b then 1 else 0)
  | VNum n => n
  | VStr s => string_to_number s
  | VArr [] => Fin 0
  | VArr [x] =>
      match x with
      | VUndefined | VNull => Fin 0
      | VBool _ => NaN
      | VNum n => n
      | VStr s => string_to_number s
      | VArr _ => to_number x
      | VObj _ => NaN
      end
  | VArr _ => NaN
  | VObj _ => NaN
  end.

(** [v > 0]. *)
Definition gt_zero (v : Value) : bool :=
  match to_number v with
  | Fin q => negb (Qle_bool q 0)
  | PInf => true
  | _ => false
  end.

Fixpoint insert_by_index (e : nat * (string * Value))
         (l : list (nat * (string * Value))) : list (nat * (string * Value)) :=
  match l with
  | [] => [e]
  | e' :: l' =>
      if (fst e <=? fst e')%nat then e :: e' :: l'
      else e' :: insert_by_index e l'
  end.

Definition index_entries (o : obj) : list (nat * (string * Value)) :=
  fold_right
    (fun kv acc =>
       match array_index (fst kv) with
       | Some i => insert_by_index (i, kv) acc
       | None => acc
       end) [] o.

Definition is_index_key (kv : string * Value) : bool :=
  match array_index (fst kv) with
  | Some _ => true
  | None => false
  end.

Fixpoint indexed {A : Type} (f : A -> Value) (i : nat) (l : list A)
  : list (string * Value) :=
  match l with
  | [] => []
  | x :: l' => (string_of_Z (Z.of_nat i), f x) :: indexed f (S i) l'
  end.

(** [Object.entries(v)]: index keys first, ascending, then the other keys
    in insertion order. *)
Definition own_entries (v : Value) : list (string * Value) :=
  match v with
  | VObj o =>
      map snd (index_entries o) ++ filter (fun kv => negb (is_index_key kv)) o
  | VArr l => indexed (fun x => x) O l
  | VStr s =>
      indexed (fun c => VStr (String c EmptyString)) O (list_ascii_of_string s)
  | _ => []
  end.

(** [v || {}]. *)
Definition or_empty (v : Value) : Value :=
  if truthy v then v else VObj [].

(* ================================================================== *)
(** * Settings store *)
(* ================================================================== *)

(** The module-level variables the store operations read and write.
    [syncScheduled] stands for the armed debounce timer. *)
Record State : Type := mkState {
  controlsData : option ControlsData;
  currentDeviceType : string;
  currentGamepadInstance : Z;
  currentJoystickInstance : Z;
  hasUnsavedChanges : bool;
  userSettings : obj;
  syncScheduled : bool
}.

Definition empty_userSettings : obj :=
  [("keyboard", VObj []); ("gamepad", VObj []); ("joystick", VObj [])].

Definition initial_state : State :=
  {| controlsData := None;
     currentDeviceType := "keyboard";
     currentGamepadInstance := 1;
     currentJoystickInstance := 1;
     hasUnsavedChanges := false;
     userSettings := empty_userSettings;
     syncScheduled := false |}.

Definition with_userSettings (us : obj) (st : State) : State :=
  mkState (controlsData st) (currentDeviceType st) (currentGamepadInstance st)
          (currentJoystickInstance st) (hasUnsavedChanges st) us
          (syncScheduled st).

(** Switching the device tab: class and, for the multi-instance classes,
    the instance. *)
Definition select_device (deviceType : string) (instance : Z) (st : State)
  : State :=
  mkState (controlsData st) deviceType
          (if String.eqb deviceType "gamepad" then instance
           else currentGamepadInstance st)
          (if String.eqb deviceType "joystick" then instance
           else currentJoystickInstance st)
          (hasUnsavedChanges st) (userSettings st) (syncScheduled st).

(** The bucket the store operations work on: [settings] of
    [getUserSetting].  [None]: reading an instance of a missing class
    object throws. *)
Definition current_settings (st : State) : option Value :=
  if String.eqb (currentDeviceType st) "joystick" then
    let j := get_own (userSettings st) "joystick" in
    if nullish j then None
    else Some (or_empty (prop j (string_of_Z (currentJoystickInstance st))))
  else if String.eqb (currentDeviceType st) "gamepad" then
    let g := get_own (userSettings st) "gamepad" in
    if nullish g then None
    else Some (or_empty (prop g (string_of_Z (currentGamepadInstance st))))
  else Some (or_empty (get_own (userSettings st) (currentDeviceType st))).

(** [pathSettings && pathSettings[settingName] !== undefined], with the
    value. *)
Definition own_setting (settings : Value) (key settingName : string)
  : option Value :=
  let pathSettings := prop settings key in
  if truthy pathSettings && negb (is_undefined (prop pathSettings settingName))
  then Some (prop pathSettings settingName)
  else None.

Definition lookup_setting (settings : Value) (path settingName : string)
           (defaultValue : Value) : Value :=
  match own_setting settings path settingName with
  | Some v => v
  | None =>
      let optionName := last_segment path in
      if negb (String.eqb optionName path) then
        match own_setting settings optionName settingName with
        | Some v => v
        | None => defaultValue
        end
      else defaultValue
  end.

Definition getUserSetting (st : State) (path settingName : string)
           (defaultValue : Value) : option Value :=
  match current_settings st with
  | Some settings => Some (lookup_setting settings path settingName defaultValue)
  | None => None
  end.

Record Resolved_setting : Type := mkResolved {
  value : Value;
  inherited : bool;
  inheritedFrom : option string
}.

(** The loop of [getUserSettingWithInheritance], from [i] down to [1]. *)
Fixpoint walk_parents (settings : Value) (pathParts : list string)
         (settingName : string) (defaultValue : Value) (i : nat)
  : Resolved_setting :=
  match i with
  | O => mkResolved defaultValue false None
  | S i' =>
      let parentPath := join_dot (firstn i pathParts) in
      let parentValue := lookup_setting settings parentPath settingName VUndefined in
      if negb (is_undefined parentValue)
      then mkResolved parentValue true (Some (nth i' pathParts EmptyString))
      else walk_parents settings pathParts settingName defaultValue i'
  end.

Definition resolve_setting (settings : Value) (path settingName : string)
           (defaultValue : Value) : Resolved_setting :=
  let directValue := lookup_setting settings path settingName VUndefined in
  if negb (is_undefined directValue) then mkResolved directValue false None
  else
    let pathParts := split_dot path in
    walk_parents settings pathParts settingName defaultValue
                 (List.length pathParts - 1).

Definition getUserSettingWithInheritance (st : State) (path settingName : string)
           (defaultValue : Value) : option Resolved_setting :=
  match current_settings st with
  | Some settings => Some (resolve_setting settings path settingName defaultValue)
  | None => None
  end.

Definition hasOwnSetting (st : State) (path settingName : string) : option bool :=
  option_map (fun v => negb (is_undefined v))
             (getUserSetting st path settingName VUndefined).

Definition bind {A B : Type} (a : option A) (f : A -> option B) : option B :=
  match a with
  | Some x => f x
  | None => None
  end.

Notation "x <- a ;; b" := (bind a (fun x => b))
  (at level 61, a at next level, right associativity).

(** [if (!base[k]) base[k] = {}]. *)
Definition ensure_object (base : Value) (k : string) : option Value :=
  if nullish base then None
  else if truthy (prop base k) then Some base
  else write base k (VObj []).

(** [bucket[path][settingName] = value], after [bucket[path]] is made
    sure of. *)
Definition store_in_bucket (bucket : Value) (path settingName : string)
           (v : Value) : option Value :=
  b1 <- ensure_object bucket path ;;
  r1 <- write (prop b1 path) settingName v ;;
  write b1 path r1.

(** The same one level up, for the classes kept per instance. *)
Definition store_in_instance (class : Value) (instKey path settingName : string)
           (v : Value) : option Value :=
  c1 <- ensure_object class instKey ;;
  b2 <- store_in_bucket (prop c1 instKey) path settingName v ;;
  write c1 instKey b2.

Definition setUserSetting (st : State) (path settingName : string) (v : Value)
  : option State :=
  us' <-
    (if String.eqb (currentDeviceType st) "joystick" then
       j <- store_in_instance (get_own (userSettings st) "joystick")
                              (string_of_Z (currentJoystickInstance st))
                              path settingName v ;;
       Some (set_own (userSettings st) "joystick" j)
     else if String.eqb (currentDeviceType st) "gamepad" then
       g <- store_in_instance (get_own (userSettings st) "gamepad")
                              (string_of_Z (currentGamepadInstance st))
                              path settingName v ;;
       Some (set_own (userSettings st) "gamepad" g)
     else
       b <- store_in_bucket (get_own (userSettings st) (currentDeviceType st))
                            path settingName v ;;
       Some (set_own (userSettings st) (currentDeviceType st) b)) ;;
  Some (mkState (controlsData st) (currentDeviceType st)
                (currentGamepadInstance st) (currentJoystickInstance st)
                true us' true).

(* ================================================================== *)
(** * Format converter *)
(* ================================================================== *)

(** An element of the list [generateControlOptionsXml] returns. *)
Record FlatEntry : Type := mkFlatEntry {
  fe_name : string;
  fe_invert : Value;
  fe_exponent : Value;
  fe_curve : Value
}.

(** [pathSettings.curveMode || 'exponent']. *)
Definition curveMode_of (pathSettings : Value) : Value :=
  let m := prop pathSettings "curveMode" in
  if truthy m then m else VStr "exponent".

Definition hasInvert (pathSettings : Value) : bool :=
  negb (is_undefined (prop pathSettings "invert")).

Definition hasExponent (pathSettings : Value) : bool :=
  str_is (curveMode_of pathSettings) "exponent"
  && negb (is_undefined (prop pathSettings "exponent"))
  && negb (num_is (prop pathSettings "exponent") (Fin 1)).

Definition hasCurve (pathSettings : Value) : bool :=
  let c := prop pathSettings "curve" in
  str_is (curveMode_of pathSettings) "curve"
  && truthy c
  && truthy (prop c "points")
  && gt_zero (prop (prop c "points") "length").

(** One turn of the loop over [Object.entries(settings)]: the entry that is
    pushed, if any.  The outer [None]: [pathSettings] is [undefined] or
    [null] and reading its property throws. *)
Definition entry_of (path : string) (pathSettings : Value)
  : option (option FlatEntry) :=
  if nullish pathSettings then None
  else
    let optionName := last_segment path in
    let hI := hasInvert pathSettings in
    let hE := hasExponent pathSettings in
    let hC := hasCurve pathSettings in
    if negb hI && negb hE && negb hC then Some None
    else
      Some (Some
        {| fe_name := optionName;
           fe_invert := if hI then prop pathSettings "invert" else VUndefined;
           fe_exponent := if hE then prop pathSettings "exponent"
                          else if hC then VNum (Fin 1) else VUndefined;
           fe_curve := if hC then prop pathSettings "curve" else VUndefined |}).

Fixpoint collect_entries (l : list (string * Value)) : option (list FlatEntry) :=
  match l with
  | [] => Some []
  | (path, pathSettings) :: l' =>
      e <- entry_of path pathSettings ;;
      rest <- collect_entries l' ;;
      Some (match e with
            | Some x => x :: rest
            | None => rest
            end)
  end.

(** The bucket [generateControlOptionsXml] reads: per instance for the
    joystick only. *)
Definition export_settings (us : obj) (deviceType : string) (instance : Z)
  : option Value :=
  if String.eqb deviceType "joystick" then
    let j := get_own us "joystick" in
    if nullish j then None
    else Some (or_empty (prop j (string_of_Z instance)))
  else Some (or_empty (get_own us deviceType)).

(** [generateControlOptionsXml(deviceType, instance)].  The outer [None] is
    a thrown error, the inner [None] the returned [null]. *)
Definition generateControlOptionsXml (us : obj) (deviceType : string)
           (instance : Z) : option (option (list FlatEntry)) :=
  settings <- export_settings us deviceType instance ;;
  match own_entries settings with
  | [] => Some None
  | entries =>
      controlOptions <- collect_entries entries ;;
      Some (match controlOptions with
            | [] => None
            | _ => Some controlOptions
            end)
  end.

(** A primitive delivered by the backend: a number or a string. *)
Inductive Scalar : Type :=
| SNum (n : jsnum)
| SStr (s : string).

(** [parseFloat(x)]; on a number, printing and reading it back gives the
    number. *)
Definition parseFloat_scalar (x : Scalar) : jsnum :=
  match x with
  | SNum n => n
  | SStr s => parseFloat s
  end.

(** One parsed option of a keybindings file as [loadControlSettings]
    receives it.  [attributes]: the [key, value] pairs; [None] for a field
    that is missing. *)
Record ControlOption : Type := mkControlOption {
  co_name : string;
  co_attributes : option (list (string * Scalar));
  co_curve_points : option (list (Scalar * Scalar))
}.

(** [instance] is kept as the string [parseInt] converts it to. *)
Record DeviceOptions : Type := mkDeviceOptions {
  device_type : string;
  instance : string;
  control_options : option (list ControlOption)
}.

Definition has_curve_points (opt : ControlOption) : bool :=
  match co_curve_points opt with
  | Some (_ :: _) => true
  | _ => false
  end.

(** The loop over [opt.attributes]. *)
Definition read_attribute (opt : ControlOption) (settings : obj)
           (attr : string * Scalar) : obj :=
  let '(key, v) := attr in
  if String.eqb key "invert" then
    set_own settings "invert"
            (VBool (match v with SStr "1" => true | _ => false end))
  else if String.eqb key "exponent" then
    let s1 := set_own settings "exponent" (VNum (parseFloat_scalar v)) in
    if negb (has_curve_points opt) then set_own s1 "curveMode" (VStr "exponent")
    else s1
  else settings.

Definition point_value (pt : Scalar * Scalar) : Value :=
  VObj [("in", VNum (parseFloat_scalar (fst pt)));
        ("out", VNum (parseFloat_scalar (snd pt)))].

(** The settings record rebuilt from one option. *)
Definition settings_of_option (opt : ControlOption) : obj :=
  let s1 := fold_left (read_attribute opt) (opt_or (co_attributes opt) []) [] in
  if has_curve_points opt then
    set_own (set_own s1 "curveMode" (VStr "curve")) "curve"
            (VObj [("points", VArr (map point_value (opt_or (co_curve_points opt) [])))])
  else s1.

(** The storage key: the path of the first node of that name in the tree
    of the device class, or else the bare name. *)
Definition fullPath_of (cd : option ControlsData) (deviceType optionName : string)
  : string :=
  match cd with
  | Some c =>
      match tree_of c deviceType with
      | Some treeData =>
          match findNodeByName treeData optionName with
          | Some node =>
              match node_path node with
              | Some p => if str_truthy p then p else optionName
              | None => optionName
              end
          | None => optionName
          end
      | None => optionName
      end
  | None => optionName
  end.

Definition instance_key (instance : string) : string :=
  string_of_Z (instances_or_1 (parseInt instance)).

(** Storing one rebuilt record. *)
Definition store_option (cd : option ControlsData) (deviceType instance : string)
           (us : obj) (opt : ControlOption) : option obj :=
  let settings := VObj (settings_of_option opt) in
  let fullPath := fullPath_of cd deviceType (co_name opt) in
  if String.eqb deviceType "joystick" then
    c1 <- ensure_object (get_own us "joystick") (instance_key instance) ;;
    b <- write (prop c1 (instance_key instance)) fullPath settings ;;
    j <- write c1 (instance_key instance) b ;;
    Some (set_own us "joystick" j)
  else
    let us1 := if truthy (get_own us deviceType) then us
               else set_own us deviceType (VObj []) in
    b <- write (get_own us1 deviceType) fullPath settings ;;
    Some (set_own us1 deviceType b).

Fixpoint store_options (cd : option ControlsData) (deviceType instance : string)
         (us : obj) (opts : list ControlOption) : option obj :=
  match opts with
  | [] => Some us
  | opt :: opts' =>
      us' <- store_option cd deviceType instance us opt ;;
      store_options cd deviceType instance us' opts'
  end.

Fixpoint load_devices (cd : option ControlsData) (us : obj)
         (deviceOptions : list DeviceOptions) : option obj :=
  match deviceOptions with
  | [] => Some us
  | deviceOpt :: rest =>
      us' <- store_options cd (device_type deviceOpt) (instance deviceOpt) us
                           (opt_or (control_options deviceOpt) []) ;;
      load_devices cd us' rest
  end.

(** [loadControlSettings(deviceOptions)]; [None] for the argument is a
    value that is not an array. *)
Definition loadControlSettings (st : State)
           (deviceOptions : option (list DeviceOptions)) : option State :=
  match deviceOptions with
  | None => Some st
  | Some l =>
      us <- load_devices (controlsData st) empty_userSettings l ;;
      Some (with_userSettings us st)
  end.

(** Modelled from the spec: the conversion of the list returned by
    [generateControlOptionsXml] into the argument of [loadControlSettings]
    is done by the backend, which is not part of the source given here.
    Section 6 of the specification gives one shape to both sides, a
    [name] with an optional boolean [invert], an optional number [exponent]
    and an optional [curve] of points, so a field is carried over when it
    has that type and is left out otherwise. *)
Definition attribute_of_invert (v : Value) : list (string * Scalar) :=
  match v with
  | VBool b => [("invert", SStr (if b then "1" else "0"))]
  | _ => []
  end.

Definition attribute_of_exponent (v : Value) : list (string * Scalar) :=
  match v with
  | VNum n => [("exponent", SNum n)]
  | _ => []
  end.

Definition scalar_of_coordinate (v : Value) : Scalar :=
  match v with
  | VNum n => SNum n
  | VStr s => SStr s
  | _ => SNum NaN
  end.

Definition curve_points_of (v : Value) : list (Scalar * Scalar) :=
  match prop v "points" with
  | VArr pts =>
      map (fun p => (scalar_of_coordinate (prop p "in"),
                     scalar_of_coordinate (prop p "out"))) pts
  | _ => []
  end.

Definition option_of_entry (e : FlatEntry) : ControlOption :=
  {| co_name := fe_name e;
     co_attributes := Some (attribute_of_invert (fe_invert e)
                            ++ attribute_of_exponent (fe_exponent e))%list;
     co_curve_points := Some (curve_points_of (fe_curve e)) |}.

Definition device_options_of (deviceType : string) (instance : Z)
           (entries : option (list FlatEntry)) : list DeviceOptions :=
  match entries with
  | Some l =>
      [ {| device_type := deviceType;
           instance := string_of_Z instance;
           control_options := Some (map option_of_entry l) |} ]
  | None => []
  end.

(* ================================================================== *)
(** * Auxiliary notions used in the statements *)
(* ================================================================== *)

Definition is_some {A : Type} (a : option A) : bool :=
  match a with
  | Some _ => true
  | None => false
  end.

(** [t] begins with a decimal digit. *)
Definition starts_with_digit (t : string) : bool :=
  match t with
  | String c _ => is_some (digit_value 10 c)
  | EmptyString => false
  end.

(** The document holds an [optiontree] element of the given type. *)
Definition has_optiontree (xmlDoc : Document) (type : string) : bool :=
  existsb (fun tree =>
             match getAttribute tree "type" with
             | Some t => String.eqb t type
             | None => false
             end)
          (doc_querySelectorAll xmlDoc "optiontree").

(** A document with a keyboard tree only. *)
Definition keyboard_only_doc : Document :=
  [mkElement "ActionMaps" []
     [mkElement "optiontree" [("type", "keyboard"); ("name", "root")] []]].

(** No ["."] in [s]. *)
Fixpoint dot_free (s : string) : bool :=
  match s with
  | String c s' => negb (Ascii.eqb c "."%char) && dot_free s'
  | EmptyString => true
  end.

(** The segments, each led by its separator. *)
Fixpoint tail_str (rest : list string) : string :=
  match rest with
  | [] => EmptyString
  | s :: rest' => "." ++ s ++ tail_str rest'
  end.

Definition is_nil {A : Type} (l : list A) : bool :=
  match l with
  | [] => true
  | _ => false
  end.

(** What the four replacements do to the segments of a path.  Past the
    first segment: the first occurrence of [seg] that is not the last
    segment, then [seg] as the last segment. *)
Fixpoint replace_first_inner (seg pre : string) (rest : list string)
  : list string :=
  match rest with
  | [] => []
  | s1 :: rest' =>
      if String.eqb seg s1 && negb (is_nil rest') then pre :: rest'
      else s1 :: replace_first_inner seg pre rest'
  end.

Fixpoint replace_last (seg pre : string) (rest : list string) : list string :=
  match rest with
  | [] => []
  | s1 :: rest' =>
      if String.eqb s1 seg && is_nil rest' then [pre]
      else s1 :: replace_last seg pre rest'
  end.

(** [seg] as the first of several segments, and as the only segment. *)
Definition replace_head (seg pre : string) (segs : list string) : list string :=
  match segs with
  | s0 :: rest =>
      if String.eqb seg s0 && negb (is_nil rest) then pre :: rest else segs
  | [] => []
  end.

Definition replace_only (seg pre : string) (segs : list string) : list string :=
  match segs with
  | s0 :: rest =>
      if String.eqb s0 seg && is_nil rest then [pre] else segs
  | [] => []
  end.

Definition rewrite_segments (seg pre : string) (segs : list string)
  : list string :=
  match segs with
  | s0 :: rest =>
      replace_only seg pre
        (replace_head seg pre
           (s0 :: replace_last seg pre (replace_first_inner seg pre rest)))
  | [] => []
  end.

(** The rewriting the specification asks for: every segment equal to [seg]
    becomes [pre]. *)
Definition replace_every_segment (seg pre : string) (segs : list string)
  : list string :=
  map (fun s => if String.eqb s seg then pre else s) segs.

(** The paths of a subtree, in preorder, the root's first. *)
Fixpoint subtree_paths (n : Node) : list (option string) :=
  match n with
  | mkNode d cs => path d :: flat_map subtree_paths cs
  end.

(** What [markSectionType] does to the [path] property with the prefix
    [pre]: a missing or empty path is left alone. *)
Definition rewrite_opt (pre : string) (p : option string) : option string :=
  match p with
  | Some s => if str_truthy s then Some (rewrite_path pre s) else Some s
  | None => None
  end.

(** A joystick tree in which [inversion] names a second group further
    down. *)
Definition nested_inversion_doc : Document :=
  [mkElement "optiontree" [("type", "joystick"); ("name", "root")]
     [mkElement "optiongroup" [("name", "inversion")]
        [mkElement "optiongroup" [("name", "x")]
           [mkElement "optiongroup" [("name", "inversion")]
              [mkElement "optiongroup" [("name", "y")] []]]]]].

(** The second section of a display tree. *)
Definition curves_section (cd : ControlsData) (deviceType : string) : option Node :=
  match tree_of cd deviceType with
  | Some t => nth_error (children t) 1
  | None => None
  end.

Definition inversion_section (cd : ControlsData) (deviceType : string) : option Node :=
  match tree_of cd deviceType with
  | Some t => nth_error (children t) 0
  | None => None
  end.

(* ================================================================== *)
(** * Settings records as the data model describes them *)
(* ================================================================== *)

Inductive CurveMode : Type :=
| ModeExponent
| ModeCurve.

(** A stored curve: the [reset] flag and the points. *)
Record StoredCurve : Type := mkStoredCurve {
  sc_reset : bool;
  sc_points : list Point
}.

(** A settings record; an absent field is [None]. *)
Record SettingsRecord : Type := mkSettingsRecord {
  sr_invert : option bool;
  sr_curveMode : option CurveMode;
  sr_exponent : option jsnum;
  sr_curve : option StoredCurve
}.

Definition value_of_mode (m : CurveMode) : Value :=
  match m with
  | ModeExponent => VStr "exponent"
  | ModeCurve => VStr "curve"
  end.

Definition value_of_point (p : Point) : Value :=
  VObj [("in", VNum (Fin (in_ p))); ("out", VNum (Fin (out p)))].

Definition value_of_curve (c : StoredCurve) : Value :=
  VObj [("reset", VBool (sc_reset c));
        ("points", VArr (map value_of_point (sc_points c)))].

Definition field_of {A : Type} (k : string) (f : A -> Value) (a : option A) : obj :=
  match a with
  | Some x => [(k, f x)]
  | None => []
  end.

(** The object that holds the record in the store. *)
Definition value_of_record (r : SettingsRecord) : Value :=
  VObj (field_of "invert" VBool (sr_invert r)
        ++ field_of "curveMode" value_of_mode (sr_curveMode r)
        ++ field_of "exponent" VNum (sr_exponent r)
        ++ field_of "curve" value_of_curve (sr_curve r))%list.

Definition value_of_opt {A : Type} (f : A -> Value) (a : option A) : Value :=
  match a with
  | Some x => f x
  | None => VUndefined
  end.

(** The mode in force: an absent [curveMode] counts as "exponent". *)
Definition mode_in_force (r : SettingsRecord) : CurveMode :=
  opt_or (sr_curveMode r) ModeExponent.

(** The curve that is exported: under curve mode, when it has a point. *)
Definition exported_curve (r : SettingsRecord) : option StoredCurve :=
  match mode_in_force r, sr_curve r with
  | ModeCurve, Some c =>
      match sc_points c with
      | [] => None
      | _ => Some c
      end
  | _, _ => None
  end.

(** The exponent that is exported: under exponent mode the stored one when
    it is not [1]; alongside an exported curve the neutral [1]. *)
Definition exported_exponent (r : SettingsRecord) : option jsnum :=
  match mode_in_force r with
  | ModeExponent =>
      match sr_exponent r with
      | Some e => if jsnum_eqb e (Fin 1) then None else Some e
      | None => None
      end
  | ModeCurve =>
      match exported_curve r with
      | Some _ => Some (Fin 1)
      | None => None
      end
  end.

(** The entry of a record, if it has one. *)
Definition exported_entry (path : string) (r : SettingsRecord) : option FlatEntry :=
  match sr_invert r, exported_exponent r, exported_curve r with
  | None, None, None => None
  | i, e, c =>
      Some {| fe_name := last_segment path;
              fe_invert := value_of_opt VBool i;
              fe_exponent := value_of_opt VNum e;
              fe_curve := value_of_opt value_of_curve c |}
  end.

(** An entry as section 6 of the specification shapes it: a boolean
    [invert], a number [exponent], an object [curve], each optional, and at
    least one of them there. *)
Definition well_formed_entry (e : FlatEntry) : bool :=
  match fe_invert e with VUndefined | VBool _ => true | _ => false end
  && match fe_exponent e with VUndefined | VNum _ => true | _ => false end
  && match fe_curve e with
     | VUndefined => true
     | VObj _ => match prop (fe_curve e) "points" with VArr _ => true | _ => false end
     | _ => false
     end
  && negb (is_undefined (fe_invert e) && is_undefined (fe_exponent e)
           && is_undefined (fe_curve e)).

(** A user action on the store: the device tab is selected, then a
    setting is written. *)
Record SetAction : Type := mkSetAction {
  act_device : string;
  act_instance : Z;
  act_path : string;
  act_setting : string;
  act_value : Value
}.

Fixpoint run_actions (st : State) (acts : list SetAction) : option State :=
  match acts with
  | [] => Some st
  | a :: acts' =>
      st' <- setUserSetting (select_device (act_device a) (act_instance a) st)
                            (act_path a) (act_setting a) (act_value a) ;;
      run_actions st' acts'
  end.

Definition is_object (v : Value) : bool :=
  match v with
  | VObj _ => true
  | _ => false
  end.

(** Every value held by the object is itself an object. *)
Definition all_objects (o : obj) : Prop :=
  forall k v, In (k, v) o -> is_object v = true.

(** The per-instance shape of a class object: instance buckets that hold
    records. *)
Definition per_instance (class : Value) : Prop :=
  exists g, class = VObj g /\
            forall k v, In (k, v) g ->
                        exists b, v = VObj b /\ all_objects b.

(** A store whose keyboard bucket holds one unrelated record. *)
Definition unrelated_state : State :=
  with_userSettings
    [("keyboard", VObj [("x.y", VObj [("exponent", VNum (Fin 2))])]);
     ("gamepad", VObj []); ("joystick", VObj [])]
    initial_state.

(** A store whose keyboard bucket holds one record, under the bare option
    name [d]. *)
Definition short_name_state : State :=
  mkState None "keyboard" 1 1 true
          [("keyboard", VObj [("d", VObj [("exponent", VNum (Fin 5))])]);
           ("gamepad", VObj []); ("joystick", VObj [])]
          true.

(** A store whose keyboard bucket has the exponent at two ancestors of
    [a.b.c.d], and not at its parent. *)
Definition ancestors_state : State :=
  with_userSettings
    [("keyboard", VObj [("a", VObj [("exponent", VNum (Fin 3))]);
                        ("a.b", VObj [("exponent", VNum (Fin 4))])]);
     ("gamepad", VObj []); ("joystick", VObj [])]
    initial_state.

(** The record of the specification's example: exponent mode, exponent
    [1.0], nothing else. *)
Definition identity_record : SettingsRecord :=
  mkSettingsRecord None (Some ModeExponent) (Some (Fin 1)) None.

(** A record under curve mode with one point. *)
Definition curve_record : SettingsRecord :=
  mkSettingsRecord None (Some ModeCurve) None
                   (Some (mkStoredCurve false [mkPoint (1 # 2) (1 # 4)])).

(** What an entry read off a per-instance class object looks like: no
    curve, and [invert] and [exponent] absent or whole records. *)
Definition bucket_read (e : FlatEntry) : Prop :=
  fe_curve e = VUndefined
  /\ (fe_invert e = VUndefined \/ is_object (fe_invert e) = true)
  /\ (fe_exponent e = VUndefined \/ is_object (fe_exponent e) = true).

(** The gamepad is selected, instance 1, and [invert] is set on a path. *)
Definition gamepad_invert_action : SetAction :=
  mkSetAction "gamepad" 1 "inversion.fps.pitch" "invert" (VBool true).

(** The store after one gamepad action. *)
Definition gamepad_state : State :=
  mkState None "gamepad" 1 1 true
          [("keyboard", VObj []);
           ("gamepad",
            VObj [("1", VObj [("inversion.fps.pitch", VObj [("invert", VBool true)])])]);
           ("joystick", VObj [])]
          true.

(** The nodes of a tree in depth-first preorder. *)
Fixpoint preorder (n : Node) : list Node :=
  match n with
  | mkNode _ cs => n :: flat_map preorder cs
  end.

(** The paths of a subtree are built from the path [P] of its root: each
    node below the root has [P], a separator and more. *)
Definition extends_path (P : string) (q : option string) : Prop :=
  exists r, q = Some (P ++ "." ++ r).

Definition path_discipline (P : string) (n : Node) : Prop :=
  node_path n = Some P /\ Forall (extends_path P) (tl (subtree_paths n)).

(** The display tree [transformToSCHierarchy] builds for a multi-instance
    class around the subtree [inversionNode]. *)
Definition two_section_tree (deviceType : string) (rawData inversionNode : Node)
  : Node :=
  display_root (if String.eqb deviceType "joystick"
                then "Joystick Controls" else "Gamepad Controls")
               deviceType rawData
               [inversionClone inversionNode; curvesClone deviceType inversionNode].

(** A joystick tree with the usual wrappers, and one option below
    [inversion]. *)
Definition joystick_doc : Document :=
  [mkElement "optiontree" [("type", "joystick"); ("name", "root"); ("instances", "8")]
     [mkElement "optiongroup" [("name", "master")]
        [mkElement "optiongroup" [("name", "joystick_curves")]
           [mkElement "optiongroup" [("name", "inversion")]
              [mkElement "optiongroup" [("name", "fps")]
                 [mkElement "optiongroup" [("name", "fps_view_pitch")] []]]]]]].

Definition joystick_state : State :=
  mkState (Some (parseOptionTreesFromXml joystick_doc)) "joystick" 1 1 false
          empty_userSettings false.

(** The store after loading the single option [opt] of one device, with
    the storage key [fullPath]: per instance for the joystick, flat for
    every other class. *)
Definition store_after_load (deviceType instance fullPath : string)
           (opt : ControlOption) : obj :=
  if String.eqb deviceType "joystick" then
    [("keyboard", VObj []); ("gamepad", VObj []);
     ("joystick",
      VObj [(instance_key instance,
             VObj [(fullPath, VObj (settings_of_option opt))])])]
  else
    set_own empty_userSettings deviceType
            (VObj [(fullPath, VObj (settings_of_option opt))]).

(** The first child of that name, or the node itself when there is none. *)
Definition child_named (nm : string) (n : Node) : Node :=
  opt_or (find (name_is nm) (children n)) n.

Definition joystick_tree : Element :=
  mkElement "optiontree" [("type", "joystick"); ("name", "root"); ("instances", "8")]
     [mkElement "optiongroup" [("name", "master")]
        [mkElement "optiongroup" [("name", "joystick_curves")]
           [mkElement "optiongroup" [("name", "inversion")]
              [mkElement "optiongroup" [("name", "fps")]
                 [mkElement "optiongroup" [("name", "fps_view_pitch")] []]]]]].

Definition joystick_raw : Node := rawData_of joystick_tree "joystick".

Definition joystick_inversion : Node :=
  child_named "inversion" (contentNode joystick_raw).

Definition pitch_option : ControlOption :=
  mkControlOption "fps_view_pitch" (Some [("invert", SStr "1")]) None.

(** A joystick tree in which a group below [inversion] is named [root]. *)
Definition root_named_doc : Document :=
  [mkElement "optiontree" [("type", "joystick"); ("name", "root")]
     [mkElement "optiongroup" [("name", "inversion")]
        [mkElement "optiongroup" [("name", "root")] []]]].

(** A bucket of settings records, and the object that holds it. *)
Definition Bucket : Type := list (string * SettingsRecord).

Definition value_of_bucket (B : Bucket) : obj :=
  map (fun pr => (fst pr, value_of_record (snd pr))) B.

(** The entries of the records that have one, in the order of the
    bucket. *)
Definition exported_list (B : Bucket) : list FlatEntry :=
  flat_map (fun pr => match exported_entry (fst pr) (snd pr) with
                      | Some e => [e]
                      | None => []
                      end) B.

(** Two entries export the same: the name, [invert], [exponent] and the
    points of the curve. *)
Definition same_export (e e' : FlatEntry) : Prop :=
  fe_name e = fe_name e' /\ fe_invert e = fe_invert e'
  /\ fe_exponent e = fe_exponent e'
  /\ prop (fe_curve e) "points" = prop (fe_curve e') "points".

(** The key [loadControlSettings] stores an option under, and the step of
    its loop on the bucket. *)
Definition key_of (cd : option ControlsData) (deviceType : string)
           (opt : ControlOption) : string :=
  fullPath_of cd deviceType (co_name opt).

Definition load_step (cd : option ControlsData) (deviceType : string)
           (b : obj) (opt : ControlOption) : obj :=
  set_own b (key_of cd deviceType opt) (VObj (settings_of_option opt)).

(** Two records of the keyboard bucket that share the final segment of
    their paths. *)
Definition colliding_store : obj :=
  [("keyboard",
    VObj [("a.x", VObj [("invert", VBool true)]);
          ("b.x", VObj [("invert", VBool false)])]);
   ("gamepad", VObj []); ("joystick", VObj [])].

Definition colliding_state : State := with_userSettings colliding_store initial_state.

(** The record a path resolves to in a bucket: the one stored under the
    path, or else the one stored under its final segment. *)
Definition record_at (bucket : Value) (path : string) : Value :=
  if truthy (prop bucket path) then prop bucket path
  else prop bucket (last_segment path).

(** The records of a bucket that have an entry bear different names. *)
Definition distinct_names (B : Bucket) : Prop :=
  forall p1 r1 e1 p2 r2 e2,
    In (p1, r1) B -> In (p2, r2) B ->
    exported_entry p1 r1 = Some e1 -> exported_entry p2 r2 = Some e2 ->
    last_segment p1 = last_segment p2 -> p1 = p2.

(** The tree resolves the name of each such record to its own path, or
    holds no node of that name (the bare name is then the key). *)
Definition names_resolve (cd : option ControlsData) (deviceType : string)
           (B : Bucket) : Prop :=
  forall p r e,
    In (p, r) B -> exported_entry p r = Some e ->
    fullPath_of cd deviceType (last_segment p) = p
    \/ fullPath_of cd deviceType (last_segment p) = last_segment p.

(** A keyboard bucket with an inverted axis, an exponent and a curve. *)
Definition sample_bucket : Bucket :=
  [("inversion.fps.pitch", mkSettingsRecord (Some true) None None None);
   ("inversion.fps.yaw",
    mkSettingsRecord None (Some ModeExponent) (Some (Fin (3 # 2))) None);
   ("inversion.flight.roll",
    mkSettingsRecord (Some false) (Some ModeCurve) (Some (Fin 2))
                     (Some (mkStoredCurve false [mkPoint (1 # 2) (1 # 4)])));
   ("inversion.flight.yaw", identity_record)].

Definition sample_store : obj :=
  [("keyboard", VObj (value_of_bucket sample_bucket));
   ("gamepad", VObj []); ("joystick", VObj [])].

(** The options the backend hands back for a bucket, and the bucket
    [loadControlSettings] builds from them. *)
Definition options_of (B : Bucket) : list ControlOption :=
  map option_of_entry (exported_list B).

Definition reloaded_bucket (cd : option ControlsData) (deviceType : string)
           (B : Bucket) : obj :=
  fold_left (load_step cd deviceType) (options_of B) [].

(* ================================================================== *)
(** * Tree lookup by path *)
(* ================================================================== *)

(** [c.path === p]. *)
Definition path_is (p : string) (c : Node) : bool :=
  match node_path c with
  | Some q => String.eqb q p
  | None => false
  end.

(** [searchChildren], the local helper of [findNodeByPath]. *)
Fixpoint searchChildren (node : Node) (targetPath : string) : option Node :=
  match node with
  | mkNode _ cs =>
      (fix search (l : list Node) : option Node :=
         match l with
         | [] => None
         | child :: l' =>
             if path_is targetPath child then Some child
             else match searchChildren child targetPath with
                  | Some found => Some found
                  | None => search l'
                  end
         end) cs
  end.

(** [findNodeByPath(root, path)]. *)
Definition findNodeByPath (root : option Node) (pth : string) : option Node :=
  match root with
  | None => None
  | Some r =>
      if negb (str_truthy pth) then None
      else if path_is pth r then Some r
      else searchChildren r pth
  end.

(* ================================================================== *)
(** * Device tabs *)
(* ================================================================== *)

(** [switchDeviceType(deviceId)], as far as the module variables of the
    store go ([selectedNode] and the repainting are left out).  The
    instance is the integer [parseInt] reads, which is the number the code
    gets as long as it has at most 53 bits; beyond, the code's number is
    the nearest double. *)
Definition switchDeviceType (deviceId : string) (st : State) : State :=
  if prefix "joystick" deviceId then
    mkState (controlsData st) "joystick" (currentGamepadInstance st)
            (instances_or_1 (parseInt (replace_first "joystick" "" deviceId)))
            (hasUnsavedChanges st) (userSettings st) (syncScheduled st)
  else if prefix "gamepad" deviceId then
    mkState (controlsData st) "gamepad"
            (instances_or_1 (parseInt (replace_first "gamepad" "" deviceId)))
            (currentJoystickInstance st)
            (hasUnsavedChanges st) (userSettings st) (syncScheduled st)
  else
    mkState (controlsData st) deviceId (currentGamepadInstance st)
            (currentJoystickInstance st)
            (hasUnsavedChanges st) (userSettings st) (syncScheduled st).

(** The id [renderDeviceTabs] and [switchDeviceType] give the tab of an
    instance: [`joystick${i}`]. *)
Definition tab_id (deviceType : string) (i : Z) : string :=
  deviceType ++ string_of_Z i.

(* ================================================================== *)
(** * Resetting and propagating settings *)
(* ================================================================== *)

(** [delete o[k]]. *)
Fixpoint delete_own (o : obj) (k : string) : obj :=
  match o with
  | [] => []
  | (k', v) :: o' =>
      if String.eqb k' k then delete_own o' k else (k', v) :: delete_own o' k
  end.

(** [delete base[k]].  On [undefined] and [null] it throws; a boolean or a
    number has no own property to lose.  Strings and arrays do not occur as
    bases. *)
Definition delete_prop (base : Value) (k : string) : option Value :=
  match base with
  | VObj o => Some (VObj (delete_own o k))
  | VBool _ | VNum _ => Some base
  | _ => None
  end.

(** The property key [node.path] makes.  [parseOptionGroup] gives every
    node it builds a [path], which is [null] for a group without a name
    and without a parent path, and the clones keep it: the key is then
    ["null"].  The nodes built without the option fields (those of
    [getDefaultControlsData]) have no [path] at all: the key is
    ["undefined"]. *)
Definition path_key (d : NodeData) : string :=
  match path d with
  | Some p => p
  | None => match fields d with
            | Some _ => "null"
            | None => "undefined"
            end
  end.

(** [resetNodeSettings(node)]. *)
Definition resetNodeSettings (st : State) (node : Node) : option State :=
  let deviceSettings := get_own (userSettings st) (currentDeviceType st) in
  let key := path_key (data node) in
  us' <-
    (if nullish deviceSettings then None
     else if String.eqb (currentDeviceType st) "joystick" then
       let instKey := string_of_Z (currentJoystickInstance st) in
       if truthy (prop deviceSettings instKey) then
         b <- delete_prop (prop deviceSettings instKey) key ;;
         j <- write deviceSettings instKey b ;;
         Some (set_own (userSettings st) "joystick" j)
       else Some (userSettings st)
     else
       d <- delete_prop deviceSettings key ;;
       Some (set_own (userSettings st) (currentDeviceType st) d)) ;;
  Some (mkState (controlsData st) (currentDeviceType st)
                (currentGamepadInstance st) (currentJoystickInstance st)
                false us' (syncScheduled st)).

Section ForEach.

Variable f : Node -> State -> option State.

(** [nodes.forEach(f)], each call working on the store the one before
    left. *)
Fixpoint forEach_node (l : list Node) (st : State) : option State :=
  match l with
  | [] => Some st
  | n :: l' =>
      st' <- f n st ;;
      forEach_node l' st'
  end.

End ForEach.

(** [applyToDescendants], the local helper of the two propagating
    functions: the mode and the value are written at the node, then at
    each of its children in turn. *)
Fixpoint applyToDescendants (mode settingName : string) (v : Value)
         (childNode : Node) (st : State) : option State :=
  match childNode with
  | mkNode d cs =>
      st1 <- setUserSetting st (path_key d) "curveMode" (VStr mode) ;;
      st2 <- setUserSetting st1 (path_key d) settingName v ;;
      forEach_node (applyToDescendants mode settingName v) cs st2
  end.

(** [propagateExponentToChildren(node, exponent)]. *)
Definition propagateExponentToChildren (st : State) (node : Node)
           (exponentValue : Value) : option State :=
  match children node with
  | [] => Some st
  | cs => forEach_node (applyToDescendants "exponent" "exponent" exponentValue) cs st
  end.

(** The properties [JSON.stringify] writes: those whose value is not
    [undefined]. *)
Definition defined_props (o : obj) : obj :=
  filter (fun kv => negb (is_undefined (snd kv))) o.

(** [JSON.parse(JSON.stringify(v))] for a [v] other than [undefined]: NaN
    and the infinities become [null], an [undefined] element of an array
    becomes [null], an [undefined] property is dropped, and the properties
    come out in the order [Object.keys] lists them. *)
Fixpoint jsonValue (v : Value) : Value :=
  match v with
  | VUndefined => VUndefined
  | VNull => VNull
  | VBool b => VBool b
  | VNum n => match jsonNum n with
              | Some m => VNum m
              | None => VNull
              end
  | VStr s => VStr s
  | VArr l =>
      VArr (map (fun x => if is_undefined x then VNull else jsonValue x) l)
  | VObj o =>
      VObj (own_entries
              (VObj (defined_props
                       ((fix props (l : list (string * Value)) : obj :=
                           match l with
                           | [] => []
                           | (k, x) :: l' => (k, jsonValue x) :: props l'
                           end) o))))
  end.

(** [propagateCurveToChildren(node, curve)]: the clone is made once before
    the walk and once more at every node; printing [undefined] gives
    nothing to parse, which throws. *)
Definition propagateCurveToChildren (st : State) (node : Node)
           (curveValue : Value) : option State :=
  match children node with
  | [] => Some st
  | cs =>
      if is_undefined curveValue then None
      else
        let curveClone := jsonValue curveValue in
        forEach_node (applyToDescendants "curve" "curve" (jsonValue curveClone)) cs st
  end.

(** [isContainerNode(node)], as the condition it is used for. *)
Definition isContainerNode (node : Node) : bool :=
  negb (is_nil (children node)).

(* ================================================================== *)
(** * Adding a curve point *)
(* ================================================================== *)

(** [existingInputs.sort((a, b) => a - b)]. *)
Fixpoint insert_input (a : Q) (l : list Q) : list Q :=
  match l with
  | [] => [a]
  | b :: l' => if Qle_bool a b then a :: b :: l' else b :: insert_input a l'
  end.

Fixpoint sort_inputs (l : list Q) : list Q :=
  match l with
  | [] => []
  | a :: l' => insert_input a (sort_inputs l')
  end.

(** [gap > maxGap]. *)
Definition Qgt_bool (a b : Q) : bool := negb (Qle_bool a b).

(** The loop of [addCurvePoint] over the neighbouring inputs: the first
    largest gap so far and the input it starts at. *)
Fixpoint largest_gap (existingInputs : list Q) (maxGap gapStart : Q) : Q * Q :=
  match existingInputs with
  | a :: ((b :: _) as rest) =>
      let gap := (b - a)%Q in
      if Qgt_bool gap maxGap then largest_gap rest gap a
      else largest_gap rest maxGap gapStart
  | _ => (maxGap, gapStart)
  end.

(** [newIn] of [addCurvePoint]: the middle of the largest gap between 0,
    the inputs of the points and 1; [0.5] for a curve without points. *)
Definition newIn (curvePoints : list Point) : Q :=
  match sort_inputs (map in_ curvePoints) with
  | [] => (1 # 2)%Q
  | (first :: _) as existingInputs =>
      let '(maxGap, gapStart) := largest_gap existingInputs first 0%Q in
      let lastInput := last existingInputs first in
      let endGap := (1 - lastInput)%Q in
      if Qgt_bool endGap maxGap then (lastInput + endGap / 2)%Q
      else (gapStart + maxGap / 2)%Q
  end.

(** What [addCurvePoint] makes of [curve.points], for points with finite
    coordinates: the new point lies on the diagonal, and the points are
    sorted by [in] again. *)
Definition addCurvePoint_points (curvePoints : list Point) : list Point :=
  sort_by_in (curvePoints ++ [mkPoint (newIn curvePoints) (newIn curvePoints)])%list.

(* ================================================================== *)
(** * Export for the backend and the save file *)
(* ================================================================== *)

(** An element of the list [getAllControlOptions] returns. *)
Record DeviceEntry : Type := mkDeviceEntry {
  de_deviceType : string;
  de_instance : Z;
  de_options : list FlatEntry
}.

(** One block of [getAllControlOptions]: the options of a bucket are
    pushed when there are any. *)
Definition push_options (us : obj) (deviceType : string) (inst : Z)
           (allOptions : list DeviceEntry) : option (list DeviceEntry) :=
  o <- generateControlOptionsXml us deviceType inst ;;
  Some (match o with
        | Some l => (allOptions ++ [mkDeviceEntry deviceType inst l])%list
        | None => allOptions
        end).

(** The loop over the joystick instances, [n] turns from [i] on. *)
Fixpoint push_joysticks (us : obj) (i : Z) (n : nat)
         (allOptions : list DeviceEntry) : option (list DeviceEntry) :=
  match n with
  | O => Some allOptions
  | S n' =>
      a <- push_options us "joystick" i allOptions ;;
      push_joysticks us (i + 1)%Z n' a
  end.

(** [getAllControlOptions()]. *)
Definition getAllControlOptions (us : obj) : option (list DeviceEntry) :=
  a1 <- push_options us "keyboard" 1%Z [] ;;
  a2 <- push_options us "gamepad" 1%Z a1 ;;
  push_joysticks us 1%Z 8 a2.

(** [Object.keys(v).length > 0]. *)
Definition has_keys (v : Value) : bool := negb (is_nil (own_entries v)).

(** [hasControlSettings()], as the truth value of what it returns. *)
Definition hasControlSettings (us : obj) : bool :=
  (truthy (get_own us "keyboard") && has_keys (get_own us "keyboard"))
  || (truthy (get_own us "gamepad") && has_keys (get_own us "gamepad"))
  || (truthy (get_own us "joystick") && has_keys (get_own us "joystick")).

(** [clearControlSettings()]. *)
Definition clearControlSettings (st : State) : State :=
  mkState (controlsData st) (currentDeviceType st) (currentGamepadInstance st)
          (currentJoystickInstance st) false empty_userSettings
          (syncScheduled st).

(** [saveSettings] of [convertSettingsForSave]: [invert] when it is
    defined, nothing else. *)
Definition saved_record (pathSettings : Value) : obj :=
  if negb (is_undefined (prop pathSettings "invert"))
  then [("invert", prop pathSettings "invert")]
  else [].

Definition save_record (pathSettings : Value) : option Value :=
  if nullish pathSettings then None
  else Some (VObj (saved_record pathSettings)).

(** The loop of [convertSettingsForSave] over the entries. *)
Fixpoint convert_for_save (entries : list (string * Value)) (result : obj)
  : option obj :=
  match entries with
  | [] => Some result
  | (pth, pathSettings) :: rest =>
      r <- save_record pathSettings ;;
      convert_for_save rest (set_own result (last_segment pth) r)
  end.

(** [convertSettingsForSave(settings)]. *)
Definition convertSettingsForSave (settings : Value) : option Value :=
  if nullish settings then None
  else option_map VObj (convert_for_save (own_entries settings) []).

(** The loop of [getControlsForSaving] over the instances of a class. *)
Fixpoint convert_instances (entries : list (string * Value)) (result : obj)
  : option obj :=
  match entries with
  | [] => Some result
  | (instanceNum, instanceSettings) :: rest =>
      if truthy instanceSettings && has_keys instanceSettings then
        c <- convertSettingsForSave instanceSettings ;;
        convert_instances rest (set_own result instanceNum c)
      else convert_instances rest result
  end.

(** The part of [getControlsForSaving] for a class kept per instance. *)
Definition save_instances (class : Value) : option Value :=
  if truthy class && has_keys class then
    r <- convert_instances (own_entries class) [] ;;
    Some (if has_keys (VObj r) then VObj r else VNull)
  else Some VNull.

(** [getControlsForSaving()]: the [devices] object. *)
Definition getControlsForSaving (us : obj) : option Value :=
  k <- (if truthy (get_own us "keyboard") && has_keys (get_own us "keyboard")
        then convertSettingsForSave (get_own us "keyboard")
        else Some VNull) ;;
  g <- save_instances (get_own us "gamepad") ;;
  j <- save_instances (get_own us "joystick") ;;
  Some (VObj [("keyboard", k); ("gamepad", g); ("joystick", j)]).

(** One of the four copies of [convertLoadedSettings]. *)
Definition copy_field (settings : Value) (k : string) (pathSettings : obj) : obj :=
  if negb (is_undefined (prop settings k))
  then set_own pathSettings k (prop settings k)
  else pathSettings.

(** [pathSettings] of [convertLoadedSettings]. *)
Definition loaded_fields (settings : Value) : obj :=
  copy_field settings "curve"
    (copy_field settings "exponent"
       (copy_field settings "curveMode"
          (copy_field settings "invert" []))).

Definition loaded_record (settings : Value) : option obj :=
  if nullish settings then None
  else Some (loaded_fields settings).

(** The loop of [convertLoadedSettings] over the entries. *)
Fixpoint convert_loaded (entries : list (string * Value)) (result : obj)
  : option obj :=
  match entries with
  | [] => Some result
  | (optionName, settings) :: rest =>
      r <- loaded_record settings ;;
      convert_loaded rest (if has_keys (VObj r)
                           then set_own result optionName (VObj r)
                           else result)
  end.

(** [convertLoadedSettings(loadedSettings)]. *)
Definition convertLoadedSettings (loadedSettings : Value) : option Value :=
  if nullish loadedSettings then None
  else option_map VObj (convert_loaded (own_entries loadedSettings) []).

(** The loop of [loadControlsFromFile] over the instances of a class. *)
Fixpoint load_instances (entries : list (string * Value)) (class : obj)
  : option obj :=
  match entries with
  | [] => Some class
  | (instanceNum, instanceSettings) :: rest =>
      c <- convertLoadedSettings instanceSettings ;;
      load_instances rest (set_own class instanceNum c)
  end.

(** [loadedData.devices && loadedData.devices[k]], as the value to load
    when it is truthy. *)
Definition device_part (loadedData : Value) (k : string) : option Value :=
  let devices := prop loadedData "devices" in
  if truthy devices && truthy (prop devices k) then Some (prop devices k)
  else None.

(** [loadControlsFromFile(loadedData)].  [None]: an error is thrown, and
    the store is left emptied and partly loaded. *)
Definition loadControlsFromFile (st : State) (loadedData : Value)
  : option State :=
  if nullish loadedData then None
  else
    k <- match device_part loadedData "keyboard" with
         | Some kb => convertLoadedSettings kb
         | None => Some (VObj [])
         end ;;
    g <- match device_part loadedData "gamepad" with
         | Some gp => option_map VObj (load_instances (own_entries gp) [])
         | None => Some (VObj [])
         end ;;
    j <- match device_part loadedData "joystick" with
         | Some js => option_map VObj (load_instances (own_entries js) [])
         | None => Some (VObj [])
         end ;;
    Some (mkState (controlsData st) (currentDeviceType st)
                  (currentGamepadInstance st) (currentJoystickInstance st)
                  false
                  [("keyboard", k); ("gamepad", g); ("joystick", j)]
                  (syncScheduled st)).

(** [markControlsSettingsSaved()] and [hasUnsavedControlSettings()]. *)
Definition markControlsSettingsSaved (st : State) : State :=
  mkState (controlsData st) (currentDeviceType st) (currentGamepadInstance st)
          (currentJoystickInstance st) false (userSettings st)
          (syncScheduled st).

Definition hasUnsavedControlSettings (st : State) : bool := hasUnsavedChanges st.

(* ================================================================== *)
(** * Further notions used in the statements *)
(* ================================================================== *)

(** The names every object has from [Object.prototype]. *)
Definition object_prototype_names : list string :=
  ["constructor"; "__defineGetter__"; "__defineSetter__"; "hasOwnProperty";
   "__lookupGetter__"; "__lookupSetter__"; "isPrototypeOf";
   "propertyIsEnumerable"; "toString"; "valueOf"; "__proto__";
   "toLocaleString"].

Definition proto_key (k : string) : bool :=
  existsb (String.eqb k) object_prototype_names.

(** A key at which an object has what it owns and nothing else. *)
Definition plain_key (k : string) : Prop := proto_key k = false.

(** A path at which [getUserSetting] meets own properties only: it reads
    at the path and at its final segment. *)
Definition plain_path (p : string) : Prop :=
  plain_key p /\ plain_key (last_segment p).

(** An integer a double holds exactly; it is printed in decimal digits. *)
Definition safe_integer (i : Z) : Prop := (Z.abs i <= 2 ^ 53)%Z.

(** An action of the editor proper: on one of the three device classes
    and an instance number a double holds exactly, at a path and a setting
    name which [Object.prototype] does not supply. *)
Definition plain_action (a : SetAction) : Prop :=
  is_device_class (act_device a) = true
  /\ safe_integer (act_instance a)
  /\ plain_key (act_path a) /\ plain_key (act_setting a).

(** The instance buckets hold records, none at a path named [invert] or
    [exponent]. *)
Definition no_field_paths (class : Value) : Prop :=
  exists g, class = VObj g /\
            forall k x, In (k, x) g ->
                        exists b, x = VObj b /\ all_objects b
                                  /\ get_own b "invert" = VUndefined
                                  /\ get_own b "exponent" = VUndefined.

(** The path, each of its ancestors and each of their final segments are
    such keys: what [getUserSettingWithInheritance] reads at. *)
Definition plain_ancestry (p : string) : Prop :=
  forall j, (1 <= j <= List.length (split_dot p))%nat ->
            plain_path (join_dot (firstn j (split_dot p))).

(** The shape of the store the editor builds: the keyboard bucket holds
    records, the gamepad and the joystick hold instance buckets of
    records. *)
Definition well_formed_store (us : obj) : Prop :=
  (exists b, get_own us "keyboard" = VObj b /\ all_objects b)
  /\ per_instance (get_own us "gamepad")
  /\ per_instance (get_own us "joystick").

(** The nodes below a node, in depth-first preorder. *)
Definition proper_descendants (n : Node) : list Node :=
  flat_map preorder (children n).

(** No two keys of the bucket end in the same segment. *)
Definition distinct_final_segments (b : obj) : Prop :=
  forall k1 v1 k2 v2,
    In (k1, v1) b -> In (k2, v2) b -> last_segment k1 = last_segment k2 -> k1 = k2.

(** The bucket in use holds, under the key [q] itself, the mode and the
    value a propagation writes. *)
Definition setting_written (mode settingName : string) (v : Value)
           (st : State) (q : string) : Prop :=
  exists B, current_settings st = Some B
            /\ own_setting B q "curveMode" = Some (VStr mode)
            /\ own_setting B q settingName = Some v.

(** A store with one inverted axis in the first joystick bucket. *)
Definition joystick_pitch_state : State :=
  mkState None "joystick" 1 1 true
          [("keyboard", VObj []); ("gamepad", VObj []);
           ("joystick",
            VObj [("1", VObj [("inversion.fps.pitch", VObj [("invert", VBool true)])])])]
          true.

(** A node that has nothing but a path. *)
Definition node_at (p : string) : Node :=
  mkNode (group_data [("name", p)] [] "" None) [].

(* ================================================================== *)
(** * Properties of the curve math *)
(* ================================================================== *)

Lemma Qle_bool_false (x y : Q) : Qle_bool x y = false -> (y < x)%Q.
Proof.
  intros H. apply Qnot_le_lt. intros Hle.
  apply Qle_bool_iff in Hle. congruence.
Qed.

Lemma insert_by_in_perm (p : Point) (l : list Point) :
  Permutation (p :: l) (insert_by_in p l).
Proof.
  induction l as [|q l IH]; simpl; [reflexivity|].
  destruct (Qle_bool (in_ p) (in_ q)); [reflexivity|].
  rewrite perm_swap. now constructor.
Qed.

Lemma sort_by_in_perm (l : list Point) : Permutation l (sort_by_in l).
Proof.
  induction l as [|p l IH]; simpl; [constructor|].
  rewrite <- insert_by_in_perm. now constructor.
Qed.

Lemma insert_by_in_sorted (p : Point) (l : list Point) :
  Sorted le_in l -> Sorted le_in (insert_by_in p l).
Proof.
  induction 1 as [|q l Hs IH Hhd]; simpl.
  - repeat constructor.
  - destruct (Qle_bool (in_ p) (in_ q)) eqn:E.
    + constructor; [now constructor|]. constructor.
      now apply Qle_bool_iff.
    + constructor; [exact IH|].
      apply Qle_bool_false, Qlt_le_weak in E.
      destruct l as [|r l]; simpl; [now constructor|].
      destruct (Qle_bool (in_ p) (in_ r)); constructor; auto.
      now inversion Hhd.
Qed.

Lemma sort_by_in_sorted (l : list Point) : Sorted le_in (sort_by_in l).
Proof.
  induction l; simpl; [constructor|now apply insert_by_in_sorted].
Qed.

Lemma le_in_trans : Relations_1.Transitive le_in.
Proof. intros p q r; unfold le_in; apply Qle_trans. Qed.

Lemma sorted_head_min (p : Point) (l : list Point) :
  Sorted le_in (p :: l) -> forall q, In q (p :: l) -> le_in p q.
Proof.
  intros Hs q [<-|Hq]; [unfold le_in; apply Qle_refl|].
  apply Sorted_StronglySorted in Hs; [|exact le_in_trans].
  inversion Hs as [|? ? _ Hall]; subst.
  rewrite Forall_forall in Hall. now apply Hall.
Qed.

(** Two ascending arrangements of the same points coincide when no two
    different points share their [in]. *)
Lemma sorted_perm_unique (l1 : list Point) :
  forall l2, Sorted le_in l1 -> Sorted le_in l2 -> Permutation l1 l2 ->
             in_determines_point l1 -> l1 = l2.
Proof.
  induction l1 as [|p l1 IH]; intros l2 S1 S2 HP Hd.
  - now apply Permutation_nil in HP.
  - destruct l2 as [|q l2].
    { symmetry in HP. now apply Permutation_nil in HP. }
    assert (Hpq : p = q).
    { apply Hd; [now left | eapply Permutation_in; [symmetry; exact HP | now left] |].
      apply Qle_antisym.
      - apply (sorted_head_min S1).
        eapply Permutation_in; [symmetry; exact HP | now left].
      - apply (sorted_head_min S2).
        eapply Permutation_in; [exact HP | now left]. }
    subst q. f_equal. apply IH.
    + now inversion S1.
    + now inversion S2.
    + eapply Permutation_cons_inv; exact HP.
    + intros a b Ha Hb. apply Hd; now right.
Qed.

Lemma sort_by_in_perm_invariant (l l' : list Point) :
  Permutation l l' -> in_determines_point l ->
  sort_by_in l = sort_by_in l'.
Proof.
  intros HP Hd. apply sorted_perm_unique.
  - apply sort_by_in_sorted.
  - apply sort_by_in_sorted.
  - rewrite <- (sort_by_in_perm l), <- (sort_by_in_perm l'). exact HP.
  - intros p q Hp Hq. apply Hd; eapply Permutation_in;
      try (symmetry; apply sort_by_in_perm); assumption.
Qed.

(** [sorted[0]] is a point of least [in]. *)
Lemma sort_by_in_head_min (points : list Point) (first : Point)
      (rest : list Point) :
  sort_by_in points = first :: rest ->
  In first points /\ forall q, In q points -> (in_ first <= in_ q)%Q.
Proof.
  intros E. split.
  - eapply Permutation_in; [symmetry; apply sort_by_in_perm|].
    rewrite E. now left.
  - intros q Hq.
    apply (@sorted_head_min first rest).
    + rewrite <- E. apply sort_by_in_sorted.
    + rewrite <- E. eapply Permutation_in; [apply sort_by_in_perm|exact Hq].
Qed.

(** Below the first point the code scales from the origin, provided the
    first point is not at [in = 0]. *)
Lemma interpolateCurve_below_first (input : Q) (points : list Point)
      (first : Point) (rest : list Point) :
  sort_by_in points = first :: rest ->
  (input <= in_ first)%Q ->
  ~ (in_ first == 0)%Q ->
  interpolateCurve input points = Fin (out first * (input / in_ first)).
Proof.
  intros E Hle Hnz. unfold interpolateCurve. rewrite E.
  destruct (bracket _ _ _ _) as [lower upper].
  apply Qle_bool_iff in Hle. rewrite Hle. simpl.
  destruct (Qeq_bool (in_ first) 0) eqn:Ez; [|reflexivity].
  now apply Qeq_bool_iff in Ez.
Qed.

(** When the first point sits at [in = 0], the only input of [0,1] at or
    below it is [0], and the code computes [out * (0 / 0)], which is NaN. *)
Lemma interpolateCurve_first_at_zero (input : Q) (points : list Point)
      (first : Point) (rest : list Point) :
  sort_by_in points = first :: rest ->
  (0 <= input)%Q -> (input <= in_ first)%Q -> (in_ first == 0)%Q ->
  interpolateCurve input points = NaN.
Proof.
  intros E H0 Hle Hz. unfold interpolateCurve. rewrite E.
  destruct (bracket _ _ _ _) as [lower upper].
  assert (Hi : (input == 0)%Q).
  { apply Qle_antisym; [rewrite <- Hz; exact Hle | exact H0]. }
  apply Qle_bool_iff in Hle. rewrite Hle. simpl.
  apply Qeq_bool_iff in Hz. rewrite Hz.
  unfold Qsign. destruct (Qcompare_spec 0 input) as [_|Hlt|Hlt]; simpl.
  - reflexivity.
  - rewrite Hi in Hlt. now apply Qlt_irrefl in Hlt.
  - rewrite Hi in Hlt. now apply Qlt_irrefl in Hlt.
Qed.

(** C1 (the code departs from the claim).  At [input = 0] with the single
    point [{in: 0, out: 0.5}] the claim asks for [0.5]; [interpolateCurve]
    has no guard on the division and returns NaN. *)
Theorem interpolateCurve_zero_over_zero :
  interpolateCurve 0 [mkPoint 0 (1 # 2)] = NaN.
Proof. reflexivity. Qed.

(** The same on the curve shown in the source's own format comment,
    [(0,0), (0.5,0.25), (1,1)], whose preview starts at [input = 0]. *)
Example interpolateCurve_documented_curve_at_zero :
  interpolateCurve 0 [mkPoint 0 0; mkPoint (1 # 2) (1 # 4); mkPoint 1 1] = NaN.
Proof. reflexivity. Qed.

(** The interpolation example of the specification: 0.35 at 0.5. *)
Example interpolateCurve_interior :
  jsnum_eqb
    (interpolateCurve (1 # 2) [mkPoint (1 # 5) (1 # 20); mkPoint (4 # 5) (13 # 20)])
    (Fin (7 # 20)) = true.
Proof. reflexivity. Qed.

(** C8 (as stated, refuted).  Two points share [in = 0.5]; the stable sort
    keeps the caller's order among them, and the result at [0.5] is the
    [out] of whichever came first. *)
Lemma interpolateCurve_order_matters :
  Permutation [mkPoint (1 # 2) (1 # 5); mkPoint (1 # 2) (4 # 5)]
              [mkPoint (1 # 2) (4 # 5); mkPoint (1 # 2) (1 # 5)] /\
  jsnum_eqb
    (interpolateCurve (1 # 2) [mkPoint (1 # 2) (1 # 5); mkPoint (1 # 2) (4 # 5)])
    (Fin (1 # 5)) = true /\
  jsnum_eqb
    (interpolateCurve (1 # 2) [mkPoint (1 # 2) (4 # 5); mkPoint (1 # 2) (1 # 5)])
    (Fin (4 # 5)) = true /\
  interpolateCurve (1 # 2) [mkPoint (1 # 2) (1 # 5); mkPoint (1 # 2) (4 # 5)]
  <> interpolateCurve (1 # 2) [mkPoint (1 # 2) (4 # 5); mkPoint (1 # 2) (1 # 5)].
Proof.
  split; [apply perm_swap|].
  split; [reflexivity|]. split; [reflexivity|].
  vm_compute. discriminate.
Qed.

(** C8 (amended).  When no two different points share their [in], every
    permutation of the point list is sorted into the same sequence, and
    [interpolateCurve] returns the same result for every input. *)
Theorem interpolateCurve_perm_invariant (input : Q) (l l' : list Point) :
  Permutation l l' -> in_determines_point l ->
  interpolateCurve input l = interpolateCurve input l'.
Proof.
  intros HP Hd. unfold interpolateCurve.
  now rewrite (sort_by_in_perm_invariant HP Hd).
Qed.

Lemma interpolateCurve_perm_invariant_witness :
  interpolateCurve (1 # 2) [mkPoint (4 # 5) (13 # 20); mkPoint (1 # 5) (1 # 20)]
  = interpolateCurve (1 # 2) [mkPoint (1 # 5) (1 # 20); mkPoint (4 # 5) (13 # 20)].
Proof.
  apply interpolateCurve_perm_invariant.
  - apply perm_swap.
  - intros p q [<-|[<-|[]]] [<-|[<-|[]]] H; try reflexivity;
      vm_compute in H; discriminate H.
Defined.

(* ================================================================== *)
(** * Properties of the hierarchy builder *)
(* ================================================================== *)

(** [parseVisibility] decides on the integer [parseInt] reads. *)
Lemma parseVisibility_by_int (s : string) :
  parseVisibility (Some s) = visibility_of_int (parseInt s).
Proof.
  unfold parseVisibility, visibility_of_int, int_is.
  destruct (parseInt s) as [z|]; [|reflexivity].
  destruct (Z.eqb_spec z (-1)) as [->|H1]; [reflexivity|].
  destruct (Z.eqb_spec z 0) as [->|H0]; [reflexivity|].
  destruct (Z.eqb_spec z 1) as [->|H2]; [reflexivity|].
  destruct z as [|[p|p|]|[p|p|]]; try reflexivity; congruence.
Qed.

(** [parseInt] stops at the first character that is no digit: a [1]
    followed by anything but a digit reads as [1]. *)
Lemma digits_prefix_stop (radix : Z) (t : string) (acc : option Z) :
  starts_with_digit t = false -> radix = 10%Z -> digits_prefix radix t acc = acc.
Proof.
  intros H ->. destruct t as [|c t]; [reflexivity|]. simpl in *.
  destruct (digit_value 10 c); [discriminate|reflexivity].
Qed.

Lemma parseInt_one_then (t : string) :
  starts_with_digit t = false -> parseInt (String "1" t) = Some 1%Z.
Proof.
  intros H. unfold parseInt.
  change (trim_start (String "1" t)) with (String "1" t).
  cbv beta iota.
  change (digits_prefix 10 (String "1" t) None)
    with (digits_prefix 10 t (Some 1%Z)).
  now rewrite digits_prefix_stop.
Qed.

Lemma parseInt_minus_one_then (t : string) :
  starts_with_digit t = false -> parseInt (String "-" (String "1" t)) = Some (-1)%Z.
Proof.
  intros H. unfold parseInt.
  change (trim_start (String "-" (String "1" t))) with (String "-" (String "1" t)).
  cbv beta iota.
  change (digits_prefix 10 (String "1" t) None)
    with (digits_prefix 10 t (Some 1%Z)).
  now rewrite digits_prefix_stop.
Qed.

Lemma parseVisibility_one_then (t : string) :
  starts_with_digit t = false ->
  parseVisibility (Some (String "1" t)) = VisBool true.
Proof.
  intros H. now rewrite parseVisibility_by_int, parseInt_one_then.
Qed.

Lemma parseVisibility_minus_one_then (t : string) :
  starts_with_digit t = false ->
  parseVisibility (Some (String "-" (String "1" t))) = VisInherit.
Proof.
  intros H. now rewrite parseVisibility_by_int, parseInt_minus_one_then.
Qed.

(** C7 (as stated, refuted).  The attribute ["1.5"] is not mapped to
    [null]: [parseInt] reads its leading [1], and the flag is [true]. *)
Lemma parseVisibility_one_point_five :
  parseVisibility (Some "1.5") = VisBool true /\
  parseVisibility (Some "1.5") <> VisNull.
Proof. split; [reflexivity|discriminate]. Qed.

(** C7 (amended).  An unset attribute gives [null]; a set one is judged by
    the integer [parseInt] reads at its head: -1 gives "inherit", 0 gives
    false, 1 gives true, and every other outcome, NaN included, gives
    [null].  So ["2"], ["abc"] and the empty string give [null], while
    ["1.5"] gives true, ["0.5"] false and ["-1.5"] "inherit". *)
Theorem parseVisibility_table :
  parseVisibility None = VisNull /\
  (forall s, parseVisibility (Some s) = visibility_of_int (parseInt s)) /\
  parseVisibility (Some "-1") = VisInherit /\
  parseVisibility (Some "0") = VisBool false /\
  parseVisibility (Some "1") = VisBool true /\
  parseVisibility (Some "2") = VisNull /\
  parseVisibility (Some "abc") = VisNull /\
  parseVisibility (Some "") = VisNull /\
  parseVisibility (Some "1.5") = VisBool true /\
  parseVisibility (Some "0.5") = VisBool false /\
  parseVisibility (Some "-1.5") = VisInherit.
Proof.
  split; [reflexivity|]. split; [exact parseVisibility_by_int|].
  repeat split; reflexivity.
Qed.

Lemma tree_of_set_tree (ty dt : string) (t : option Node) (cd : ControlsData) :
  is_device_class ty = true ->
  tree_of (set_tree ty t cd) dt = if String.eqb ty dt then t else tree_of cd dt.
Proof.
  unfold is_device_class, set_tree, tree_of. intros H.
  destruct (String.eqb_spec ty "keyboard") as [->|Hk].
  { destruct (String.eqb_spec "keyboard" dt) as [<-|Hd]; [reflexivity|].
    destruct (String.eqb_spec dt "keyboard"); [congruence|reflexivity]. }
  destruct (String.eqb_spec ty "gamepad") as [->|Hg].
  { destruct (String.eqb_spec "gamepad" dt) as [<-|Hd]; [reflexivity|].
    destruct (String.eqb_spec dt "keyboard"); [reflexivity|].
    destruct (String.eqb_spec dt "gamepad"); [congruence|reflexivity]. }
  destruct (String.eqb_spec ty "joystick") as [->|Hj]; [|discriminate].
  destruct (String.eqb_spec "joystick" dt) as [<-|Hd]; [reflexivity|].
  destruct (String.eqb_spec dt "keyboard"); [reflexivity|].
  destruct (String.eqb_spec dt "gamepad"); [reflexivity|].
  destruct (String.eqb_spec dt "joystick"); [congruence|reflexivity].
Qed.

(** The display transform never turns a parsed tree into [null]. *)
Lemma transformToSCHierarchy_some (raw : Node) (deviceType : string) :
  is_some (transformToSCHierarchy (Some raw) deviceType) = true.
Proof.
  unfold transformToSCHierarchy.
  destruct (_ || _); destruct (find _ _); reflexivity.
Qed.

Lemma parse_tree_tree_of (cd : ControlsData) (tree : Element) (dt : string) :
  is_device_class dt = true ->
  is_some (tree_of (parse_tree cd tree) dt)
  = is_some (tree_of cd dt)
    || match getAttribute tree "type" with
       | Some t => String.eqb t dt
       | None => false
       end.
Proof.
  intros Hdt. unfold parse_tree.
  destruct (getAttribute tree "type") as [ty|]; [|now rewrite orb_false_r].
  destruct (str_truthy ty && is_device_class ty) eqn:E.
  - apply andb_prop in E as [_ Hty].
    rewrite tree_of_set_tree by exact Hty.
    destruct (String.eqb ty dt); [|now rewrite orb_false_r].
    rewrite transformToSCHierarchy_some. now rewrite orb_true_r.
  - destruct (String.eqb_spec ty dt) as [->|]; [|now rewrite orb_false_r].
    rewrite Hdt, andb_true_r in E.
    destruct dt; [discriminate Hdt|discriminate E].
Qed.

Lemma fold_parse_tree_tree_of (trees : list Element) :
  forall (cd : ControlsData) (dt : string),
    is_device_class dt = true ->
    is_some (tree_of (fold_left parse_tree trees cd) dt)
    = is_some (tree_of cd dt)
      || existsb (fun tree =>
                    match getAttribute tree "type" with
                    | Some t => String.eqb t dt
                    | None => false
                    end) trees.
Proof.
  induction trees as [|tree trees IH]; intros cd dt Hdt; simpl.
  - now rewrite orb_false_r.
  - rewrite IH by exact Hdt. rewrite parse_tree_tree_of by exact Hdt.
    now rewrite orb_assoc.
Qed.

Lemma parseOptionTreesFromXml_tree_of (xmlDoc : Document) (dt : string) :
  is_device_class dt = true ->
  is_some (tree_of (parseOptionTreesFromXml xmlDoc) dt) = has_optiontree xmlDoc dt.
Proof.
  intros Hdt. unfold parseOptionTreesFromXml, has_optiontree.
  rewrite fold_parse_tree_tree_of by exact Hdt.
  unfold is_device_class in Hdt. unfold tree_of; simpl.
  now repeat destruct (String.eqb dt _).
Qed.

(** C6 (as stated, refuted).  A document that holds the keyboard tree only
    leaves the gamepad and the joystick without a tree: their entries are
    [null], no empty root is put in their place. *)
Lemma parseOptionTreesFromXml_leaves_null :
  is_some (cd_keyboard (loadControlsDataFromXml (Resolved keyboard_only_doc))) = true /\
  cd_gamepad (loadControlsDataFromXml (Resolved keyboard_only_doc)) = None /\
  cd_joystick (loadControlsDataFromXml (Resolved keyboard_only_doc)) = None /\
  cd_keyboard (loadControlsDataFromXml (Resolved [])) = None.
Proof. repeat split; reflexivity. Qed.

(** C6 (amended).  When the XML cannot be fetched, all three device classes
    get an empty root node from [getDefaultControlsData].  When a document
    is parsed, a device class has a tree exactly when the document holds an
    [optiontree] element of that type; a class without one is left
    [null]. *)
Theorem loadControlsData_trees :
  loadControlsData Rejected Rejected = getDefaultControlsData /\
  loadControlsDataFromXml Rejected = getDefaultControlsData /\
  option_map children (cd_keyboard getDefaultControlsData) = Some [] /\
  option_map children (cd_gamepad getDefaultControlsData) = Some [] /\
  option_map children (cd_joystick getDefaultControlsData) = Some [] /\
  (forall xmlDoc,
      let cd := loadControlsDataFromXml (Resolved xmlDoc) in
      is_some (cd_keyboard cd) = has_optiontree xmlDoc "keyboard" /\
      is_some (cd_gamepad cd) = has_optiontree xmlDoc "gamepad" /\
      is_some (cd_joystick cd) = has_optiontree xmlDoc "joystick").
Proof.
  repeat split; try reflexivity.
  - apply (parseOptionTreesFromXml_tree_of xmlDoc "keyboard"); reflexivity.
  - apply (parseOptionTreesFromXml_tree_of xmlDoc "gamepad"); reflexivity.
  - apply (parseOptionTreesFromXml_tree_of xmlDoc "joystick"); reflexivity.
Qed.

(* ================================================================== *)
(** * Strings: paths and their segments *)
(* ================================================================== *)

Lemma app_str_assoc (a b c : string) : (a ++ b) ++ c = a ++ b ++ c.
Proof. induction a as [|x a IH]; simpl; [reflexivity|now rewrite IH]. Qed.

Lemma app_str_nil_r (a : string) : a ++ "" = a.
Proof. induction a as [|x a IH]; simpl; [reflexivity|now rewrite IH]. Qed.

Lemma drop_app (a b : string) (n : nat) :
  drop (String.length a + n) (a ++ b) = drop n b.
Proof. induction a as [|x a IH]; simpl; [reflexivity|exact IH]. Qed.

Lemma length_app_str (a b : string) :
  String.length (a ++ b) = (String.length a + String.length b)%nat.
Proof. induction a as [|x a IH]; simpl; [reflexivity|now rewrite IH]. Qed.

Lemma prefix_cons (c d : ascii) (a b : string) :
  prefix (String c a) (String d b) = Ascii.eqb c d && prefix a b.
Proof.
  simpl. destruct (ascii_dec c d) as [->|n].
  - now rewrite Ascii.eqb_refl.
  - apply Ascii.eqb_neq in n. now rewrite n.
Qed.

Lemma prefix_nil (s : string) : prefix "" s = true.
Proof. now destruct s. Qed.

Lemma eqb_cons (c d : ascii) (a b : string) :
  String.eqb (String c a) (String d b) = Ascii.eqb c d && String.eqb a b.
Proof. simpl. now destruct (Ascii.eqb c d). Qed.

Lemma join_dot_cons (s0 : string) (rest : list string) :
  join_dot (s0 :: rest) = s0 ++ tail_str rest.
Proof.
  revert s0. induction rest as [|s1 rest IH]; intros s0.
  - simpl. now rewrite app_str_nil_r.
  - change (join_dot (s0 :: s1 :: rest)) with (s0 ++ "." ++ join_dot (s1 :: rest)).
    now rewrite IH.
Qed.

Lemma tail_str_nil_iff (rest : list string) :
  String.eqb (tail_str rest) "" = is_nil rest.
Proof. destruct rest; reflexivity. Qed.

Lemma split_dot_not_nil (p : string) : split_dot p <> [].
Proof.
  destruct p as [|c p]; simpl; [discriminate|].
  destruct (Ascii.eqb c "."); [discriminate|].
  destruct (split_dot p); discriminate.
Qed.

Lemma split_dot_dot_free (p : string) : Forall (fun s => dot_free s = true) (split_dot p).
Proof.
  induction p as [|c p IH]; simpl.
  - now repeat constructor.
  - destruct (Ascii.eqb c ".") eqn:E.
    + now constructor.
    + destruct (split_dot p) as [|seg segs]; [now repeat constructor; simpl; rewrite E|].
      inversion IH; subst. constructor; [|assumption].
      simpl. now rewrite E.
Qed.

Lemma join_split_dot (p : string) : join_dot (split_dot p) = p.
Proof.
  induction p as [|c p IH]; [reflexivity|]. simpl.
  pose proof (split_dot_not_nil p) as Hnn.
  destruct (split_dot p) as [|s1 rest]; [congruence|].
  rewrite join_dot_cons in IH.
  destruct (Ascii.eqb_spec c ".") as [->|n].
  - rewrite join_dot_cons. simpl. now rewrite IH.
  - rewrite join_dot_cons. simpl. now rewrite IH.
Qed.

Section Segments.

Variables seg pre : string.
Hypothesis seg_dot_free : dot_free seg = true.
Hypothesis pre_dot_free : dot_free pre = true.

(** A dot-free [b] followed by nothing or by a separator begins with
    [a] and a separator exactly when [b] is [a] and a separator follows. *)
Lemma prefix_segment (a : string) :
  dot_free a = true ->
  forall b rest, dot_free b = true ->
    prefix (a ++ ".") (b ++ tail_str rest) = String.eqb a b && negb (is_nil rest).
Proof.
  induction a as [|c a IH]; intros Ha b rest Hb.
  - destruct b as [|d b].
    + destruct rest as [|s1 rest]; [reflexivity|].
      change ("" ++ ".") with (String "." "").
      change ("" ++ tail_str (s1 :: rest)) with (String "." (s1 ++ tail_str rest)).
      now rewrite prefix_cons, prefix_nil.
    + simpl in Hb. apply andb_prop in Hb as [Hd _].
      change ("" ++ ".") with (String "." "").
      change (String d b ++ tail_str rest) with (String d (b ++ tail_str rest)).
      rewrite prefix_cons. rewrite Ascii.eqb_sym.
      now destruct (Ascii.eqb d ".").
  - simpl in Ha. apply andb_prop in Ha as [Hc Ha].
    destruct b as [|d b].
    + destruct rest as [|s1 rest]; [reflexivity|].
      change (String c a ++ ".") with (String c (a ++ ".")).
      change ("" ++ tail_str (s1 :: rest)) with (String "." (s1 ++ tail_str rest)).
      rewrite prefix_cons. now destruct (Ascii.eqb c ".").
    + simpl in Hb. apply andb_prop in Hb as [_ Hb].
      change (String c a ++ ".") with (String c (a ++ ".")).
      change (String d b ++ tail_str rest) with (String d (b ++ tail_str rest)).
      rewrite prefix_cons, eqb_cons, IH by assumption.
      now rewrite andb_assoc.
Qed.

Lemma eqb_segment (a : string) :
  dot_free a = true ->
  forall b rest,
    String.eqb (b ++ tail_str rest) a = String.eqb b a && is_nil rest.
Proof.
  intros Ha b. revert a Ha. induction b as [|d b IH]; intros a Ha rest.
  - destruct rest as [|s1 rest].
    + simpl. now rewrite andb_true_r.
    + change ("" ++ tail_str (s1 :: rest)) with (String "." (s1 ++ tail_str rest)).
      destruct a as [|c a]; [reflexivity|].
      simpl in Ha. apply andb_prop in Ha as [Hc _].
      rewrite eqb_cons, Ascii.eqb_sym.
      destruct (Ascii.eqb c "."); [discriminate|]. reflexivity.
  - destruct a as [|c a]; [reflexivity|].
    simpl in Ha. apply andb_prop in Ha as [_ Ha].
    change (String d b ++ tail_str rest) with (String d (b ++ tail_str rest)).
    rewrite !eqb_cons, IH by assumption. now rewrite andb_assoc.
Qed.

(** No match of a pattern led by a separator begins inside a segment. *)
Lemma replace_first_skip (x rep s0 X : string) :
  dot_free s0 = true ->
  replace_first (String "." x) rep (s0 ++ X)
  = s0 ++ replace_first (String "." x) rep X.
Proof.
  induction s0 as [|c s0 IH]; intros H; [reflexivity|].
  simpl in H. apply andb_prop in H as [Hc H].
  change (String c s0 ++ X) with (String c (s0 ++ X)).
  change (replace_first (String "." x) rep (String c (s0 ++ X)))
    with (if prefix (String "." x) (String c (s0 ++ X))
          then rep ++ drop (String.length (String "." x)) (String c (s0 ++ X))
          else String c (replace_first (String "." x) rep (s0 ++ X))).
  rewrite prefix_cons, Ascii.eqb_sym.
  destruct (Ascii.eqb c "."); [discriminate|]. simpl.
  now rewrite IH.
Qed.

Lemma replace_at_end_skip (x rep s0 X : string) :
  dot_free s0 = true ->
  replace_at_end (String "." x) rep (s0 ++ X)
  = s0 ++ replace_at_end (String "." x) rep X.
Proof.
  induction s0 as [|c s0 IH]; intros H; [reflexivity|].
  simpl in H. apply andb_prop in H as [Hc H].
  change (String c s0 ++ X) with (String c (s0 ++ X)).
  change (replace_at_end (String "." x) rep (String c (s0 ++ X)))
    with (if String.eqb (String c (s0 ++ X)) (String "." x) then rep
          else String c (replace_at_end (String "." x) rep (s0 ++ X))).
  rewrite eqb_cons.
  destruct (Ascii.eqb c "."); [discriminate|]. simpl.
  now rewrite IH.
Qed.

Lemma replace_first_inner_dot_free (rest : list string) :
  Forall (fun s => dot_free s = true) rest ->
  Forall (fun s => dot_free s = true) (replace_first_inner seg pre rest).
Proof.
  induction 1 as [|s1 rest H1 Hr IH]; simpl; [constructor|].
  destruct (String.eqb seg s1 && negb (is_nil rest)); now constructor.
Qed.

Lemma replace_last_dot_free (rest : list string) :
  Forall (fun s => dot_free s = true) rest ->
  Forall (fun s => dot_free s = true) (replace_last seg pre rest).
Proof.
  induction 1 as [|s1 rest H1 Hr IH]; simpl; [constructor|].
  destruct (String.eqb s1 seg && is_nil rest); now repeat constructor.
Qed.

(** First replacement, [/\.seg\./]. *)
Lemma replace_first_tail (rest : list string) :
  Forall (fun s => dot_free s = true) rest ->
  replace_first ("." ++ seg ++ ".") ("." ++ pre ++ ".") (tail_str rest)
  = tail_str (replace_first_inner seg pre rest).
Proof.
  induction 1 as [|s1 rest H1 Hr IH]; [reflexivity|].
  change (tail_str (s1 :: rest)) with (String "." (s1 ++ tail_str rest)).
  change ("." ++ seg ++ ".") with (String "." (seg ++ ".")).
  change (replace_first (String "." (seg ++ ".")) ("." ++ pre ++ ".")
                        (String "." (s1 ++ tail_str rest)))
    with (if prefix (String "." (seg ++ ".")) (String "." (s1 ++ tail_str rest))
          then ("." ++ pre ++ ".")
               ++ drop (String.length (String "." (seg ++ ".")))
                       (String "." (s1 ++ tail_str rest))
          else String "." (replace_first (String "." (seg ++ "."))
                                         ("." ++ pre ++ ".")
                                         (s1 ++ tail_str rest))).
  rewrite prefix_cons, prefix_segment by assumption. simpl Ascii.eqb.
  cbn [andb replace_first_inner].
  destruct (String.eqb_spec seg s1) as [<-|Hne]; cbn [andb].
  - destruct rest as [|s2 rest]; cbn [is_nil negb].
    + rewrite replace_first_skip by assumption. reflexivity.
    + cbn [String.length drop].
      rewrite length_app_str. cbn [String.length].
      change (tail_str (s2 :: rest)) with (String "." (s2 ++ tail_str rest)).
      rewrite drop_app. cbn [drop].
      change (tail_str (pre :: s2 :: rest))
        with ("." ++ pre ++ "." ++ s2 ++ tail_str rest).
      now rewrite !app_str_assoc.
  - rewrite replace_first_skip by assumption.
    change (String "." (seg ++ ".")) with ("." ++ seg ++ ".").
    now rewrite IH.
Qed.

(** Second replacement, [/\.seg$/]. *)
Lemma replace_at_end_tail (rest : list string) :
  Forall (fun s => dot_free s = true) rest ->
  replace_at_end ("." ++ seg) ("." ++ pre) (tail_str rest)
  = tail_str (replace_last seg pre rest).
Proof.
  induction 1 as [|s1 rest H1 Hr IH]; [reflexivity|].
  change (tail_str (s1 :: rest)) with (String "." (s1 ++ tail_str rest)).
  change ("." ++ seg) with (String "." seg).
  change (replace_at_end (String "." seg) ("." ++ pre)
                         (String "." (s1 ++ tail_str rest)))
    with (if String.eqb (String "." (s1 ++ tail_str rest)) (String "." seg)
          then "." ++ pre
          else String "." (replace_at_end (String "." seg) ("." ++ pre)
                                          (s1 ++ tail_str rest))).
  rewrite eqb_cons, eqb_segment by assumption. simpl Ascii.eqb.
  cbn [andb replace_last].
  destruct (String.eqb s1 seg && is_nil rest).
  - simpl. now rewrite app_str_nil_r.
  - rewrite replace_at_end_skip by assumption.
    change (String "." seg) with ("." ++ seg).
    now rewrite IH.
Qed.

(** The code on a path, told on its segments. *)
Lemma rewrite_with_segments (s0 : string) (rest : list string) :
  Forall (fun s => dot_free s = true) (s0 :: rest) ->
  rewrite_with seg pre (join_dot (s0 :: rest))
  = join_dot (rewrite_segments seg pre (s0 :: rest)).
Proof.
  intros H. inversion H as [|? ? H0 Hr]; subst.
  unfold rewrite_with, rewrite_segments.
  rewrite join_dot_cons.
  change ("." ++ seg ++ ".") with (String "." (seg ++ ".")).
  rewrite replace_first_skip by assumption.
  change (String "." (seg ++ ".")) with ("." ++ seg ++ ".").
  rewrite replace_first_tail by assumption.
  change ("." ++ seg) with (String "." seg).
  rewrite replace_at_end_skip by assumption.
  change (String "." seg) with ("." ++ seg).
  rewrite replace_at_end_tail by now apply replace_first_inner_dot_free.
  set (rest2 := replace_last seg pre (replace_first_inner seg pre rest)).
  assert (Hr2 : Forall (fun s => dot_free s = true) rest2)
    by now apply replace_last_dot_free, replace_first_inner_dot_free.
  unfold replace_at_start, replace_head.
  rewrite prefix_segment by assumption.
  destruct (String.eqb_spec seg s0) as [<-|Hne]; cbn [andb].
  - destruct rest2 as [|s2 rest2]; cbn [is_nil negb].
    + unfold replace_whole, replace_only.
      rewrite eqb_segment by assumption. rewrite String.eqb_refl. reflexivity.
    + rewrite length_app_str. cbn [String.length].
      change (tail_str (s2 :: rest2)) with (String "." (s2 ++ tail_str rest2)).
      rewrite drop_app. cbn [drop].
      unfold replace_whole, replace_only.
      rewrite app_str_assoc.
      change (pre ++ "." ++ s2 ++ tail_str rest2)
        with (pre ++ tail_str (s2 :: rest2)).
      rewrite eqb_segment by assumption.
      cbn [is_nil]. rewrite !andb_false_r.
      now rewrite join_dot_cons.
  - unfold replace_whole, replace_only.
    rewrite eqb_segment by assumption.
    destruct (String.eqb s0 seg && is_nil rest2).
    + simpl. reflexivity.
    + now rewrite join_dot_cons.
Qed.

End Segments.

Lemma not_in_replace_first_inner (seg pre : string) (rest : list string) :
  ~ In seg rest -> replace_first_inner seg pre rest = rest.
Proof.
  induction rest as [|s1 rest IH]; intros H; [reflexivity|]. simpl.
  destruct (String.eqb_spec seg s1) as [->|_]; [exfalso; apply H; now left|].
  simpl. rewrite IH; [reflexivity|]. intros Hin. apply H. now right.
Qed.

Lemma not_in_replace_last (seg pre : string) (rest : list string) :
  ~ In seg rest -> replace_last seg pre rest = rest.
Proof.
  induction rest as [|s1 rest IH]; intros H; [reflexivity|]. simpl.
  destruct (String.eqb_spec s1 seg) as [->|_]; [exfalso; apply H; now left|].
  simpl. rewrite IH; [reflexivity|]. intros Hin. apply H. now right.
Qed.

Lemma not_in_replace_every_segment (seg pre : string) (l : list string) :
  ~ In seg l -> replace_every_segment seg pre l = l.
Proof.
  unfold replace_every_segment.
  induction l as [|s l IH]; intros H; [reflexivity|]. cbn [map].
  destruct (String.eqb_spec s seg) as [->|_]; [exfalso; apply H; now left|].
  rewrite IH; [reflexivity|].
  intros Hin. apply H. now right.
Qed.

Lemma count_occ_head_le_1 (seg : string) (rest : list string) :
  (count_occ string_dec (seg :: rest) seg <= 1)%nat -> ~ In seg rest.
Proof.
  simpl. destruct (string_dec seg seg) as [_|n]; [|congruence].
  intros H Hin. apply (count_occ_In string_dec) in Hin. lia.
Qed.

Lemma count_occ_tail_le_1 (seg s1 : string) (rest : list string) :
  (count_occ string_dec (s1 :: rest) seg <= 1)%nat ->
  (count_occ string_dec rest seg <= 1)%nat.
Proof. simpl. destruct (string_dec s1 seg); lia. Qed.

Lemma replace_last_cons_cons (seg pre a b : string) (l : list string) :
  replace_last seg pre (a :: b :: l) = a :: replace_last seg pre (b :: l).
Proof.
  change (replace_last seg pre (a :: b :: l))
    with (if String.eqb a seg && is_nil (b :: l) then [pre]
          else a :: replace_last seg pre (b :: l)).
  cbn [is_nil]. now rewrite andb_false_r.
Qed.

Lemma replace_inner_once (seg pre : string) (rest : list string) :
  (count_occ string_dec rest seg <= 1)%nat ->
  replace_last seg pre (replace_first_inner seg pre rest)
  = replace_every_segment seg pre rest.
Proof.
  induction rest as [|s1 rest IH]; intros H; [reflexivity|].
  cbn [replace_first_inner replace_every_segment map].
  destruct (String.eqb_spec seg s1) as [<-|Hne].
  - apply count_occ_head_le_1 in H. rewrite String.eqb_refl.
    destruct rest as [|s2 rest]; cbn [is_nil negb andb].
    + simpl. now rewrite String.eqb_refl.
    + rewrite replace_last_cons_cons.
      rewrite not_in_replace_last by exact H.
      fold (replace_every_segment seg pre (s2 :: rest)).
      now rewrite not_in_replace_every_segment by exact H.
  - cbn [andb replace_last].
    destruct (String.eqb_spec s1 seg) as [->|_]; [congruence|]. cbn [andb].
    fold (replace_every_segment seg pre rest).
    rewrite IH; [reflexivity|]. now apply count_occ_tail_le_1 in H.
Qed.

(** On a path in which [seg] is at most one segment, the four
    replacements amount to replacing that segment. *)
Lemma rewrite_segments_once (seg pre : string) (segs : list string) :
  (count_occ string_dec segs seg <= 1)%nat ->
  rewrite_segments seg pre segs = replace_every_segment seg pre segs.
Proof.
  destruct segs as [|s0 rest]; intros H; [reflexivity|].
  unfold rewrite_segments.
  rewrite replace_inner_once by now apply count_occ_tail_le_1 in H.
  cbn [replace_every_segment map]. fold (replace_every_segment seg pre rest).
  unfold replace_head.
  destruct (String.eqb_spec seg s0) as [<-|Hne].
  - apply count_occ_head_le_1 in H. rewrite String.eqb_refl.
    rewrite not_in_replace_every_segment by exact H.
    destruct rest as [|s2 rest]; cbn [is_nil negb andb replace_only].
    + now rewrite String.eqb_refl.
    + now rewrite andb_false_r.
  - cbn [andb replace_only].
    destruct (String.eqb_spec s0 seg) as [->|_]; [congruence|]. reflexivity.
Qed.

(** The code's rewriting of any path, on its segments. *)
Lemma rewrite_path_segments (pre p : string) :
  dot_free pre = true ->
  rewrite_path pre p
  = join_dot (rewrite_segments "inversion" pre (split_dot p)).
Proof.
  intros Hpre. unfold rewrite_path.
  pose proof (split_dot_dot_free p) as Hdf.
  pose proof (split_dot_not_nil p) as Hnn.
  rewrite <- (join_split_dot p) at 1.
  destruct (split_dot p) as [|s0 rest]; [congruence|].
  now apply rewrite_with_segments.
Qed.

Lemma rewrite_path_once (p : string) :
  (count_occ string_dec (split_dot p) "inversion" <= 1)%nat ->
  rewrite_path "sensitivity_curves" p
  = join_dot (replace_every_segment "inversion" "sensitivity_curves" (split_dot p)).
Proof.
  intros H. rewrite rewrite_path_segments by reflexivity.
  now rewrite rewrite_segments_once.
Qed.

(* ================================================================== *)
(** * Properties of the display transformer *)
(* ================================================================== *)

Lemma Node_induction (P : Node -> Prop) :
  (forall d cs, Forall P cs -> P (mkNode d cs)) -> forall n, P n.
Proof.
  intros step. fix IH 1. intros [d cs]. apply step.
  induction cs as [|c cs IHcs]; constructor; [apply IH|exact IHcs].
Qed.

Lemma flat_map_map {A B C : Type} (f : B -> list C) (g : A -> B) (l : list A) :
  flat_map f (map g l) = flat_map (fun x => f (g x)) l.
Proof. induction l as [|x l IH]; simpl; [reflexivity|now rewrite IH]. Qed.

Lemma flat_map_ext_Forall {A B : Type} (f g : A -> list B) (l : list A) :
  Forall (fun x => f x = g x) l -> flat_map f l = flat_map g l.
Proof. induction 1 as [|x l Hx Hl IH]; simpl; [reflexivity|now rewrite Hx, IH]. Qed.

Lemma subtree_paths_jsonClone (n : Node) :
  subtree_paths (jsonClone n) = subtree_paths n.
Proof.
  induction n as [d cs IH] using Node_induction. simpl.
  rewrite flat_map_map. f_equal. now apply flat_map_ext_Forall.
Qed.

Lemma subtree_paths_markDisabled (n : Node) :
  subtree_paths (markDisabled n) = subtree_paths n.
Proof.
  induction n as [d cs IH] using Node_induction. simpl.
  rewrite flat_map_map. f_equal. now apply flat_map_ext_Forall.
Qed.

Lemma subtree_paths_markSectionType_none (st : string) (n : Node) :
  subtree_paths (markSectionType st None n) = subtree_paths n.
Proof.
  induction n as [d cs IH] using Node_induction. simpl.
  rewrite flat_map_map. f_equal. now apply flat_map_ext_Forall.
Qed.

Lemma subtree_paths_markSectionType (st pre : string) (n : Node) :
  str_truthy pre = true ->
  subtree_paths (markSectionType st (Some pre) n)
  = map (rewrite_opt pre) (subtree_paths n).
Proof.
  intros Hpre. induction n as [d cs IH] using Node_induction.
  cbn [markSectionType subtree_paths map]. f_equal.
  - destruct d as [nm lb [p|] dt fl sty isS dis dr ins smin smax]; cbn;
      [|reflexivity].
    rewrite Hpre. cbn. destruct (str_truthy p); reflexivity.
  - rewrite flat_map_map.
    induction IH as [|c cs Hc _ IHcs]; simpl; [reflexivity|].
    now rewrite map_app, Hc, IHcs.
Qed.

Lemma subtree_paths_map_data (f : NodeData -> NodeData) (n : Node) :
  subtree_paths (map_data f n) = path (f (data n)) :: tl (subtree_paths n).
Proof. now destruct n. Qed.

(** The paths of the two sections in terms of the subtree they copy. *)
Lemma subtree_paths_inversionClone (inversionNode : Node) :
  subtree_paths (inversionClone inversionNode) = subtree_paths inversionNode.
Proof.
  unfold inversionClone. rewrite subtree_paths_map_data.
  rewrite subtree_paths_markSectionType_none, subtree_paths_jsonClone.
  destruct inversionNode as [d cs]. reflexivity.
Qed.

Lemma subtree_paths_curvesClone (deviceType : string) (inversionNode : Node) :
  subtree_paths (curvesClone deviceType inversionNode)
  = Some "sensitivity_curves"
    :: map (rewrite_opt "sensitivity_curves") (tl (subtree_paths inversionNode)).
Proof.
  unfold curvesClone.
  rewrite subtree_paths_markDisabled, subtree_paths_map_data.
  rewrite subtree_paths_markSectionType by reflexivity.
  rewrite subtree_paths_jsonClone.
  destruct inversionNode as [d cs]. reflexivity.
Qed.

(** C5 (as stated, refuted).  With [inversion] twice as an inner segment,
    only the first occurrence is rewritten: the node [y] of the
    sensitivity-curves section keeps an [inversion] segment in its path. *)
Lemma curvesClone_keeps_second_inversion :
  rewrite_path "sensitivity_curves" "root.inversion.x.inversion.y"
  = "root.sensitivity_curves.x.inversion.y" /\
  join_dot (replace_every_segment "inversion" "sensitivity_curves"
              (split_dot "root.inversion.x.inversion.y"))
  = "root.sensitivity_curves.x.sensitivity_curves.y" /\
  option_map subtree_paths
    (curves_section (parseOptionTreesFromXml nested_inversion_doc) "joystick")
  = Some [Some "sensitivity_curves";
          Some "root.sensitivity_curves.x";
          Some "root.sensitivity_curves.x.sensitivity_curves";
          Some "root.sensitivity_curves.x.inversion.y"].
Proof. repeat split; reflexivity. Qed.

(** C5 (amended).  In the sensitivity-curves clone the root's path is
    ["sensitivity_curves"], and the path of every other node is the path
    of the node it copies after the four replacements.  On any path these
    replace the first [inversion] that is an inner segment, then a last
    and a first one; so a path in which [inversion] is at most one segment
    has that segment replaced by [sensitivity_curves], wherever it stands:
    the whole path, the first, the last or an inner segment. *)
Theorem curvesClone_paths (deviceType : string) (inversionNode : Node) :
  subtree_paths (curvesClone deviceType inversionNode)
  = Some "sensitivity_curves"
    :: map (rewrite_opt "sensitivity_curves") (tl (subtree_paths inversionNode))
  /\ (forall p,
         rewrite_path "sensitivity_curves" p
         = join_dot (rewrite_segments "inversion" "sensitivity_curves" (split_dot p)))
  /\ (forall p,
         (count_occ string_dec (split_dot p) "inversion" <= 1)%nat ->
         rewrite_opt "sensitivity_curves" (Some p)
         = Some (join_dot (replace_every_segment "inversion" "sensitivity_curves"
                                                 (split_dot p)))).
Proof.
  split; [apply subtree_paths_curvesClone|].
  split; [intros p; now apply rewrite_path_segments|].
  intros p H. unfold rewrite_opt.
  destruct p as [|c p]; [reflexivity|].
  cbn [str_truthy]. now rewrite rewrite_path_once.
Qed.

Lemma curvesClone_paths_witness :
  rewrite_opt "sensitivity_curves" (Some "root.master.inversion.fps.pitch")
  = Some (join_dot (replace_every_segment "inversion" "sensitivity_curves"
                      (split_dot "root.master.inversion.fps.pitch"))).
Proof.
  apply (proj2 (proj2 (curvesClone_paths "joystick" (default_node "" "" None)))).
  vm_compute. lia.
Defined.

(* ================================================================== *)
(** * Objects *)
(* ================================================================== *)

Lemma get_own_set_own_eq (o : obj) (k : string) (v : Value) :
  get_own (set_own o k v) k = v.
Proof.
  induction o as [|[k' v'] o IH]; simpl.
  - now rewrite String.eqb_refl.
  - destruct (String.eqb_spec k' k) as [->|n]; simpl.
    + now rewrite String.eqb_refl.
    + destruct (String.eqb_spec k' k); [congruence|exact IH].
Qed.

Lemma get_own_set_own_neq (o : obj) (k k' : string) (v : Value) :
  k <> k' -> get_own (set_own o k v) k' = get_own o k'.
Proof.
  intros Hne. induction o as [|[k0 v0] o IH]; simpl.
  - destruct (String.eqb_spec k k'); [congruence|reflexivity].
  - destruct (String.eqb_spec k0 k) as [->|n]; simpl.
    + destruct (String.eqb_spec k k'); [congruence|reflexivity].
    + now rewrite IH.
Qed.

Lemma In_set_own (o : obj) (k k' : string) (v v' : Value) :
  In (k', v') (set_own o k v) -> (k' = k /\ v' = v) \/ In (k', v') o.
Proof.
  induction o as [|[k0 v0] o IH]; simpl.
  - intros [H|[]]. left. now inversion H.
  - destruct (String.eqb_spec k0 k) as [->|n]; simpl.
    + intros [H|H]; [left; now inversion H|right; now right].
    + intros [H|H]; [right; now left|].
      destruct (IH H) as [E|E]; [now left|right; now right].
Qed.

Lemma get_own_In (o : obj) (k : string) :
  get_own o k = VUndefined \/ In (k, get_own o k) o.
Proof.
  induction o as [|[k0 v0] o IH]; simpl; [now left|].
  destruct (String.eqb_spec k0 k) as [->|n].
  - right. now left.
  - destruct IH as [E|E]; [now left|right; now right].
Qed.

Lemma get_own_all_objects (b : obj) (k : string) :
  all_objects b -> get_own b k = VUndefined \/ is_object (get_own b k) = true.
Proof.
  intros Hb. destruct (get_own_In b k) as [E|E]; [now left|right].
  exact (Hb _ _ E).
Qed.

(* ================================================================== *)
(** * Properties of the settings store *)
(* ================================================================== *)

(** The loop over the parents finds nothing when no parent has the
    setting. *)
Lemma walk_parents_default (settings : Value) (pathParts : list string)
      (settingName : string) (defaultValue : Value) (i : nat) :
  (forall j, (1 <= j <= i)%nat ->
             lookup_setting settings (join_dot (firstn j pathParts))
                            settingName VUndefined = VUndefined) ->
  walk_parents settings pathParts settingName defaultValue i
  = mkResolved defaultValue false None.
Proof.
  induction i as [|i IH]; intros H; [reflexivity|].
  cbn [walk_parents]. rewrite (H (S i)) by lia. cbn [is_undefined negb].
  apply IH. intros j Hj. apply H. lia.
Qed.

Lemma resolve_setting_default (settings : Value) (path settingName : string)
      (defaultValue : Value) :
  lookup_setting settings path settingName VUndefined = VUndefined ->
  (forall j, (1 <= j < List.length (split_dot path))%nat ->
             lookup_setting settings (join_dot (firstn j (split_dot path)))
                            settingName VUndefined = VUndefined) ->
  resolve_setting settings path settingName defaultValue
  = mkResolved defaultValue false None.
Proof.
  intros Hd Hp. unfold resolve_setting. rewrite Hd. cbn [is_undefined negb].
  apply walk_parents_default. intros j Hj. apply Hp. lia.
Qed.

Lemma lookup_setting_empty (path settingName : string) (defaultValue : Value) :
  lookup_setting (VObj []) path settingName defaultValue = defaultValue.
Proof.
  unfold lookup_setting, own_setting. simpl.
  now destruct (negb (String.eqb (last_segment path) path)).
Qed.

(** The loop over the parents stops at the nearest parent that has the
    setting, and names its last segment. *)
Lemma walk_parents_nearest (settings : Value) (pathParts : list string)
      (settingName : string) (defaultValue v : Value) (i j : nat) :
  (1 <= j <= i)%nat ->
  lookup_setting settings (join_dot (firstn j pathParts)) settingName VUndefined
  = v ->
  is_undefined v = false ->
  (forall j', (j < j' <= i)%nat ->
              lookup_setting settings (join_dot (firstn j' pathParts))
                             settingName VUndefined = VUndefined) ->
  walk_parents settings pathParts settingName defaultValue i
  = mkResolved v true (Some (nth (j - 1) pathParts EmptyString)).
Proof.
  intros Hj Hv Hd. induction i as [|i IH]; intros Hmiss; [lia|].
  cbn [walk_parents].
  destruct (Nat.eq_dec j (S i)) as [->|Hne].
  - rewrite Hv, Hd. cbn [negb]. now replace (S i - 1)%nat with i by lia.
  - rewrite (Hmiss (S i)) by lia. cbn [is_undefined negb].
    apply IH; [lia|]. intros j' Hj'. apply Hmiss. lia.
Qed.

(** C3 (as stated, refuted).  The path ["a.b.c.d"] has no record, and
    neither has any of its ancestors; the store holds one record, under
    the bare name ["d"], which a write at that name puts there.  The direct
    lookup falls back on the final segment of the path, so the path
    resolves to the value of that record, and not to the default. *)
Lemma record_under_final_segment_resolves :
  setUserSetting initial_state "d" "exponent" (VNum (Fin 5)) = Some short_name_state
  /\ prop (get_own (userSettings short_name_state) "keyboard") "a.b.c.d" = VUndefined
  /\ prop (get_own (userSettings short_name_state) "keyboard") "a.b.c" = VUndefined
  /\ prop (get_own (userSettings short_name_state) "keyboard") "a.b" = VUndefined
  /\ prop (get_own (userSettings short_name_state) "keyboard") "a" = VUndefined
  /\ getUserSettingWithInheritance short_name_state "a.b.c.d" "exponent"
                                   (VNum (Fin 1))
     = Some (mkResolved (VNum (Fin 5)) false None)
  /\ getUserSettingWithInheritance short_name_state "a.b.c.d" "exponent"
                                   (VNum (Fin 1))
     <> Some (mkResolved (VNum (Fin 1)) false None).
Proof.
  repeat split; try reflexivity. discriminate.
Qed.

(** C3 (amended).  Inheritance resolution is built on the direct lookup
    [getUserSetting], which reads the record at the path and, failing
    that, the record under the final segment of the path.  From the empty
    store, in each device class and instance, after
    [set("a.b.c", "exponent", 2.0)] the path ["a.b.c.d"] resolves to [2.0],
    inherited from ["c"].  In every store, for a setting name, a path, its
    ancestors and their segments other than the names every object has
    from [Object.prototype]: a value the direct lookup finds at the path
    is returned as not inherited; otherwise the value of the nearest
    ancestor at which the direct lookup finds one is returned as
    inherited, with the last segment of that ancestor; and when the direct
    lookup misses at the path and at every ancestor, the result is the
    default, not inherited. *)
Theorem getUserSettingWithInheritance_resolves :
  (forall inst : Z,
      let st0 := select_device "keyboard" inst initial_state in
      bind (setUserSetting st0 "a.b.c" "exponent" (VNum (Fin 2)))
           (fun st => getUserSettingWithInheritance st "a.b.c.d" "exponent"
                                                    (VNum (Fin 1)))
      = Some (mkResolved (VNum (Fin 2)) true (Some "c"))) /\
  (forall inst : Z,
      let st0 := select_device "gamepad" inst initial_state in
      bind (setUserSetting st0 "a.b.c" "exponent" (VNum (Fin 2)))
           (fun st => getUserSettingWithInheritance st "a.b.c.d" "exponent"
                                                    (VNum (Fin 1)))
      = Some (mkResolved (VNum (Fin 2)) true (Some "c"))) /\
  (forall inst : Z,
      let st0 := select_device "joystick" inst initial_state in
      bind (setUserSetting st0 "a.b.c" "exponent" (VNum (Fin 2)))
           (fun st => getUserSettingWithInheritance st "a.b.c.d" "exponent"
                                                    (VNum (Fin 1)))
      = Some (mkResolved (VNum (Fin 2)) true (Some "c"))) /\
  (forall (st : State) (path settingName : string) (defaultValue v : Value),
      plain_ancestry path -> plain_key settingName ->
      getUserSetting st path settingName VUndefined = Some v ->
      is_undefined v = false ->
      getUserSettingWithInheritance st path settingName defaultValue
      = Some (mkResolved v false None)) /\
  (forall (st : State) (path settingName : string) (defaultValue v : Value)
          (j : nat),
      plain_ancestry path -> plain_key settingName ->
      getUserSetting st path settingName VUndefined = Some VUndefined ->
      (1 <= j < List.length (split_dot path))%nat ->
      getUserSetting st (join_dot (firstn j (split_dot path)))
                     settingName VUndefined = Some v ->
      is_undefined v = false ->
      (forall j', (j < j' < List.length (split_dot path))%nat ->
                  getUserSetting st (join_dot (firstn j' (split_dot path)))
                                 settingName VUndefined = Some VUndefined) ->
      getUserSettingWithInheritance st path settingName defaultValue
      = Some (mkResolved v true (Some (nth (j - 1) (split_dot path) EmptyString)))) /\
  (forall (st : State) (path settingName : string) (defaultValue : Value),
      plain_ancestry path -> plain_key settingName ->
      getUserSetting st path settingName VUndefined = Some VUndefined ->
      (forall j, (1 <= j < List.length (split_dot path))%nat ->
                 getUserSetting st (join_dot (firstn j (split_dot path)))
                                settingName VUndefined = Some VUndefined) ->
      getUserSettingWithInheritance st path settingName defaultValue
      = Some (mkResolved defaultValue false None)).
Proof.
  split; [intros inst; reflexivity|].
  split.
  { intros inst st0. unfold setUserSetting, st0.
    cbn [select_device currentDeviceType String.eqb Ascii.eqb Bool.eqb
         currentGamepadInstance userSettings initial_state bind].
    change (get_own empty_userSettings "gamepad") with (VObj []).
    unfold store_in_instance, ensure_object. cbn.
    rewrite !String.eqb_refl. cbn.
    unfold getUserSettingWithInheritance, current_settings. cbn.
    rewrite !String.eqb_refl. reflexivity. }
  split.
  { intros inst st0. unfold setUserSetting, st0.
    cbn [select_device currentDeviceType String.eqb Ascii.eqb Bool.eqb
         currentJoystickInstance userSettings initial_state bind].
    change (get_own empty_userSettings "joystick") with (VObj []).
    unfold store_in_instance, ensure_object. cbn.
    rewrite !String.eqb_refl. cbn.
    unfold getUserSettingWithInheritance, current_settings. cbn.
    rewrite !String.eqb_refl. reflexivity. }
  split.
  { intros st path settingName defaultValue v _ _ Hd Hv.
    unfold getUserSettingWithInheritance, getUserSetting in *.
    destruct (current_settings st) as [settings|]; [|discriminate].
    injection Hd as Hd. f_equal. unfold resolve_setting.
    now rewrite Hd, Hv. }
  split.
  { intros st path settingName defaultValue v j _ _ Hd Hj Hp Hv Hmiss.
    unfold getUserSettingWithInheritance, getUserSetting in *.
    destruct (current_settings st) as [settings|]; [|discriminate].
    injection Hd as Hd. injection Hp as Hp. f_equal. unfold resolve_setting.
    rewrite Hd. cbn [is_undefined negb].
    apply walk_parents_nearest; [lia|exact Hp|exact Hv|].
    intros j' Hj'. assert (H := Hmiss j' ltac:(lia)). congruence. }
  intros st path settingName defaultValue _ _ Hd Hp.
  unfold getUserSettingWithInheritance, getUserSetting in *.
  destruct (current_settings st) as [settings|]; [|discriminate].
  f_equal. apply resolve_setting_default.
  - congruence.
  - intros j Hj. specialize (Hp j Hj). congruence.
Qed.

Lemma getUserSettingWithInheritance_resolves_witness :
  getUserSettingWithInheritance ancestors_state "a.b.c.d" "exponent" (VNum (Fin 1))
  = Some (mkResolved (VNum (Fin 4)) true (Some "b"))
  /\ getUserSettingWithInheritance unrelated_state "a.b.c.d" "exponent"
                                   (VNum (Fin 1))
     = Some (mkResolved (VNum (Fin 1)) false None).
Proof.
  split.
  - apply (proj1 (proj2 (proj2 (proj2 (proj2
             getUserSettingWithInheritance_resolves))))
             ancestors_state "a.b.c.d" "exponent" (VNum (Fin 1)) (VNum (Fin 4)) 2%nat).
    + intros j Hj. simpl in Hj.
      destruct j as [|[|[|[|[|j]]]]]; try lia; split; reflexivity.
    + reflexivity.
    + reflexivity.
    + simpl. lia.
    + reflexivity.
    + reflexivity.
    + intros j' Hj'. simpl in Hj'.
      assert (E : j' = 3%nat) by lia. subst j'. reflexivity.
  - apply (proj2 (proj2 (proj2 (proj2 (proj2
             getUserSettingWithInheritance_resolves))))).
    + intros j Hj. simpl in Hj.
      destruct j as [|[|[|[|[|j]]]]]; try lia; split; reflexivity.
    + reflexivity.
    + reflexivity.
    + intros j Hj. destruct j as [|[|[|[|j]]]]; try reflexivity; simpl in Hj; lia.
Defined.

(* ================================================================== *)
(** * Properties of the format converter *)
(* ================================================================== *)

Lemma gt_zero_length_cons {A : Type} (x : A) (l : list A) :
  gt_zero (VNum (num_of_nat (List.length (x :: l)))) = true.
Proof.
  unfold gt_zero, num_of_nat. cbn [to_number].
  destruct (Qle_bool (inject_Z (Z.of_nat (List.length (x :: l)))) 0) eqn:E;
    [|reflexivity].
  apply Qle_bool_iff in E. unfold Qle in E. simpl in E. lia.
Qed.

(** The code, on the object of a record, exports what [exported_entry]
    describes. *)
Lemma entry_of_record (path : string) (r : SettingsRecord) :
  entry_of path (value_of_record r) = Some (exported_entry path r).
Proof.
  destruct r as [i m e c].
  unfold entry_of, exported_entry, exported_exponent, exported_curve,
    mode_in_force, hasInvert, hasExponent, hasCurve, curveMode_of,
    value_of_record.
  cbn [sr_invert sr_curveMode sr_exponent sr_curve nullish].
  destruct i as [b|], m as [[|]|], e as [e|], c as [[rs [|p ps]]|];
    cbn -[gt_zero jsnum_eqb last_segment List.length];
    try rewrite gt_zero_length_cons;
    try (destruct (jsnum_eqb e (Fin 1)));
    reflexivity.
Qed.

(** C4 (as stated, refuted).  A record under curve mode with a point has
    an entry with an exponent, the neutral [1], though its mode is not
    "exponent" and it stores no exponent at all. *)
Lemma curve_entry_carries_exponent :
  entry_of "inversion.fps.pitch" (value_of_record curve_record)
  = Some (Some {| fe_name := "pitch";
                  fe_invert := VUndefined;
                  fe_exponent := VNum (Fin 1);
                  fe_curve := value_of_curve
                                (mkStoredCurve false [mkPoint (1 # 2) (1 # 4)]) |}).
Proof. reflexivity. Qed.

(** C4 (amended).  For every stored record the entry is the one
    [exported_entry] describes: the stored exponent is exported exactly
    under exponent mode (in force also when [curveMode] is absent) when it
    is set and is not [1]; under curve mode the exponent of the entry is
    the neutral [1] when a curve with a point is exported and is absent
    otherwise.  A record with exponent mode, exponent [1.0], no curve and
    no invert has no entry, and a bucket holding only that record yields
    [null]. *)
Theorem generateControlOptionsXml_exponent :
  (forall path r,
      entry_of path (value_of_record r) = Some (exported_entry path r)) /\
  (forall path, entry_of path (value_of_record identity_record) = Some None) /\
  generateControlOptionsXml
    [("keyboard", VObj [("inversion.fps.pitch", value_of_record identity_record)]);
     ("gamepad", VObj []); ("joystick", VObj [])] "keyboard" 1
  = Some None.
Proof.
  split; [exact entry_of_record|]. split; [|reflexivity].
  intros path. now rewrite entry_of_record.
Qed.

Lemma In_insert_by_index (e a : nat * (string * Value))
      (l : list (nat * (string * Value))) :
  In e (insert_by_index a l) -> e = a \/ In e l.
Proof.
  induction l as [|b l IH]; simpl.
  - intros [H|[]]; now left.
  - destruct (fst a <=? fst b)%nat; simpl.
    + intros [H|H]; [now left|now right].
    + intros [H|H]; [right; now left|].
      destruct (IH H) as [E|E]; [now left|right; now right].
Qed.

Lemma In_index_entries (o : obj) (e : nat * (string * Value)) :
  In e (index_entries o) -> In (snd e) o.
Proof.
  unfold index_entries. induction o as [|kv o IH]; simpl; [tauto|].
  destruct (array_index (fst kv)) as [i|].
  - intros H. apply In_insert_by_index in H as [->|H]; [now left|right; auto].
  - intros H. right. auto.
Qed.

Lemma In_own_entries (o : obj) (kv : string * Value) :
  In kv (own_entries (VObj o)) -> In kv o.
Proof.
  unfold own_entries. intros H. apply in_app_or in H as [H|H].
  - apply in_map_iff in H as [e [<- He]]. now apply In_index_entries.
  - now apply filter_In in H as [H _].
Qed.

Lemma get_own_undefined_or_object (b : obj) (k : string) :
  all_objects b -> get_own b k = VUndefined \/ exists o, get_own b k = VObj o.
Proof.
  intros Hb. destruct (get_own_all_objects k Hb) as [E|E]; [now left|right].
  destruct (get_own b k); try discriminate E. now eexists.
Qed.

(** Reading a record's fields off an instance bucket: the mode is never
    "curve", so no curve is exported, and what is found under [invert] or
    [exponent] is the record stored at a path of that name. *)
Lemma entry_of_bucket (k : string) (b : obj) :
  all_objects b ->
  exists x, entry_of k (VObj b) = Some x /\
            forall e, x = Some e ->
                      bucket_read e /\ well_formed_entry e = false
                      /\ fe_name e = last_segment k.
Proof.
  intros Hb.
  unfold entry_of, hasInvert, hasExponent, hasCurve, curveMode_of.
  cbn [nullish prop].
  destruct (get_own_undefined_or_object "invert" Hb) as [-> | [oi ->]];
    destruct (get_own_undefined_or_object "exponent" Hb) as [-> | [oe ->]];
    destruct (get_own_undefined_or_object "curveMode" Hb) as [-> | [om ->]];
    cbn; eexists; (split; [reflexivity|]); intros e He;
    try discriminate He; injection He as <-;
    unfold bucket_read, well_formed_entry; cbn; auto 6.
Qed.

Lemma collect_entries_buckets (l : list (string * Value)) :
  (forall k v, In (k, v) l -> exists b, v = VObj b /\ all_objects b) ->
  exists r, collect_entries l = Some r /\
            Forall (fun e => bucket_read e /\ well_formed_entry e = false
                             /\ exists k, In k (map fst l)
                                          /\ fe_name e = last_segment k) r.
Proof.
  induction l as [|[k v] l IH]; intros H.
  - exists []. split; [reflexivity|constructor].
  - destruct (H k v (or_introl eq_refl)) as [b [-> Hb]].
    destruct (entry_of_bucket k Hb) as [x [Ex Hx]].
    destruct IH as [r [Er Hr]].
    { intros k' v' Hin. apply (H k' v'). now right. }
    cbn [collect_entries bind]. rewrite Ex, Er. cbn [bind].
    assert (Hr' : Forall
                    (fun e => bucket_read e /\ well_formed_entry e = false
                              /\ exists k0, In k0 (map fst ((k, VObj b) :: l))
                                            /\ fe_name e = last_segment k0) r).
    { eapply Forall_impl; [|exact Hr].
      intros e (H1 & H2 & k0 & H3 & H4).
      split; [exact H1|]. split; [exact H2|].
      exists k0. split; [now right|exact H4]. }
    destruct x as [e|]; eexists; (split; [reflexivity|]); [|exact Hr'].
    constructor; [|exact Hr'].
    destruct (Hx e eq_refl) as (H1 & H2 & H3).
    split; [exact H1|]. split; [exact H2|].
    exists k. split; [now left|exact H3].
Qed.

(** [setUserSetting] keeps the gamepad object in its per-instance shape. *)
Lemma store_in_bucket_all_objects (b : obj) (path settingName : string)
      (v b' : Value) :
  all_objects b ->
  store_in_bucket (VObj b) path settingName v = Some b' ->
  exists o, b' = VObj o /\ all_objects o.
Proof.
  intros Hb. unfold store_in_bucket, ensure_object. cbn [nullish prop].
  destruct (get_own_undefined_or_object path Hb) as [E | [r E]]; rewrite E.
  - cbn [truthy write bind prop]. rewrite get_own_set_own_eq. cbn [write bind].
    intros H. injection H as <-. eexists. split; [reflexivity|].
    intros k' v' Hin. apply In_set_own in Hin as [[_ ->]|Hin]; [reflexivity|].
    apply In_set_own in Hin as [[_ ->]|Hin]; [reflexivity|]. exact (Hb _ _ Hin).
  - cbn [truthy write bind prop]. rewrite E. cbn [write bind].
    intros H. injection H as <-. eexists. split; [reflexivity|].
    intros k' v' Hin. apply In_set_own in Hin as [[_ ->]|Hin]; [reflexivity|].
    exact (Hb _ _ Hin).
Qed.

Lemma store_in_instance_per_instance (class : Value)
      (instKey path settingName : string) (v class' : Value) :
  per_instance class ->
  store_in_instance class instKey path settingName v = Some class' ->
  per_instance class'.
Proof.
  intros [g [-> Hg]]. unfold store_in_instance, ensure_object.
  cbn [nullish prop].
  assert (Hcase : forall g0 : obj,
             (forall k0 v0, In (k0, v0) g0 ->
                            exists b, v0 = VObj b /\ all_objects b) ->
             forall b0, get_own g0 instKey = VObj b0 -> all_objects b0 ->
             bind (store_in_bucket (prop (VObj g0) instKey) path settingName v)
                  (fun b2 => write (VObj g0) instKey b2) = Some class' ->
             per_instance class').
  { intros g0 Hg0 b0 E Hb0. cbn [prop]. rewrite E.
    destruct (store_in_bucket (VObj b0) path settingName v) as [b2|] eqn:Es;
      [|discriminate].
    destruct (@store_in_bucket_all_objects _ _ _ _ _ Hb0 Es) as [o [-> Ho]].
    cbn [bind write]. intros H. injection H as <-.
    eexists. split; [reflexivity|].
    intros k0 v0 Hin. apply In_set_own in Hin as [[_ ->]|Hin].
    - now exists o.
    - exact (Hg0 _ _ Hin). }
  destruct (get_own_In g instKey) as [E|E].
  - rewrite E. cbn [truthy write bind].
    apply (Hcase (set_own g instKey (VObj [])))  with (b0 := []).
    + intros k0 v0 Hin. apply In_set_own in Hin as [[_ ->]|Hin].
      * exists []. split; [reflexivity|]. intros ? ? [].
      * exact (Hg _ _ Hin).
    + apply get_own_set_own_eq.
    + intros ? ? [].
  - destruct (Hg _ _ E) as [b0 [Eb Hb0]]. rewrite Eb. cbn [truthy bind].
    now apply (Hcase g Hg b0).
Qed.

Lemma setUserSetting_gamepad_shape (st st' : State) (path settingName : string)
      (v : Value) :
  per_instance (get_own (userSettings st) "gamepad") ->
  setUserSetting st path settingName v = Some st' ->
  per_instance (get_own (userSettings st') "gamepad").
Proof.
  intros Hg. unfold setUserSetting.
  destruct (String.eqb_spec (currentDeviceType st) "joystick") as [Ej|Ej].
  - destruct (store_in_instance _ _ _ _ _) as [j|]; [|discriminate].
    cbn [bind]. intros H. injection H as <-. cbn [userSettings].
    now rewrite get_own_set_own_neq by discriminate.
  - destruct (String.eqb_spec (currentDeviceType st) "gamepad") as [Eg|Eg].
    + destruct (store_in_instance _ _ _ _ _) as [g|] eqn:Es; [|discriminate].
      cbn [bind]. intros H. injection H as <-. cbn [userSettings].
      rewrite get_own_set_own_eq.
      exact (@store_in_instance_per_instance _ _ _ _ _ _ Hg Es).
    + destruct (store_in_bucket _ _ _ _) as [b|]; [|discriminate].
      cbn [bind]. intros H. injection H as <-. cbn [userSettings].
      now rewrite get_own_set_own_neq by exact Eg.
Qed.

Lemma run_actions_gamepad_shape (acts : list SetAction) :
  forall st st',
    per_instance (get_own (userSettings st) "gamepad") ->
    run_actions st acts = Some st' ->
    per_instance (get_own (userSettings st') "gamepad").
Proof.
  induction acts as [|a acts IH]; intros st st' Hg.
  - cbn. intros H. now injection H as <-.
  - cbn [run_actions].
    destruct (setUserSetting _ _ _ _) as [st1|] eqn:Es; [|discriminate].
    cbn [bind]. apply IH.
    eapply setUserSetting_gamepad_shape; [|exact Es]. exact Hg.
Qed.

Lemma generate_gamepad_per_instance (us : obj) (i : Z) :
  per_instance (get_own us "gamepad") ->
  exists r, generateControlOptionsXml us "gamepad" i = Some r /\
            forall l, r = Some l ->
                      Forall (fun e => bucket_read e /\ well_formed_entry e = false) l.
Proof.
  intros [g [Eg Hg]]. unfold generateControlOptionsXml, export_settings.
  cbn [String.eqb Ascii.eqb Bool.eqb]. rewrite Eg.
  cbn [or_empty truthy bind].
  destruct (@collect_entries_buckets (own_entries (VObj g))) as [r [Er Hr]].
  { intros k v Hin. apply In_own_entries in Hin. exact (Hg _ _ Hin). }
  destruct (own_entries (VObj g)) as [|kv l0] eqn:El.
  - eexists. split; [reflexivity|]. discriminate.
  - rewrite Er. cbn [bind]. eexists. split; [reflexivity|].
    intros l Hl. destruct r as [|e r]; [discriminate|]. injection Hl as <-.
    eapply Forall_impl; [|exact Hr]. intros e0 (H1 & H2 & _). now split.
Qed.

(** The write side: a setting written for a gamepad instance sits at
    [userSettings.gamepad[instance][path][settingName]]. *)
Lemma setUserSetting_gamepad_stored (st : State) (inst : Z)
      (path settingName : string) (v : Value) :
  per_instance (get_own (userSettings st) "gamepad") ->
  exists st',
    setUserSetting (select_device "gamepad" inst st) path settingName v = Some st'
    /\ prop (prop (prop (get_own (userSettings st') "gamepad") (string_of_Z inst))
                  path) settingName = v.
Proof.
  intros [g [Eg Hg]]. unfold setUserSetting.
  cbn [select_device currentDeviceType String.eqb Ascii.eqb Bool.eqb
       currentGamepadInstance userSettings].
  rewrite Eg. set (key := string_of_Z inst).
  assert (Hb : exists g1 b1,
             ensure_object (VObj g) key = Some (VObj g1)
             /\ get_own g1 key = VObj b1 /\ all_objects b1).
  { unfold ensure_object. cbn [nullish prop].
    destruct (get_own_In g key) as [E|E].
    - rewrite E. cbn. exists (set_own g key (VObj [])), [].
      repeat split; [apply get_own_set_own_eq|]. intros ? ? [].
    - destruct (Hg _ _ E) as [b1 [Eb Hb1]]. rewrite Eb. cbn.
      now exists g, b1. }
  destruct Hb as (g1 & b1 & E1 & E2 & Hb1).
  assert (Hr : exists b2 r1,
             ensure_object (VObj b1) path = Some (VObj b2)
             /\ get_own b2 path = VObj r1).
  { unfold ensure_object. cbn [nullish prop].
    destruct (get_own_undefined_or_object path Hb1) as [E | [r E]]; rewrite E; cbn.
    - exists (set_own b1 path (VObj [])), []. split; [reflexivity|].
      apply get_own_set_own_eq.
    - now exists b1, r. }
  destruct Hr as (b2 & r1 & E3 & E4).
  unfold store_in_instance, store_in_bucket. rewrite E1. cbn [bind prop].
  rewrite E2, E3. cbn [bind prop]. rewrite E4. cbn [write bind].
  eexists. split; [reflexivity|]. cbn [userSettings].
  repeat (rewrite get_own_set_own_eq; cbn [prop]).
  reflexivity.
Qed.

(** The invert written for gamepad 1 is in the store and the export for
    the gamepad is [null]. *)
Example gamepad_invert_not_exported :
  getUserSetting gamepad_state "inversion.fps.pitch" "invert" VUndefined
  = Some (VBool true) /\
  generateControlOptionsXml (userSettings gamepad_state) "gamepad" 1 = Some None.
Proof. split; reflexivity. Qed.

(* ================================================================== *)
(** * Segments of built paths *)
(* ================================================================== *)

Lemma split_dot_app (a b : string) :
  split_dot (a ++ "." ++ b) = (split_dot a ++ split_dot b)%list.
Proof.
  induction a as [|c a IH]; [reflexivity|].
  change (String c a ++ "." ++ b) with (String c (a ++ "." ++ b)).
  cbn [split_dot]. rewrite IH.
  destruct (Ascii.eqb c "."); [reflexivity|].
  pose proof (split_dot_not_nil a) as Hn.
  destruct (split_dot a) as [|s ss]; [congruence|reflexivity].
Qed.

Lemma split_dot_dot_free_string (s : string) :
  dot_free s = true -> split_dot s = [s].
Proof.
  induction s as [|c s IH]; [reflexivity|]. cbn [dot_free split_dot].
  intros H. apply andb_prop in H as [Hc Hs].
  destruct (Ascii.eqb c "."); [discriminate|]. now rewrite IH.
Qed.

Lemma split_dot_tail_str (rest : list string) :
  Forall (fun s => dot_free s = true) rest ->
  forall s0, dot_free s0 = true -> split_dot (s0 ++ tail_str rest) = s0 :: rest.
Proof.
  induction 1 as [|s1 rest H1 Hr IH]; intros s0 H0.
  - cbn [tail_str]. rewrite app_str_nil_r. now apply split_dot_dot_free_string.
  - cbn [tail_str]. rewrite split_dot_app, IH by assumption.
    now rewrite split_dot_dot_free_string.
Qed.

Lemma split_join_dot (segs : list string) :
  segs <> [] -> Forall (fun s => dot_free s = true) segs ->
  split_dot (join_dot segs) = segs.
Proof.
  destruct segs as [|s0 rest]; [congruence|]. intros _ H.
  inversion H; subst. rewrite join_dot_cons. now apply split_dot_tail_str.
Qed.

Lemma replace_first_inner_middle (seg pre : string) (A B : list string) :
  ~ In seg A -> B <> [] ->
  replace_first_inner seg pre (A ++ seg :: B) = (A ++ pre :: B)%list.
Proof.
  intros HA HB. induction A as [|a A IH]; cbn [app replace_first_inner].
  - rewrite String.eqb_refl. destruct B; [congruence|reflexivity].
  - destruct (String.eqb_spec seg a) as [->|_]; [exfalso; apply HA; now left|].
    cbn [andb]. rewrite IH; [reflexivity|]. intros Hin. apply HA. now right.
Qed.

Lemma replace_last_length (seg pre : string) (l : list string) :
  List.length (replace_last seg pre l) = List.length l.
Proof.
  induction l as [|a l IH]; [reflexivity|]. cbn [replace_last].
  destruct (String.eqb a seg && is_nil l) eqn:E.
  - apply andb_prop in E as [_ E]. destruct l; [reflexivity|discriminate].
  - cbn [List.length]. now rewrite IH.
Qed.

Lemma replace_last_app (seg pre : string) (A B : list string) :
  B <> [] ->
  replace_last seg pre (A ++ B) = (A ++ replace_last seg pre B)%list.
Proof.
  intros HB. induction A as [|a A IH]; [reflexivity|].
  cbn [app replace_last].
  destruct (A ++ B)%list as [|x l] eqn:E.
  - apply app_eq_nil in E as [_ E]. congruence.
  - cbn [is_nil]. rewrite andb_false_r. now rewrite IH.
Qed.

(** The first [seg] of a path that is not its last segment is replaced. *)
Lemma rewrite_segments_first (seg pre : string) (A B : list string) :
  ~ In seg A -> B <> [] ->
  nth (List.length A) (rewrite_segments seg pre (A ++ seg :: B)) "" = pre.
Proof.
  intros HA HB. destruct A as [|a A].
  - cbn [app rewrite_segments List.length].
    assert (Hl : List.length (replace_last seg pre (replace_first_inner seg pre B))
                 <> O).
    { rewrite replace_last_length. destruct B as [|b B]; [congruence|].
      cbn [replace_first_inner].
      destruct (String.eqb seg b && negb (is_nil B)); discriminate. }
    remember (replace_last seg pre (replace_first_inner seg pre B)) as rest2.
    assert (Hn : is_nil rest2 = false).
    { destruct rest2; [simpl in Hl; congruence|reflexivity]. }
    unfold replace_head. rewrite String.eqb_refl, Hn. cbn [andb negb].
    unfold replace_only. rewrite Hn, andb_false_r. reflexivity.
  - cbn [app rewrite_segments List.length].
    rewrite replace_first_inner_middle;
      [|intros Hin; apply HA; now right|exact HB].
    rewrite replace_last_app by discriminate.
    assert (Hp : replace_last seg pre (pre :: B) = pre :: replace_last seg pre B).
    { cbn [replace_last]. destruct B; [congruence|].
      cbn [is_nil]. now rewrite andb_false_r. }
    rewrite Hp.
    remember (A ++ pre :: replace_last seg pre B)%list as rest2.
    assert (Hn : is_nil rest2 = false).
    { subst rest2. now destruct A. }
    assert (Hnth : nth (List.length A) rest2 "" = pre).
    { subst rest2. now rewrite nth_middle. }
    unfold replace_head. rewrite Hn. cbn [negb]. rewrite andb_true_r.
    destruct (String.eqb seg a); unfold replace_only; cbn [is_nil];
      rewrite Hn, andb_false_r; exact Hnth.
Qed.

Lemma rewrite_segments_dot_free (seg pre : string) (segs : list string) :
  dot_free pre = true ->
  Forall (fun s => dot_free s = true) segs ->
  Forall (fun s => dot_free s = true) (rewrite_segments seg pre segs).
Proof.
  intros Hpre H. destruct segs as [|s0 rest]; [constructor|].
  inversion H as [|? ? H0 Hr]; subst. unfold rewrite_segments.
  pose proof (replace_last_dot_free seg pre Hpre
                (replace_first_inner_dot_free seg pre Hpre Hr)) as Hr2.
  set (rest2 := replace_last seg pre (replace_first_inner seg pre rest)) in *.
  unfold replace_head.
  destruct (String.eqb seg s0 && negb (is_nil rest2)); unfold replace_only;
    match goal with
    | |- context [if ?c then _ else _] => destruct c
    end; repeat constructor; assumption.
Qed.

Lemma rewrite_segments_not_nil (seg pre : string) (segs : list string) :
  segs <> [] -> rewrite_segments seg pre segs <> [].
Proof.
  destruct segs as [|s0 rest]; [congruence|]. intros _.
  unfold rewrite_segments, replace_head.
  destruct (String.eqb seg s0 && negb (is_nil _)); unfold replace_only;
    match goal with
    | |- context [if ?c then _ else _] => destruct c
    end; discriminate.
Qed.

Lemma in_first_occurrence (seg : string) (l : list string) :
  In seg l -> exists A B, l = (A ++ seg :: B)%list /\ ~ In seg A.
Proof.
  induction l as [|a l IH]; [intros []|].
  destruct (string_dec a seg) as [->|Hne].
  - intros _. exists [], l. split; [reflexivity|intros []].
  - intros [H|H]; [congruence|].
    destruct (IH H) as (A & B & -> & HA).
    exists (a :: A), B. split; [reflexivity|].
    intros [E|E]; [congruence|now apply HA].
Qed.

Lemma last_segment_in (P : string) : In (last_segment P) (split_dot P).
Proof.
  unfold last_segment. pose proof (split_dot_not_nil P) as Hn.
  destruct (split_dot P) as [|s l]; [congruence|].
  clear Hn. revert s. induction l as [|a l IH]; intros s; [now left|].
  right. apply IH.
Qed.

(** A path that continues a path with an [inversion] segment does not
    come out of the rewriting as any path that also continues it, nor as
    that path itself: where the first [inversion] stood there is
    [sensitivity_curves]. *)
Lemma rewrite_path_leaves_subtree (P r : string) :
  In "inversion" (split_dot P) ->
  exists j,
    nth j (split_dot (rewrite_path "sensitivity_curves" (P ++ "." ++ r))) ""
    = "sensitivity_curves"
    /\ nth j (split_dot P) "" = "inversion"
    /\ (j < List.length (split_dot P))%nat.
Proof.
  intros Hin. destruct (in_first_occurrence _ _ Hin) as (A & B & E & HA).
  exists (List.length A).
  rewrite rewrite_path_segments by reflexivity.
  rewrite split_join_dot.
  - rewrite split_dot_app, E, <- app_assoc. cbn [app].
    split; [|split].
    + apply rewrite_segments_first; [exact HA|].
      pose proof (split_dot_not_nil r). destruct B, (split_dot r);
        try congruence; discriminate.
    + now rewrite nth_middle.
    + rewrite length_app. cbn. lia.
  - apply rewrite_segments_not_nil, split_dot_not_nil.
  - apply rewrite_segments_dot_free; [reflexivity|apply split_dot_dot_free].
Qed.

(* ================================================================== *)
(** * Searching the display tree by name *)
(* ================================================================== *)

Lemma find_app {A : Type} (f : A -> bool) (l1 l2 : list A) :
  find f (l1 ++ l2)
  = match find f l1 with
    | Some x => Some x
    | None => find f l2
    end.
Proof.
  induction l1 as [|x l1 IH]; [reflexivity|]. simpl.
  now destruct (f x).
Qed.

(** [findNodeByName] returns the first node, in depth-first preorder,
    whose name is the one sought. *)
Lemma findNodeByName_preorder (root : Node) (nm : string) :
  findNodeByName root nm
  = if str_truthy nm then find (name_is nm) (preorder root) else None.
Proof.
  destruct (str_truthy nm) eqn:Hnm.
  - induction root as [d cs IH] using Node_induction.
    cbn [findNodeByName preorder find]. rewrite Hnm. cbn [negb].
    unfold name_is at 1, node_name. cbn [data].
    destruct (String.eqb (name d) nm); [reflexivity|].
    induction IH as [|c cs Hc _ IHcs]; [reflexivity|].
    cbn [flat_map]. rewrite find_app, <- Hc.
    destruct (findNodeByName c nm); [reflexivity|exact IHcs].
  - destruct root as [d cs]. cbn [findNodeByName]. now rewrite Hnm.
Qed.

Lemma subtree_paths_preorder (n : Node) :
  subtree_paths n = map node_path (preorder n).
Proof.
  induction n as [d cs IH] using Node_induction.
  cbn [subtree_paths preorder map]. f_equal.
  induction IH as [|c cs Hc _ IHcs]; [reflexivity|].
  cbn [flat_map]. now rewrite map_app, Hc, IHcs.
Qed.

Lemma findNodeByName_path_in (root n : Node) (nm : string) :
  findNodeByName root nm = Some n ->
  In (node_path n) (subtree_paths root) /\ node_name n = nm.
Proof.
  rewrite findNodeByName_preorder. destruct (str_truthy nm); [|discriminate].
  intros H. apply find_some in H as [Hin Hname]. split.
  - rewrite subtree_paths_preorder. now apply in_map.
  - unfold name_is in Hname. now apply String.eqb_eq in Hname.
Qed.

(** In the tree of two sections the inversion section is searched first. *)
Lemma findNodeByName_two_sections (deviceType : string) (rawData inversionNode : Node)
      (nm : string) :
  nm <> "root" ->
  findNodeByName (two_section_tree deviceType rawData inversionNode) nm
  = match findNodeByName (inversionClone inversionNode) nm with
    | Some found => Some found
    | None => findNodeByName (curvesClone deviceType inversionNode) nm
    end.
Proof.
  intros Hroot. unfold two_section_tree, display_root.
  cbn [findNodeByName name].
  destruct (str_truthy nm) eqn:Hnm; cbn [negb].
  - destruct (String.eqb_spec "root" nm) as [E|_]; [congruence|].
    destruct (findNodeByName (inversionClone inversionNode) nm); [reflexivity|].
    now destruct (findNodeByName (curvesClone deviceType inversionNode) nm).
  - rewrite !findNodeByName_preorder, Hnm. reflexivity.
Qed.

Lemma transformToSCHierarchy_two_sections (deviceType : string)
      (rawData inversionNode : Node) :
  deviceType = "joystick" \/ deviceType = "gamepad" ->
  find (name_is "inversion") (children (contentNode rawData)) = Some inversionNode ->
  transformToSCHierarchy (Some rawData) deviceType
  = Some (two_section_tree deviceType rawData inversionNode).
Proof.
  intros Hdt Hfind. unfold transformToSCHierarchy. rewrite Hfind.
  destruct Hdt as [-> | ->]; reflexivity.
Qed.

Lemma nth_single_not_inversion (j : nat) :
  nth j ["sensitivity_curves"] "" <> "inversion".
Proof. destruct j as [|[|j]]; discriminate. Qed.

(** No path of the inversion subtree is a path of the sensitivity-curves
    section. *)
Lemma curvesClone_paths_disjoint (deviceType P : string) (inversionNode : Node)
      (q : option string) :
  path_discipline P inversionNode -> last_segment P = "inversion" ->
  In q (subtree_paths inversionNode) ->
  (exists p, q = Some p /\ str_truthy p = true)
  /\ ~ In q (subtree_paths (curvesClone deviceType inversionNode)).
Proof.
  intros [HP Hbelow] Hlast Hq.
  assert (HinP : In "inversion" (split_dot P)).
  { rewrite <- Hlast. apply last_segment_in. }
  assert (Hform : subtree_paths inversionNode
                  = Some P :: tl (subtree_paths inversionNode)).
  { destruct inversionNode as [d cs]. unfold node_path in HP.
    cbn in HP |- *. now rewrite HP. }
  assert (HPt : str_truthy P = true).
  { destruct P; [|reflexivity]. cbn in Hlast. discriminate. }
  (* the first [inversion] of [P] marks every path of the subtree *)
  assert (Hmark : exists p, q = Some p /\ str_truthy p = true /\
                            forall j, (j < List.length (split_dot P))%nat ->
                                      nth j (split_dot p) "" = nth j (split_dot P) "").
  { rewrite Hform in Hq. destruct Hq as [<-|Hq].
    - exists P. now repeat split.
    - rewrite Forall_forall in Hbelow. destruct (Hbelow _ Hq) as [r ->].
      exists (P ++ "." ++ r). split; [reflexivity|]. split.
      + destruct P; [discriminate|reflexivity].
      + intros j Hj. rewrite split_dot_app. now apply app_nth1. }
  destruct Hmark as (p & -> & Hpt & Hmark).
  split; [now exists p|].
  rewrite subtree_paths_curvesClone. intros [E|E].
  - injection E as <-.
    destruct (in_first_occurrence _ _ HinP) as (A & B & EP & _).
    specialize (Hmark (List.length A)).
    rewrite EP, nth_middle in Hmark.
    apply (@nth_single_not_inversion (List.length A)).
    cbn [split_dot] in Hmark.
    change (split_dot "sensitivity_curves") with ["sensitivity_curves"] in Hmark.
    apply Hmark. rewrite length_app. cbn. lia.
  - apply in_map_iff in E as (q0 & Eq & Hq0).
    rewrite Forall_forall in Hbelow. destruct (Hbelow _ Hq0) as [r ->].
    unfold rewrite_opt in Eq.
    assert (Ht : str_truthy (P ++ "." ++ r) = true)
      by (destruct P; [discriminate|reflexivity]).
    rewrite Ht in Eq. injection Eq as Eq.
    destruct (rewrite_path_leaves_subtree P r HinP) as (j & H1 & H2 & H3).
    pose proof (Hmark j H3) as Hm. subst p.
    assert (Habs : "sensitivity_curves" = "inversion").
    { rewrite <- H1, <- H2. exact Hm. }
    discriminate Habs.
Qed.

Lemma load_single_option (cd : option ControlsData) (deviceType inst : string)
      (opt : ControlOption) :
  deviceType = "joystick" \/ deviceType = "gamepad" ->
  load_devices cd empty_userSettings
               [mkDeviceOptions deviceType inst (Some [opt])]
  = Some (store_after_load deviceType inst
                           (fullPath_of cd deviceType (co_name opt)) opt).
Proof.
  intros [-> | ->]; unfold store_after_load;
    cbn [load_devices device_type control_options instance opt_or
         store_options store_option String.eqb Ascii.eqb Bool.eqb bind].
  - change (get_own empty_userSettings "joystick") with (VObj []).
    unfold ensure_object. cbn [nullish prop get_own truthy write set_own bind].
    rewrite !String.eqb_refl. cbn [write set_own bind].
    rewrite ?String.eqb_refl. reflexivity.
  - reflexivity.
Qed.

(** In a display tree of two sections whose paths are built from the
    path [P] of the [inversion] node, an option whose name is found in the
    inversion section, and is not the name [root] of the display root, is
    keyed under the path of that first match, which is no path of the
    sensitivity-curves section. *)
Lemma loadControlSettings_key_in_two_sections
        (deviceType P : string) (rawData inversionNode found : Node)
        (cd : ControlsData) (st : State) (opt : ControlOption) (inst : string) :
  deviceType = "joystick" \/ deviceType = "gamepad" ->
  controlsData st = Some cd ->
  tree_of cd deviceType = Some (two_section_tree deviceType rawData inversionNode) ->
  path_discipline P inversionNode ->
  last_segment P = "inversion" ->
  co_name opt <> "root" ->
  findNodeByName (inversionClone inversionNode) (co_name opt) = Some found ->
  exists p,
    node_path found = Some p /\
    findNodeByName (two_section_tree deviceType rawData inversionNode) (co_name opt)
    = Some found /\
    fullPath_of (Some cd) deviceType (co_name opt) = p /\
    ~ In (Some p) (subtree_paths (curvesClone deviceType inversionNode)) /\
    loadControlSettings st (Some [mkDeviceOptions deviceType inst (Some [opt])])
    = Some (with_userSettings (store_after_load deviceType inst p opt) st).
Proof.
  intros Hdt Hcd Htree Hdisc Hlast Hroot Hfound.
  destruct (findNodeByName_path_in _ _ Hfound) as [Hin _].
  rewrite subtree_paths_inversionClone in Hin.
  destruct (@curvesClone_paths_disjoint deviceType P inversionNode _
              Hdisc Hlast Hin) as [(p & Ep & Hpt) Hnot].
  exists p. split; [exact Ep|].
  assert (Hfirst : findNodeByName
                     (two_section_tree deviceType rawData inversionNode)
                     (co_name opt) = Some found).
  { rewrite findNodeByName_two_sections by exact Hroot. now rewrite Hfound. }
  assert (Hkey : fullPath_of (Some cd) deviceType (co_name opt) = p).
  { unfold fullPath_of. rewrite Htree, Hfirst, Ep. now rewrite Hpt. }
  split; [exact Hfirst|]. split; [exact Hkey|].
  split; [now rewrite <- Ep|].
  unfold loadControlSettings. rewrite Hcd.
  rewrite load_single_option by exact Hdt. cbn [bind]. now rewrite Hkey.
Qed.

(* ================================================================== *)
(** * Paths of parsed trees *)
(* ================================================================== *)

Lemma Element_induction (Q : Element -> Prop) :
  (forall t attrs cs, Forall Q cs -> Q (mkElement t attrs cs)) -> forall e, Q e.
Proof.
  intros step. fix IH 1. intros [t attrs cs]. apply step.
  induction cs as [|c cs IHcs]; constructor; [apply IH|exact IHcs].
Qed.

(** The children [parseOptionGroup] pushes: the parsed [optiongroup]
    children, under the path of the node. *)
Lemma parseOptionGroup_children (t : string) (attrs : list (string * string))
      (cs : list Element) (deviceType : string) (parentPath : option string) :
  children (parseOptionGroup (mkElement t attrs cs) deviceType parentPath)
  = map (fun c => parseOptionGroup c deviceType (group_path attrs parentPath))
        (filter (fun c => String.eqb (el_tag c) "optiongroup") cs).
Proof.
  cbn [parseOptionGroup children].
  induction cs as [|c cs IH]; [reflexivity|]. cbn [filter].
  destruct (String.eqb (el_tag c) "optiongroup"); cbn [map]; now rewrite IH.
Qed.

Lemma parseOptionGroup_path (e : Element) (deviceType : string)
      (parentPath : option string) :
  node_path (parseOptionGroup e deviceType parentPath)
  = group_path (el_attrs e) parentPath.
Proof. now destruct e. Qed.

Lemma parseOptionGroup_name (e : Element) (deviceType : string)
      (parentPath : option string) :
  node_name (parseOptionGroup e deviceType parentPath) = group_name (el_attrs e).
Proof. now destruct e. Qed.

Lemma subtree_paths_unfold (n : Node) :
  subtree_paths n = node_path n :: flat_map subtree_paths (children n).
Proof. now destruct n. Qed.

Lemma extends_path_further (P x : string) (q : option string) :
  extends_path (P ++ "." ++ x) q -> extends_path P q.
Proof.
  intros [r ->]. exists (x ++ "." ++ r). now rewrite !app_str_assoc.
Qed.

(** Below a parsed node with a non-empty path every path continues that
    of the node. *)
Lemma parseOptionGroup_discipline (e : Element) :
  forall deviceType parentPath P,
    node_path (parseOptionGroup e deviceType parentPath) = Some P ->
    str_truthy P = true ->
    path_discipline P (parseOptionGroup e deviceType parentPath).
Proof.
  induction e as [t attrs cs IH] using Element_induction.
  intros deviceType parentPath P HP Ht. split; [exact HP|].
  rewrite subtree_paths_unfold. cbn [tl].
  rewrite parseOptionGroup_children.
  rewrite parseOptionGroup_path in HP. cbn [el_attrs] in HP. rewrite HP.
  induction IH as [|c cs Hc _ IHcs]; [constructor|]. cbn [filter].
  destruct (String.eqb (el_tag c) "optiongroup"); [|exact IHcs].
  cbn [map flat_map]. apply Forall_app. split; [|exact IHcs].
  assert (Hcp : node_path (parseOptionGroup c deviceType (Some P))
                = Some (P ++ "." ++ opt_or (lookup_attr "name" (el_attrs c)) "null")).
  { rewrite parseOptionGroup_path. unfold group_path. cbn [opt_str_truthy opt_or].
    now rewrite Ht. }
  assert (Hct : str_truthy (P ++ "." ++ opt_or (lookup_attr "name" (el_attrs c)) "null")
                = true) by (destruct P; [discriminate|reflexivity]).
  destruct (Hc deviceType (Some P) _ Hcp Hct) as [_ Hbelow].
  rewrite subtree_paths_unfold in Hbelow. cbn [tl] in Hbelow.
  rewrite subtree_paths_unfold, Hcp. constructor.
  - now eexists.
  - eapply Forall_impl; [|exact Hbelow].
    intros q. apply extends_path_further.
Qed.

(** A parsed node named [inversion] has a path that ends in that segment. *)
Lemma parseOptionGroup_inversion_path (e : Element) (deviceType : string)
      (parentPath : option string) :
  node_name (parseOptionGroup e deviceType parentPath) = "inversion" ->
  exists P, node_path (parseOptionGroup e deviceType parentPath) = Some P
            /\ last_segment P = "inversion".
Proof.
  rewrite parseOptionGroup_name, parseOptionGroup_path.
  unfold group_name, group_path.
  destruct (lookup_attr "name" (el_attrs e)) as [s|]; [|discriminate].
  destruct (str_truthy s); [|discriminate]. intros ->.
  destruct (opt_str_truthy parentPath).
  - eexists. split; [reflexivity|]. cbn [opt_or].
    unfold last_segment. rewrite split_dot_app.
    change (split_dot "inversion") with ["inversion"].
    now rewrite last_last.
  - now exists "inversion".
Qed.

Lemma parsed_child (e : Element) (deviceType : string) (parentPath : option string)
      (c : Node) :
  In c (children (parseOptionGroup e deviceType parentPath)) ->
  exists e' pp, c = parseOptionGroup e' deviceType pp.
Proof.
  destruct e as [t attrs cs]. rewrite parseOptionGroup_children.
  intros H. apply in_map_iff in H as (e' & <- & _). now eexists; eexists.
Qed.

(** In every parsed tree the [inversion] node the display transform
    picks obeys the path discipline. *)
Lemma parsed_inversion_discipline (tree : Element) (type : string)
      (inversionNode : Node) :
  find (name_is "inversion") (children (contentNode (rawData_of tree type)))
  = Some inversionNode ->
  exists P, path_discipline P inversionNode /\ last_segment P = "inversion".
Proof.
  intros Hfind. apply find_some in Hfind as [Hin Hname].
  assert (Hparsed : exists e' pp, inversionNode = parseOptionGroup e' type pp).
  { unfold contentNode, rawData_of in Hin.
    assert (Hraw : forall c f,
               In c (children (map_data f (parseOptionGroup tree type (Some "")))) ->
               exists e' pp, c = parseOptionGroup e' type pp).
    { intros c f Hc. apply (@parsed_child tree type (Some "")).
      now destruct (parseOptionGroup tree type (Some "")). }
    destruct (find (name_is "master") _) as [master|] eqn:Em.
    - apply find_some in Em as [Hm _]. apply Hraw in Hm as (em & pm & ->).
      destruct (find is_curves_container _) as [curves|] eqn:Ec.
      + apply find_some in Ec as [Hc _].
        apply parsed_child in Hc as (ec & pc & ->).
        now apply parsed_child in Hin.
      + now apply Hraw in Hin.
    - now apply Hraw in Hin. }
  destruct Hparsed as (e' & pp & ->).
  unfold name_is in Hname. apply String.eqb_eq in Hname.
  destruct (parseOptionGroup_inversion_path _ _ _ Hname) as (P & HP & Hlast).
  exists P. split; [|exact Hlast].
  apply parseOptionGroup_discipline; [exact HP|].
  destruct P; [discriminate Hlast|reflexivity].
Qed.

(** C10 (as stated, refuted).  A group named [root] lies in both
    sections; an entry of that name is keyed under the path of the display
    root, which comes first in preorder, and not under the path of the
    node of the inversion section. *)
Lemma root_entry_keyed_under_display_root :
  option_map (fun n => (node_name n, node_path n))
    (bind (inversion_section (parseOptionTreesFromXml root_named_doc) "joystick")
          (fun s => findNodeByName s "root"))
  = Some ("root", Some "root.inversion.root") /\
  option_map (fun n => (node_name n, node_path n))
    (bind (curves_section (parseOptionTreesFromXml root_named_doc) "joystick")
          (fun s => findNodeByName s "root"))
  = Some ("root", Some "root.sensitivity_curves.root") /\
  fullPath_of (Some (parseOptionTreesFromXml root_named_doc)) "joystick" "root"
  = "root" /\
  fullPath_of (Some (parseOptionTreesFromXml root_named_doc)) "joystick" "root"
  <> "root.inversion.root".
Proof. repeat split; try reflexivity. vm_compute. discriminate. Qed.

(** C10 (amended).  [findNodeByName] returns the first node in
    depth-first preorder whose name is the target.  For a parsed tree of a
    multi-instance class, shown as the two sections, an option whose name
    is found in the inversion section and is not [root], the name of the
    display root, is keyed by [loadControlSettings] under the path of the
    first node of that name in the inversion section; this key is no path
    of the sensitivity-curves section, and the option is stored under no
    other key. *)
Theorem loadControlSettings_keys_by_inversion_section
        (tree : Element) (type : string) (inversionNode found : Node)
        (cd : ControlsData) (st : State) (opt : ControlOption) (inst : string) :
  type = "joystick" \/ type = "gamepad" ->
  controlsData st = Some cd ->
  tree_of cd type = transformToSCHierarchy (Some (rawData_of tree type)) type ->
  find (name_is "inversion") (children (contentNode (rawData_of tree type)))
  = Some inversionNode ->
  co_name opt <> "root" ->
  findNodeByName (inversionClone inversionNode) (co_name opt) = Some found ->
  (forall root nm,
      findNodeByName root nm
      = if str_truthy nm then find (name_is nm) (preorder root) else None) /\
  exists p,
    node_path found = Some p /\
    option_map (fun t => findNodeByName t (co_name opt)) (tree_of cd type)
    = Some (Some found) /\
    fullPath_of (Some cd) type (co_name opt) = p /\
    ~ In (Some p) (subtree_paths (curvesClone type inversionNode)) /\
    loadControlSettings st (Some [mkDeviceOptions type inst (Some [opt])])
    = Some (with_userSettings (store_after_load type inst p opt) st).
Proof.
  intros Hdt Hcd Htree Hfind Hroot Hfound.
  split; [exact findNodeByName_preorder|].
  rewrite (@transformToSCHierarchy_two_sections _ _ _ Hdt Hfind) in Htree.
  destruct (@parsed_inversion_discipline _ _ _ Hfind) as (P & Hdisc & Hlast).
  destruct (@loadControlSettings_key_in_two_sections
              type P (rawData_of tree type) inversionNode found cd st opt inst
              Hdt Hcd Htree Hdisc Hlast Hroot Hfound)
    as (p & Ep & Hfirst & Hkey & Hnot & Hload).
  exists p. rewrite Htree. cbn [option_map]. rewrite Hfirst.
  repeat split; assumption.
Qed.

Lemma loadControlSettings_keys_by_inversion_section_witness :
  fullPath_of (controlsData joystick_state) "joystick" "fps_view_pitch"
  = "root.master.joystick_curves.inversion.fps.fps_view_pitch" /\
  option_map userSettings
    (loadControlSettings joystick_state
       (Some [mkDeviceOptions "joystick" "2" (Some [pitch_option])]))
  = Some [("keyboard", VObj []); ("gamepad", VObj []);
          ("joystick",
           VObj [("2",
                  VObj [("root.master.joystick_curves.inversion.fps.fps_view_pitch",
                         VObj [("invert", VBool true)])])])].
Proof.
  destruct (@loadControlSettings_keys_by_inversion_section
              joystick_tree "joystick" joystick_inversion
              (child_named "fps_view_pitch"
                 (child_named "fps" (inversionClone joystick_inversion)))
              (parseOptionTreesFromXml joystick_doc) joystick_state
              pitch_option "2")
    as [_ (p & Ep & _ & Hkey & _ & Hload)].
  - now left.
  - reflexivity.
  - reflexivity.
  - reflexivity.
  - discriminate.
  - reflexivity.
  - vm_compute in Ep. injection Ep as <-.
    split; [exact Hkey|]. rewrite Hload. reflexivity.
Defined.

(* ================================================================== *)
(** * The round trip through the flat list *)
(* ================================================================== *)

Lemma insert_by_index_perm (e : nat * (string * Value))
      (l : list (nat * (string * Value))) :
  Permutation (insert_by_index e l) (e :: l).
Proof.
  induction l as [|a l IH]; simpl; [reflexivity|].
  destruct (fst e <=? fst a)%nat; [reflexivity|].
  rewrite IH. apply perm_swap.
Qed.

Lemma index_entries_perm (o : obj) :
  Permutation (map snd (index_entries o)) (filter is_index_key o).
Proof.
  unfold index_entries, is_index_key.
  induction o as [|kv o IH]; simpl; [reflexivity|].
  destruct (array_index (fst kv)) as [i|]; [|exact IH].
  rewrite insert_by_index_perm. simpl. now constructor.
Qed.

Lemma filter_split_perm {A : Type} (f : A -> bool) (l : list A) :
  Permutation (filter f l ++ filter (fun x => negb (f x)) l) l.
Proof.
  induction l as [|x l IH]; simpl; [reflexivity|].
  destruct (f x); simpl.
  - now constructor.
  - rewrite <- Permutation_middle. now constructor.
Qed.

(** [Object.entries] lists every property once. *)
Lemma own_entries_perm (o : obj) : Permutation (own_entries (VObj o)) o.
Proof.
  unfold own_entries. rewrite index_entries_perm. apply filter_split_perm.
Qed.

Lemma collect_entries_bucket (B : Bucket) :
  collect_entries (value_of_bucket B) = Some (exported_list B).
Proof.
  induction B as [|[p r] B IH]; [reflexivity|].
  cbn [value_of_bucket map fst snd collect_entries].
  rewrite entry_of_record. cbn [bind].
  change (map (fun pr => (fst pr, value_of_record (snd pr))) B)
    with (value_of_bucket B).
  rewrite IH. cbn [bind exported_list flat_map fst snd].
  now destruct (exported_entry p r).
Qed.

(** What [generateControlOptionsXml] returns for a bucket of records: the
    entries of the records that have one, in the order of enumeration. *)
Lemma generateControlOptionsXml_bucket (us : obj) (deviceType : string) (i : Z)
      (B : Bucket) :
  export_settings us deviceType i = Some (VObj (value_of_bucket B)) ->
  exists B',
    Permutation B B' /\
    generateControlOptionsXml us deviceType i
    = Some (match exported_list B' with
            | [] => None
            | l => Some l
            end).
Proof.
  intros He. unfold generateControlOptionsXml. rewrite He. cbn [bind].
  pose proof (own_entries_perm (value_of_bucket B)) as HP.
  unfold value_of_bucket in HP at 2.
  apply Permutation_map_inv in HP as (B' & EB & HP').
  exists B'. split; [exact HP'|].
  change (map (fun pr => (fst pr, value_of_record (snd pr))) B')
    with (value_of_bucket B') in EB.
  rewrite EB.
  destruct (value_of_bucket B') as [|kv l] eqn:El.
  - destruct B'; [reflexivity|discriminate].
  - rewrite <- El, collect_entries_bucket. cbn [bind].
    now destruct (exported_list B').
Qed.

Lemma set_own_set_own (o : obj) (k : string) (v v' : Value) :
  set_own (set_own o k v) k v' = set_own o k v'.
Proof.
  induction o as [|[k0 v0] o IH]; simpl.
  - now rewrite String.eqb_refl.
  - destruct (String.eqb_spec k0 k) as [->|n]; simpl.
    + now rewrite String.eqb_refl.
    + destruct (String.eqb_spec k0 k); [congruence|now rewrite IH].
Qed.

(** Loading into a class kept flat: the options go into the class object
    one after the other. *)
Lemma store_options_flat (cd : option ControlsData) (deviceType inst : string)
      (opts : list ControlOption) :
  deviceType <> "joystick" ->
  forall us b0,
    get_own us deviceType = VObj b0 ->
    store_options cd deviceType inst us opts
    = Some (match opts with
            | [] => us
            | _ => set_own us deviceType
                           (VObj (fold_left (load_step cd deviceType) opts b0))
            end).
Proof.
  intros Hj. induction opts as [|opt opts IH]; intros us b0 Hb; [reflexivity|].
  cbn [store_options]. unfold store_option.
  destruct (String.eqb_spec deviceType "joystick") as [E|_]; [congruence|].
  cbv zeta. rewrite Hb. cbn [truthy]. rewrite Hb. cbn [write bind].
  rewrite (IH _ (set_own b0 (fullPath_of cd deviceType (co_name opt))
                         (VObj (settings_of_option opt))))
    by apply get_own_set_own_eq.
  destruct opts as [|opt' opts]; [reflexivity|].
  now rewrite set_own_set_own.
Qed.

(** Loading into the joystick: the options go into the bucket of the
    instance. *)
Lemma store_options_joystick (cd : option ControlsData) (inst : string)
      (opts : list ControlOption) :
  forall us J b0,
    get_own us "joystick" = VObj J ->
    get_own J (instance_key inst) = VObj b0 ->
    store_options cd "joystick" inst us opts
    = Some (match opts with
            | [] => us
            | _ => set_own us "joystick"
                     (VObj (set_own J (instance_key inst)
                              (VObj (fold_left (load_step cd "joystick") opts b0))))
            end).
Proof.
  induction opts as [|opt opts IH]; intros us J b0 HJ Hb; [reflexivity|].
  cbn [store_options]. unfold store_option.
  cbn [String.eqb Ascii.eqb Bool.eqb].
  rewrite HJ. unfold ensure_object. cbn [nullish prop]. rewrite Hb.
  cbn [truthy write bind prop]. rewrite Hb. cbn [write bind].
  rewrite (IH _ (set_own J (instance_key inst)
                   (VObj (set_own b0 (fullPath_of cd "joystick" (co_name opt))
                                  (VObj (settings_of_option opt)))))
              (set_own b0 (fullPath_of cd "joystick" (co_name opt))
                       (VObj (settings_of_option opt))));
    [|apply get_own_set_own_eq|apply get_own_set_own_eq].
  destruct opts as [|opt' opts]; [reflexivity|].
  now rewrite !set_own_set_own.
Qed.

Lemma fold_load_step_other (cd : option ControlsData) (deviceType : string)
      (opts : list ControlOption) :
  forall b0 k,
    ~ In k (map (key_of cd deviceType) opts) ->
    get_own (fold_left (load_step cd deviceType) opts b0) k = get_own b0 k.
Proof.
  induction opts as [|o opts IH]; intros b0 k Hk; [reflexivity|].
  cbn [fold_left]. rewrite IH.
  - unfold load_step. apply get_own_set_own_neq.
    intros E. apply Hk. now left.
  - intros Hin. apply Hk. now right.
Qed.

(** With distinct keys, every loaded option is found under its key. *)
Lemma fold_load_step_get (cd : option ControlsData) (deviceType : string)
      (opts : list ControlOption) :
  NoDup (map (key_of cd deviceType) opts) ->
  forall b0 opt,
    In opt opts ->
    get_own (fold_left (load_step cd deviceType) opts b0) (key_of cd deviceType opt)
    = VObj (settings_of_option opt).
Proof.
  induction opts as [|o opts IH]; intros Hnd b0 opt Hin; [destruct Hin|].
  cbn [map] in Hnd. inversion Hnd as [|? ? Hno Hnd']; subst.
  cbn [fold_left]. destruct Hin as [->|Hin].
  - rewrite fold_load_step_other by exact Hno.
    unfold load_step. apply get_own_set_own_eq.
  - now apply IH.
Qed.

Lemma curve_points_roundtrip (c : StoredCurve) :
  map point_value (curve_points_of (value_of_curve c))
  = map value_of_point (sc_points c).
Proof.
  unfold curve_points_of, value_of_curve. cbn [prop get_own String.eqb Ascii.eqb Bool.eqb].
  rewrite !map_map. apply map_ext. intros [x y]. reflexivity.
Qed.

Lemma curve_points_of_length (c : StoredCurve) :
  List.length (curve_points_of (value_of_curve c)) = List.length (sc_points c).
Proof.
  unfold curve_points_of, value_of_curve. cbn [prop get_own String.eqb Ascii.eqb Bool.eqb].
  now rewrite !length_map.
Qed.

(** What a record exports: a curve with a point and the neutral exponent,
    or no curve and an exponent other than [1], or neither. *)
Lemma exported_cases (r : SettingsRecord) :
  (exists rs p0 ps, exported_curve r = Some (mkStoredCurve rs (p0 :: ps))
                    /\ exported_exponent r = Some (Fin 1))
  \/ (exported_curve r = None /\ exported_exponent r = None)
  \/ (exported_curve r = None
      /\ exists x, exported_exponent r = Some x /\ jsnum_eqb x (Fin 1) = false).
Proof.
  destruct r as [i m ex c].
  unfold exported_exponent, exported_curve, mode_in_force.
  cbn [sr_invert sr_curveMode sr_exponent sr_curve opt_or].
  destruct m as [[|]|], ex as [x|], c as [[rs [|p0 ps]]|];
    cbn [sc_points];
    try (destruct (jsnum_eqb x (Fin 1)) eqn:Ex);
    first [ now (right; left)
          | right; right; split; [reflexivity|]; now exists x
          | left; now exists rs, p0, ps ].
Qed.

(** The record rebuilt from the entry of a record: it has the same
    [invert], and it exports the same entry again. *)
Lemma reloaded_record (path path' : string) (r : SettingsRecord) (e : FlatEntry) :
  exported_entry path r = Some e ->
  get_own (settings_of_option (option_of_entry e)) "invert"
  = value_of_opt VBool (sr_invert r)
  /\ exists e',
      entry_of path' (VObj (settings_of_option (option_of_entry e))) = Some (Some e')
      /\ fe_invert e = fe_invert e'
      /\ fe_exponent e = fe_exponent e'
      /\ prop (fe_curve e) "points" = prop (fe_curve e') "points".
Proof.
  unfold exported_entry.
  assert (Hcurve : forall (inv : option bool) (rs : bool) (p0 : Point) (ps : list Point),
             let e0 := {| fe_name := last_segment path;
                          fe_invert := value_of_opt VBool inv;
                          fe_exponent := VNum (Fin 1);
                          fe_curve := value_of_curve (mkStoredCurve rs (p0 :: ps)) |} in
             get_own (settings_of_option (option_of_entry e0)) "invert"
             = value_of_opt VBool inv
             /\ exists e',
                 entry_of path' (VObj (settings_of_option (option_of_entry e0)))
                 = Some (Some e')
                 /\ fe_invert e0 = fe_invert e'
                 /\ fe_exponent e0 = fe_exponent e'
                 /\ prop (fe_curve e0) "points" = prop (fe_curve e') "points").
  { intros inv rs p0 ps e0.
    pose proof (curve_points_roundtrip (mkStoredCurve rs (p0 :: ps))) as Hpts.
    cbn [sc_points] in Hpts.
    assert (Hhas : has_curve_points (option_of_entry e0) = true) by reflexivity.
    unfold settings_of_option. rewrite Hhas.
    cbn [option_of_entry co_attributes co_curve_points opt_or e0 fe_invert
         fe_exponent fe_curve fe_name].
    rewrite Hpts.
    destruct inv as [b|];
      [destruct b|];
      (split; [reflexivity|]);
      eexists; (split; [unfold entry_of, hasInvert, hasExponent, hasCurve,
                          curveMode_of; cbn -[gt_zero last_segment List.length];
                        rewrite gt_zero_length_cons; reflexivity|]);
      repeat split; reflexivity. }
  destruct (exported_cases r) as [(rs & p0 & ps & Hc & Hx)|[[Hc Hx]|(Hc & x & Hx & Ex)]];
    rewrite Hc, Hx.
  - destruct (sr_invert r) as [b|]; intros He; injection He as <-.
    + apply (Hcurve (Some b)).
    + apply (Hcurve None).
  - destruct (sr_invert r) as [[|]|]; intros He; try discriminate He;
      injection He as <-;
      (split; [reflexivity|]);
      eexists;
      (split; [unfold entry_of, hasInvert, hasExponent, hasCurve, curveMode_of,
                 settings_of_option;
               cbn -[jsnum_eqb last_segment]; reflexivity|]);
      repeat split; reflexivity.
  - destruct (sr_invert r) as [[|]|]; intros He; injection He as <-;
      (split; [reflexivity|]);
      eexists;
      (split; [unfold entry_of, hasInvert, hasExponent, hasCurve, curveMode_of,
                 settings_of_option;
               cbn -[jsnum_eqb last_segment]; rewrite ?Ex; reflexivity|]);
      repeat split; reflexivity.
Qed.

Lemma exported_entry_name (p : string) (r : SettingsRecord) (e : FlatEntry) :
  exported_entry p r = Some e -> fe_name e = last_segment p.
Proof.
  unfold exported_entry.
  destruct (sr_invert r), (exported_exponent r), (exported_curve r);
    intros H; try discriminate H; now injection H as <-.
Qed.

Lemma exported_entry_of_invert (p : string) (r : SettingsRecord) (b : bool) :
  sr_invert r = Some b -> exists e, exported_entry p r = Some e.
Proof.
  unfold exported_entry. intros ->.
  destruct (exported_exponent r), (exported_curve r); now eexists.
Qed.

Lemma in_exported_list (B : Bucket) (e : FlatEntry) :
  In e (exported_list B) <->
  exists p r, In (p, r) B /\ exported_entry p r = Some e.
Proof.
  unfold exported_list. rewrite in_flat_map. split.
  - intros [[p r] [Hin He]]. cbn [fst snd] in He.
    destruct (exported_entry p r) as [e0|] eqn:E; [|destruct He].
    destruct He as [<-|[]]. now exists p, r.
  - intros (p & r & Hin & He). exists (p, r). split; [exact Hin|].
    cbn [fst snd]. rewrite He. now left.
Qed.

Lemma last_segment_idem (p : string) :
  last_segment (last_segment p) = last_segment p.
Proof.
  pose proof (last_segment_in p) as Hin.
  pose proof (split_dot_dot_free p) as Hdf.
  rewrite Forall_forall in Hdf. specialize (Hdf _ Hin).
  unfold last_segment at 1. now rewrite split_dot_dot_free_string.
Qed.

Lemma get_own_value_of_bucket (B : Bucket) (p : string) (r : SettingsRecord) :
  NoDup (map fst B) -> In (p, r) B ->
  get_own (value_of_bucket B) p = value_of_record r.
Proof.
  induction B as [|[p0 r0] B IH]; intros Hnd Hin; [destruct Hin|].
  cbn [map fst] in Hnd. inversion Hnd as [|? ? Hno Hnd']; subst.
  cbn [value_of_bucket map fst snd get_own].
  destruct Hin as [E|Hin].
  - injection E as -> ->. now rewrite String.eqb_refl.
  - destruct (String.eqb_spec p0 p) as [->|_].
    + exfalso. apply Hno. now apply (in_map fst) in Hin.
    + now apply IH.
Qed.

Lemma get_own_value_of_bucket_cases (B : Bucket) (k : string) :
  get_own (value_of_bucket B) k = VUndefined
  \/ exists r, In (k, r) B /\ get_own (value_of_bucket B) k = value_of_record r.
Proof.
  induction B as [|[p0 r0] B IH]; [now left|].
  cbn [value_of_bucket map fst snd get_own].
  destruct (String.eqb_spec p0 k) as [->|_].
  - right. exists r0. split; [now left|reflexivity].
  - destruct IH as [E|(r & Hin & E)]; [now left|right].
    exists r. split; [now right|exact E].
Qed.

Lemma invert_of_record (r : SettingsRecord) :
  prop (value_of_record r) "invert" = value_of_opt VBool (sr_invert r).
Proof.
  destruct r as [[b|] [m|] [x|] [c|]]; reflexivity.
Qed.

Lemma truthy_value_of_record (r : SettingsRecord) :
  truthy (value_of_record r) = true.
Proof. reflexivity. Qed.

Lemma is_undefined_value_of_opt (i : option bool) :
  is_undefined (value_of_opt VBool i) = negb (is_some i).
Proof. now destruct i. Qed.

Lemma instance_key_roundtrip (i : Z) :
  (1 <= i <= 8)%Z -> instance_key (string_of_Z i) = string_of_Z i.
Proof.
  intros H.
  assert (E : (i = 1 \/ i = 2 \/ i = 3 \/ i = 4 \/ i = 5 \/ i = 6 \/ i = 7 \/ i = 8)%Z)
    by lia.
  repeat (destruct E as [-> | E]; [reflexivity|]). now subst.
Qed.

Section RoundTrip.

Variable cd : option ControlsData.
Variable deviceType : string.
Variable B : Bucket.
Hypothesis paths_distinct : NoDup (map fst B).
Hypothesis names_distinct : distinct_names B.
Hypothesis names_resolved : names_resolve cd deviceType B.

Lemma key_of_entry_cases (p : string) (r : SettingsRecord) (e : FlatEntry) :
  In (p, r) B -> exported_entry p r = Some e ->
  key_of cd deviceType (option_of_entry e) = p
  \/ key_of cd deviceType (option_of_entry e) = last_segment p.
Proof.
  intros Hin He. unfold key_of. cbn [option_of_entry co_name].
  rewrite (exported_entry_name _ _ He). eapply names_resolved; [exact Hin|exact He].
Qed.

(** A key that is the path of a record with an entry is the key of that
    record, and so is a key that is its final segment. *)
Lemma key_meets (p p2 : string) (r r2 : SettingsRecord) (e e2 : FlatEntry) :
  In (p, r) B -> exported_entry p r = Some e ->
  In (p2, r2) B -> exported_entry p2 r2 = Some e2 ->
  key_of cd deviceType (option_of_entry e2) = p
  \/ key_of cd deviceType (option_of_entry e2) = last_segment p ->
  p2 = p.
Proof.
  intros Hin He Hin2 He2 Hk.
  eapply names_distinct; [exact Hin2|exact Hin|exact He2|exact He|].
  destruct (@key_of_entry_cases p2 r2 e2 Hin2 He2) as [E|E]; rewrite E in Hk;
    destruct Hk as [Hk|Hk].
  - now rewrite Hk.
  - now rewrite Hk, last_segment_idem.
  - now rewrite <- Hk, last_segment_idem.
  - exact Hk.
Qed.

Lemma same_path_same_entry (p : string) (r r2 : SettingsRecord) (e e2 : FlatEntry) :
  In (p, r) B -> exported_entry p r = Some e ->
  In (p, r2) B -> exported_entry p r2 = Some e2 -> e2 = e.
Proof.
  intros Hin He Hin2 He2.
  assert (Er : value_of_record r = value_of_record r2).
  { now rewrite <- (@get_own_value_of_bucket B p r paths_distinct Hin),
               <- (@get_own_value_of_bucket B p r2 paths_distinct Hin2). }
  assert (E : Some (Some e2) = Some (Some e)).
  { rewrite <- He, <- He2, <- !entry_of_record. now rewrite Er. }
  now injection E.
Qed.

Lemma keys_nodup (B' : Bucket) :
  (forall pr, In pr B' -> In pr B) -> NoDup (map fst B') ->
  NoDup (map (key_of cd deviceType) (options_of B')).
Proof.
  unfold options_of.
  induction B' as [|[p r] B' IH]; intros Hsub Hnd; [constructor|].
  cbn [map fst] in Hnd. inversion Hnd as [|? ? Hno Hnd']; subst.
  assert (IH' : NoDup (map (key_of cd deviceType)
                           (map option_of_entry (exported_list B')))).
  { apply IH; [|exact Hnd']. intros pr Hpr. apply Hsub. now right. }
  cbn [exported_list flat_map fst snd].
  fold (exported_list B').
  destruct (exported_entry p r) as [e|] eqn:He; [|exact IH'].
  cbn [app map]. constructor; [|exact IH'].
  intros Hin. rewrite map_map in Hin.
  apply in_map_iff in Hin as (e2 & Ek & Hin2).
  apply in_exported_list in Hin2 as (p2 & r2 & Hin2 & He2).
  assert (Hp : p2 = p).
  { apply (@key_meets p p2 r r2 e e2).
    - apply Hsub. now left.
    - exact He.
    - apply Hsub. now right.
    - exact He2.
    - rewrite Ek. apply (@key_of_entry_cases p r e); [|exact He].
      apply Hsub. now left. }
  subst p2. apply Hno. now apply (in_map fst) in Hin2.
Qed.

Variable B' : Bucket.
Hypothesis same_records : forall pr, In pr B' <-> In pr B.
Hypothesis paths_distinct' : NoDup (map fst B').

(** The reloaded bucket holds the rebuilt record of every record with an
    entry under its key, and nothing under its path or its final segment
    when these are not the key. *)
Lemma reloaded_bucket_get (p : string) (r : SettingsRecord) (e : FlatEntry) :
  In (p, r) B -> exported_entry p r = Some e ->
  get_own (reloaded_bucket cd deviceType B')
          (key_of cd deviceType (option_of_entry e))
  = VObj (settings_of_option (option_of_entry e)).
Proof.
  intros Hin He. unfold reloaded_bucket.
  apply fold_load_step_get.
  - apply keys_nodup; [|exact paths_distinct'].
    intros pr. apply same_records.
  - unfold options_of. apply in_map. apply in_exported_list.
    exists p, r. split; [now apply same_records|exact He].
Qed.

Lemma reloaded_bucket_miss (p k : string) (r : SettingsRecord) (e : FlatEntry) :
  In (p, r) B -> exported_entry p r = Some e ->
  k = p \/ k = last_segment p ->
  k <> key_of cd deviceType (option_of_entry e) ->
  get_own (reloaded_bucket cd deviceType B') k = VUndefined.
Proof.
  intros Hin He Hk Hne. unfold reloaded_bucket.
  rewrite fold_load_step_other; [reflexivity|].
  intros Hkey. unfold options_of in Hkey. rewrite map_map in Hkey.
  apply in_map_iff in Hkey as (e2 & Ek & Hin2).
  apply in_exported_list in Hin2 as (p2 & r2 & Hin2 & He2).
  apply same_records in Hin2.
  assert (Hp : p2 = p).
  { apply (@key_meets p p2 r r2 e e2); [exact Hin|exact He|exact Hin2|exact He2|].
    rewrite Ek. exact Hk. }
  subst p2. rewrite (@same_path_same_entry p r r2 e e2 Hin He Hin2 He2) in Ek.
  congruence.
Qed.

(** After the reload a path with an entry resolves to its rebuilt
    record. *)
Lemma reloaded_record_at (p : string) (r : SettingsRecord) (e : FlatEntry) :
  In (p, r) B -> exported_entry p r = Some e ->
  record_at (VObj (reloaded_bucket cd deviceType B')) p
  = VObj (settings_of_option (option_of_entry e)).
Proof.
  intros Hin He. unfold record_at. cbn [prop].
  pose proof (@reloaded_bucket_get p r e Hin He) as Hget.
  destruct (@key_of_entry_cases p r e Hin He) as [E|E].
  - rewrite E in Hget. now rewrite Hget.
  - destruct (string_dec p (last_segment p)) as [Ep|Nep].
    + rewrite E, <- Ep in Hget. now rewrite Hget.
    + rewrite (@reloaded_bucket_miss p p r e Hin He); [|now left|congruence].
      cbn [truthy]. now rewrite <- E.
Qed.

Lemma reloaded_invert (p : string) (r : SettingsRecord) (e : FlatEntry) :
  In (p, r) B -> exported_entry p r = Some e ->
  lookup_setting (VObj (reloaded_bucket cd deviceType B')) p "invert" VUndefined
  = value_of_opt VBool (sr_invert r).
Proof.
  intros Hin He.
  destruct (@reloaded_record (* the rebuilt record *) p p r e He) as [Hinv _].
  pose proof (@reloaded_bucket_get p r e Hin He) as Hget.
  unfold lookup_setting, own_setting. cbn [prop].
  destruct (@key_of_entry_cases p r e Hin He) as [E|E]; rewrite E in Hget.
  - rewrite Hget. cbn [truthy prop andb]. rewrite Hinv.
    destruct (sr_invert r) as [b|] eqn:Ei; [reflexivity|].
    cbn [value_of_opt is_undefined negb].
    destruct (String.eqb_spec (last_segment p) p) as [_|Nep]; [reflexivity|].
    cbn [negb].
    rewrite (@reloaded_bucket_miss p (last_segment p) r e Hin He);
      [reflexivity|now right|congruence].
  - destruct (String.eqb_spec (last_segment p) p) as [Ep|Nep].
    + rewrite Ep in Hget. rewrite Hget. cbn [truthy prop andb negb]. rewrite Hinv.
      now destruct (sr_invert r).
    + rewrite (@reloaded_bucket_miss p p r e Hin He); [|now left|congruence].
      cbn [truthy andb negb]. rewrite Hget. cbn [truthy prop andb]. rewrite Hinv.
      now destruct (sr_invert r).
Qed.

(** Before the round trip the path resolves to the [invert] of its own
    record. *)
Lemma stored_invert (p : string) (r : SettingsRecord) (e : FlatEntry) :
  In (p, r) B -> exported_entry p r = Some e ->
  lookup_setting (VObj (value_of_bucket B)) p "invert" VUndefined
  = value_of_opt VBool (sr_invert r).
Proof.
  intros Hin He. unfold lookup_setting, own_setting. cbn [prop].
  rewrite (@get_own_value_of_bucket B p r paths_distinct Hin).
  rewrite truthy_value_of_record, invert_of_record. cbn [andb].
  destruct (sr_invert r) as [b|] eqn:Ei; [reflexivity|].
  cbn [value_of_opt is_undefined negb].
  destruct (String.eqb_spec (last_segment p) p) as [_|Nep]; [reflexivity|].
  cbn [negb].
  destruct (get_own_value_of_bucket_cases B (last_segment p))
    as [E|(r2 & Hin2 & E)]; rewrite E; [reflexivity|].
  rewrite truthy_value_of_record, invert_of_record. cbn [andb].
  destruct (sr_invert r2) as [b2|] eqn:Ei2; [|reflexivity].
  exfalso. apply Nep.
  destruct (exported_entry_of_invert (last_segment p) r2 Ei2) as [e2 He2].
  eapply names_distinct; [exact Hin2|exact Hin|exact He2|exact He|].
  apply last_segment_idem.
Qed.

End RoundTrip.

Lemma store_options_joystick_fresh (cd : option ControlsData) (inst : string)
      (opt : ControlOption) (opts : list ControlOption) :
  store_options cd "joystick" inst empty_userSettings (opt :: opts)
  = Some [("keyboard", VObj []); ("gamepad", VObj []);
          ("joystick",
           VObj [(instance_key inst,
                  VObj (fold_left (load_step cd "joystick") (opt :: opts) []))])].
Proof.
  cbn [store_options]. unfold store_option at 1.
  cbn [String.eqb Ascii.eqb Bool.eqb].
  change (get_own empty_userSettings "joystick") with (VObj []).
  unfold ensure_object. cbn [nullish prop get_own truthy write set_own bind].
  rewrite String.eqb_refl. cbn [write set_own bind]. rewrite ?String.eqb_refl.
  cbn [empty_userSettings set_own String.eqb Ascii.eqb Bool.eqb].
  rewrite (@store_options_joystick cd inst opts _
             [(instance_key inst,
               VObj [(fullPath_of cd "joystick" (co_name opt),
                      VObj (settings_of_option opt))])]
             [(fullPath_of cd "joystick" (co_name opt),
               VObj (settings_of_option opt))]);
    [|reflexivity|cbn [get_own]; now rewrite String.eqb_refl].
  destruct opts as [|opt' opts]; [reflexivity|].
  cbn [set_own String.eqb Ascii.eqb Bool.eqb]. now rewrite String.eqb_refl.
Qed.

(** The store after the round trip of a bucket, and the bucket the store
    operations then read for that class and instance. *)
Lemma load_round_trip (st : State) (deviceType : string) (i : Z) (B' : Bucket) :
  deviceType = "keyboard" \/ (deviceType = "joystick" /\ (1 <= i <= 8)%Z) ->
  exists st',
    loadControlSettings st
      (Some (device_options_of deviceType i
               (match exported_list B' with
                | [] => None
                | l => Some l
                end)))
    = Some st'
    /\ current_settings (select_device deviceType i st')
       = Some (VObj (reloaded_bucket (controlsData st) deviceType B')).
Proof.
  intros Hdt. unfold loadControlSettings, reloaded_bucket, options_of.
  destruct (exported_list B') as [|e l].
  - cbn [device_options_of load_devices bind map fold_left].
    eexists. split; [reflexivity|].
    destruct Hdt as [-> | [-> _]]; reflexivity.
  - cbn [device_options_of load_devices device_type instance control_options
         opt_or].
    destruct Hdt as [-> | [-> Hi]].
    + rewrite (@store_options_flat _ "keyboard" _ _ ltac:(discriminate)
                 empty_userSettings [] eq_refl).
      cbn [map bind]. eexists. split; [reflexivity|]. reflexivity.
    + cbn [map]. rewrite store_options_joystick_fresh. cbn [bind].
      eexists. split; [reflexivity|].
      unfold current_settings.
      cbn [select_device with_userSettings currentDeviceType userSettings
           currentJoystickInstance String.eqb Ascii.eqb Bool.eqb get_own nullish].
      rewrite instance_key_roundtrip by exact Hi.
      cbn [prop get_own]. now rewrite String.eqb_refl.
Qed.

Lemma entry_of_name (path : string) (v : Value) (e : FlatEntry) :
  entry_of path v = Some (Some e) -> fe_name e = last_segment path.
Proof.
  unfold entry_of. destruct (nullish v); [discriminate|].
  destruct (_ && _); [discriminate|]. intros H. now injection H as <-.
Qed.




(* ================================================================== *)
(** * The gamepad: where the writes go and what the export reads *)
(* ================================================================== *)

(** A successful write into a bucket: the bucket is an object, and the
    record at the path is the old one, or a fresh one, with the setting
    put in. *)
Lemma store_in_bucket_inv (bucket : Value) (p s : string) (v b' : Value) :
  store_in_bucket bucket p s v = Some b' ->
  exists o r,
    bucket = VObj o
    /\ (get_own o p = VObj r \/ (truthy (get_own o p) = false /\ r = []))
    /\ b' = VObj (set_own o p (VObj (set_own r s v))).
Proof.
  unfold store_in_bucket, ensure_object. intros H.
  destruct bucket as [| |b|n|str|l|o]; cbn [nullish] in H; try discriminate H.
  1-2: destruct (truthy (prop _ p)); cbn [bind write] in H; try discriminate H;
       destruct (write _ s v); cbn [bind write] in H; discriminate H.
  cbn [prop] in H. destruct (truthy (get_own o p)) eqn:Et.
  - cbn [bind prop] in H.
    destruct (get_own o p) as [| |b|n|str|l|r] eqn:Eg;
      cbn [write bind] in H; try discriminate H.
    injection H as <-. exists o, r. split; [reflexivity|]. split; [now left|].
    reflexivity.
  - cbn [write bind prop] in H. rewrite get_own_set_own_eq in H.
    cbn [write bind] in H. injection H as <-. rewrite set_own_set_own.
    exists o, []. split; [reflexivity|]. split; [now right|]. reflexivity.
Qed.

Lemma store_in_instance_inv (class : Value) (k p s : string) (v c' : Value) :
  store_in_instance class k p s v = Some c' ->
  exists co B',
    class = VObj co
    /\ store_in_bucket (or_empty (get_own co k)) p s v = Some B'
    /\ c' = VObj (set_own co k B').
Proof.
  unfold store_in_instance, ensure_object. intros H.
  destruct class as [| |b|n|str|l|co]; cbn [nullish] in H; try discriminate H.
  1-2: destruct (truthy (prop _ k)); cbn [bind write] in H; try discriminate H;
       destruct (store_in_bucket _ p s v); cbn [bind write] in H; discriminate H.
  cbn [prop] in H. unfold or_empty. destruct (truthy (get_own co k)) eqn:Et.
  - cbn [bind prop] in H.
    destruct (store_in_bucket (get_own co k) p s v) as [b2|] eqn:Es;
      cbn [bind write] in H; [|discriminate H].
    injection H as <-. exists co, b2. rewrite Et. now repeat split.
  - cbn [write bind prop] in H. rewrite get_own_set_own_eq in H.
    destruct (store_in_bucket (VObj []) p s v) as [b2|] eqn:Es;
      cbn [bind write] in H; [|discriminate H].
    injection H as <-. rewrite set_own_set_own. exists co, b2.
    rewrite Et. now repeat split.
Qed.


Lemma dot_free_string_of_uint (d : Decimal.uint) :
  dot_free (DecimalString.NilEmpty.string_of_uint d) = true.
Proof.
  induction d; cbn [DecimalString.NilEmpty.string_of_uint dot_free]; auto.
Qed.

Lemma dot_free_string_of_Z (z : Z) : dot_free (string_of_Z z) = true.
Proof.
  unfold string_of_Z.
  assert (H : forall d, dot_free (DecimalString.NilZero.string_of_uint d) = true).
  { intros d. unfold DecimalString.NilZero.string_of_uint.
    destruct d; try reflexivity;
      exact (dot_free_string_of_uint (_ d)). }
  destruct (Z.to_int z) as [d|d]; cbn [DecimalString.NilZero.string_of_int].
  - apply H.
  - cbn [dot_free]. now rewrite H.
Qed.

(** The key of an instance has one segment. *)
Lemma last_segment_string_of_Z (z : Z) :
  last_segment (string_of_Z z) = string_of_Z z.
Proof.
  unfold last_segment.
  now rewrite (split_dot_dot_free_string _ (dot_free_string_of_Z z)).
Qed.

(** A write adds at most the key of the selected gamepad instance to the
    gamepad object. *)
Lemma setUserSetting_gamepad_keys (st st' : State) (p s : string) (v : Value)
      (g : obj) :
  get_own (userSettings st) "gamepad" = VObj g ->
  setUserSetting st p s v = Some st' ->
  exists g',
    get_own (userSettings st') "gamepad" = VObj g'
    /\ forall k x, In (k, x) g' ->
         (exists x0, In (k, x0) g)
         \/ (currentDeviceType st = "gamepad"
             /\ k = string_of_Z (currentGamepadInstance st)).
Proof.
  intros Hg. unfold setUserSetting.
  destruct (String.eqb_spec (currentDeviceType st) "joystick") as [Ej|Ej].
  - destruct (store_in_instance _ _ _ _ _) as [j|]; [|discriminate].
    cbn [bind]. intros H. injection H as <-. cbn [userSettings].
    rewrite get_own_set_own_neq by discriminate. exists g.
    split; [exact Hg|]. intros k x Hin. left. now exists x.
  - destruct (String.eqb_spec (currentDeviceType st) "gamepad") as [Eg|Eg].
    + rewrite Hg.
      destruct (store_in_instance _ _ _ _ _) as [c'|] eqn:Es; [|discriminate].
      cbn [bind]. intros H. injection H as <-. cbn [userSettings].
      rewrite get_own_set_own_eq.
      apply store_in_instance_inv in Es as (co & B' & Eco & _ & ->).
      injection Eco as <-. eexists. split; [reflexivity|].
      intros k x Hin. apply In_set_own in Hin as [[-> _]|Hin].
      * right. now split.
      * left. now exists x.
    + destruct (store_in_bucket _ _ _ _) as [b|]; [|discriminate].
      cbn [bind]. intros H. injection H as <-. cbn [userSettings].
      rewrite get_own_set_own_neq by exact Eg. exists g.
      split; [exact Hg|]. intros k x Hin. left. now exists x.
Qed.

(** The keys of the gamepad object are the instances written to. *)
Lemma run_actions_gamepad_keys (acts : list SetAction) :
  forall st st' g,
    get_own (userSettings st) "gamepad" = VObj g ->
    run_actions st acts = Some st' ->
    exists g',
      get_own (userSettings st') "gamepad" = VObj g'
      /\ forall k x, In (k, x) g' ->
           (exists x0, In (k, x0) g)
           \/ exists a, In a acts /\ act_device a = "gamepad"
                        /\ k = string_of_Z (act_instance a).
Proof.
  induction acts as [|a acts IH]; intros st st' g Hg.
  - cbn. intros H. injection H as <-. exists g. split; [exact Hg|].
    intros k x Hin. left. now exists x.
  - cbn [run_actions].
    destruct (setUserSetting _ _ _ _) as [st1|] eqn:Es; [|discriminate].
    cbn [bind]. intros Hrun.
    edestruct setUserSetting_gamepad_keys as (g1 & Hg1 & Hk1); [|exact Es|];
      [exact Hg|].
    destruct (IH st1 st' g1 Hg1 Hrun) as (g' & Hg' & Hk').
    exists g'. split; [exact Hg'|]. intros k x Hin.
    destruct (Hk' k x Hin) as [[x0 H0]|(a0 & Ha0 & Hd0 & Hk0)].
    + destruct (Hk1 k x0 H0) as [H1|[Hd Hk]]; [now left|].
      right. exists a. split; [now left|].
      cbn [select_device currentDeviceType currentGamepadInstance] in Hd, Hk.
      split; [exact Hd|]. rewrite Hd in Hk. exact Hk.
    + right. exists a0. split; [now right|]. now split.
Qed.

(** An instance bucket with no record at a path named [invert] or
    [exponent] gives no entry. *)
Lemma entry_of_bucket_none (k : string) (b : obj) :
  all_objects b ->
  get_own b "invert" = VUndefined -> get_own b "exponent" = VUndefined ->
  entry_of k (VObj b) = Some None.
Proof.
  intros Hb Hi He.
  unfold entry_of, hasInvert, hasExponent, hasCurve, curveMode_of.
  cbn [nullish prop]. rewrite Hi, He.
  destruct (get_own_undefined_or_object "curveMode" Hb) as [-> | [om ->]];
    reflexivity.
Qed.

(** An instance bucket with a record at the path [invert] gives an entry
    named by the instance, whose [invert] is that record. *)
Lemma entry_of_bucket_invert (k : string) (b r : obj) :
  get_own b "invert" = VObj r ->
  exists e,
    entry_of k (VObj b) = Some (Some e)
    /\ fe_name e = last_segment k /\ fe_invert e = VObj r.
Proof.
  intros Hi. unfold entry_of, hasInvert. cbn [nullish prop]. rewrite Hi.
  cbn [is_undefined negb andb]. eexists. split; [reflexivity|]. now split.
Qed.

Lemma collect_entries_In (l : list (string * Value)) :
  forall r k x e,
    collect_entries l = Some r -> In (k, x) l -> entry_of k x = Some (Some e) ->
    In e r.
Proof.
  induction l as [|[k0 x0] l IH]; intros r k x e Hc Hin He; [contradiction|].
  cbn [collect_entries] in Hc.
  destruct (entry_of k0 x0) as [e0|] eqn:E0; cbn [bind] in Hc; [|discriminate].
  destruct (collect_entries l) as [rest|] eqn:El; cbn [bind] in Hc; [|discriminate].
  injection Hc as <-. destruct Hin as [Hin|Hin].
  - injection Hin as -> ->. rewrite He in E0. injection E0 as <-. now left.
  - assert (Hr : In e rest) by (eapply IH; [reflexivity|exact Hin|exact He]).
    destruct e0; [now right|exact Hr].
Qed.

Lemma collect_entries_none (l : list (string * Value)) :
  (forall k x, In (k, x) l -> entry_of k x = Some None) ->
  collect_entries l = Some [].
Proof.
  induction l as [|[k x] l IH]; intros H; [reflexivity|].
  cbn [collect_entries]. rewrite (H k x (or_introl eq_refl)). cbn [bind].
  rewrite IH; [reflexivity|]. intros k' x' Hin. apply H. now right.
Qed.

Lemma setUserSetting_no_field_paths (st st' : State) (p s : string) (v : Value) :
  no_field_paths (get_own (userSettings st) "gamepad") ->
  (currentDeviceType st = "gamepad" -> p <> "invert" /\ p <> "exponent") ->
  setUserSetting st p s v = Some st' ->
  no_field_paths (get_own (userSettings st') "gamepad").
Proof.
  intros Hg Hp. unfold setUserSetting.
  destruct (String.eqb_spec (currentDeviceType st) "joystick") as [Ej|Ej].
  - destruct (store_in_instance _ _ _ _ _) as [j|]; [|discriminate].
    cbn [bind]. intros H. injection H as <-. cbn [userSettings].
    now rewrite get_own_set_own_neq by discriminate.
  - destruct (String.eqb_spec (currentDeviceType st) "gamepad") as [Eg|Eg].
    + destruct (Hp Eg) as [Hpi Hpe]. destruct Hg as (g & Eg' & Hg). rewrite Eg'.
      destruct (store_in_instance _ _ _ _ _) as [c'|] eqn:Es; [|discriminate].
      cbn [bind]. intros H. injection H as <-. cbn [userSettings].
      rewrite get_own_set_own_eq.
      apply store_in_instance_inv in Es as (co & B' & Eco & Hs & ->).
      injection Eco as <-.
      set (k := string_of_Z (currentGamepadInstance st)) in *.
      assert (Hb0 : exists b0, or_empty (get_own g k) = VObj b0 /\ all_objects b0
                               /\ get_own b0 "invert" = VUndefined
                               /\ get_own b0 "exponent" = VUndefined).
      { destruct (get_own_In g k) as [E|E].
        - rewrite E. exists []. cbn. repeat split. intros ? ? [].
        - destruct (Hg _ _ E) as (b & Eb & Hb). rewrite Eb. now exists b. }
      destruct Hb0 as (b0 & Eb0 & Hall & Hi & He). rewrite Eb0 in Hs.
      destruct (@store_in_bucket_all_objects _ _ _ _ _ Hall Hs) as (o' & Eo' & Ho').
      apply store_in_bucket_inv in Hs as (o & r & Eo & _ & EB').
      injection Eo as <-. subst B'. injection Eo' as <-.
      eexists. split; [reflexivity|]. intros k0 x Hin.
      apply In_set_own in Hin as [[_ ->]|Hin]; [|exact (Hg _ _ Hin)].
      eexists. split; [reflexivity|]. split; [exact Ho'|].
      rewrite !get_own_set_own_neq by assumption. now split.
    + destruct (store_in_bucket _ _ _ _) as [b|]; [|discriminate].
      cbn [bind]. intros H. injection H as <-. cbn [userSettings].
      now rewrite get_own_set_own_neq by exact Eg.
Qed.

Lemma run_actions_no_field_paths (acts : list SetAction) :
  forall st st',
    no_field_paths (get_own (userSettings st) "gamepad") ->
    (forall a, In a acts -> act_device a = "gamepad" ->
               act_path a <> "invert" /\ act_path a <> "exponent") ->
    run_actions st acts = Some st' ->
    no_field_paths (get_own (userSettings st') "gamepad").
Proof.
  induction acts as [|a acts IH]; intros st st' Hg Hp.
  - cbn. intros H. now injection H as <-.
  - cbn [run_actions].
    destruct (setUserSetting _ _ _ _) as [st1|] eqn:Es; [|discriminate].
    cbn [bind]. apply IH.
    + eapply setUserSetting_no_field_paths; [| |exact Es]; [exact Hg|].
      cbn [select_device currentDeviceType]. intros Hd.
      apply (Hp a); [now left|exact Hd].
    + intros a0 Ha0. apply Hp. now right.
Qed.

Lemma generate_gamepad_none (us : obj) (i : Z) :
  no_field_paths (get_own us "gamepad") ->
  generateControlOptionsXml us "gamepad" i = Some None.
Proof.
  intros (g & Eg & Hg). unfold generateControlOptionsXml, export_settings.
  cbn [String.eqb Ascii.eqb Bool.eqb]. rewrite Eg. cbn [or_empty truthy bind].
  destruct (own_entries (VObj g)) as [|kv l0] eqn:El; [reflexivity|].
  rewrite collect_entries_none; [reflexivity|].
  intros k x Hin. rewrite <- El in Hin. apply In_own_entries in Hin.
  destruct (Hg _ _ Hin) as (b & -> & Hb & Hi & He).
  now apply entry_of_bucket_none.
Qed.

(** A write at the path [invert] of a gamepad instance makes the export
    return an entry named by the instance, with the record in the place of
    the flag. *)
Lemma generate_gamepad_invert_path (st : State) (inst i : Z) (s : string)
      (v : Value) :
  per_instance (get_own (userSettings st) "gamepad") ->
  exists st' l e,
    setUserSetting (select_device "gamepad" inst st) "invert" s v = Some st'
    /\ generateControlOptionsXml (userSettings st') "gamepad" i = Some (Some l)
    /\ In e l
    /\ fe_name e = string_of_Z inst
    /\ is_object (fe_invert e) = true
    /\ prop (fe_invert e) s = v.
Proof.
  intros Hg.
  destruct (@setUserSetting_gamepad_stored st inst "invert" s v Hg) as (st' & Hs & _).
  assert (Hg' : per_instance (get_own (userSettings st') "gamepad")).
  { eapply setUserSetting_gamepad_shape; [|exact Hs]. exact Hg. }
  exists st'. pose proof Hs as Hs0. unfold setUserSetting in Hs.
  cbn [select_device currentDeviceType String.eqb Ascii.eqb Bool.eqb
       currentGamepadInstance userSettings] in Hs.
  destruct (store_in_instance _ _ _ _ _) as [c'|] eqn:Es; [|discriminate].
  cbn [bind] in Hs. injection Hs as <-. cbn [userSettings] in *.
  rewrite get_own_set_own_eq in Hg'.
  apply store_in_instance_inv in Es as (co & B' & Eco & Hb & ->).
  apply store_in_bucket_inv in Hb as (o & r & _ & _ & ->).
  set (k := string_of_Z inst) in *.
  set (rec := VObj (set_own r s v)) in *.
  set (b' := set_own o "invert" rec) in *.
  set (g' := set_own co k (VObj b')) in *.
  destruct (@entry_of_bucket_invert k b' (set_own r s v)) as (e & He & Hn & Hi).
  { unfold b'. apply get_own_set_own_eq. }
  destruct Hg' as (g0 & Eg0 & Hg0). injection Eg0 as <-.
  destruct (@collect_entries_buckets (own_entries (VObj g'))) as (l & El & _).
  { intros k0 x Hin. apply In_own_entries in Hin. exact (Hg0 _ _ Hin). }
  assert (Hin : In (k, VObj b') (own_entries (VObj g'))).
  { apply Permutation_in with (l := g'); [symmetry; apply own_entries_perm|].
    assert (H := get_own_In g' k). unfold g' at 1 2 in H.
    rewrite get_own_set_own_eq in H. destruct H as [H|H]; [discriminate H|exact H]. }
  assert (Hel : In e l) by (eapply collect_entries_In; eassumption).
  exists l, e. split; [exact Hs0|]. split.
  - unfold generateControlOptionsXml, export_settings.
    cbn [String.eqb Ascii.eqb Bool.eqb]. rewrite get_own_set_own_eq.
    cbn [or_empty truthy bind].
    destruct (own_entries (VObj g')) as [|kv l0] eqn:Eo; [contradiction|].
    rewrite El. cbn [bind]. destruct l; [contradiction|reflexivity].
  - split; [exact Hel|]. split.
    + rewrite Hn. apply last_segment_string_of_Z.
    + rewrite Hi. split; [reflexivity|]. cbn [prop]. apply get_own_set_own_eq.
Qed.



(* ================================================================== *)
(** * Further properties of the curve math *)
(* ================================================================== *)

Lemma sorted_last_max (p : Point) (l : list Point) :
  Sorted le_in (p :: l) -> forall q, In q (p :: l) -> le_in q (last (p :: l) p).
Proof.
  revert p. induction l as [|r l IH]; intros p Hs q Hq.
  - destruct Hq as [<-|[]]. unfold le_in. apply Qle_refl.
  - assert (Hs' : Sorted le_in (r :: l)) by now inversion Hs.
    assert (Hpr : le_in p r).
    { inversion Hs as [|? ? _ Hhd]; subst. now inversion Hhd. }
    change (last (p :: r :: l) p) with (last (r :: l) p).
    replace (last (r :: l) p) with (last (r :: l) r)
      by (clear; revert r; induction l as [|x l IHl]; intros r;
          [reflexivity|cbn [last] in *; destruct l; [reflexivity|apply IHl]]).
    destruct Hq as [<-|Hq].
    + eapply le_in_trans; [exact Hpr|]. apply IH; [exact Hs'|now left].
    + now apply IH.
Qed.

Lemma last_in_cons {A : Type} (x : A) (l : list A) : In (last (x :: l) x) (x :: l).
Proof.
  revert x. induction l as [|y l IH]; intros x; [now left|].
  right. change (last (x :: y :: l) x) with (last (y :: l) x).
  replace (last (y :: l) x) with (last (y :: l) y); [apply IH|].
  clear. revert y. induction l as [|z l IHl]; intros y; [reflexivity|].
  cbn [last] in *. destruct l; [reflexivity|apply IHl].
Qed.

Lemma in_determines_point_perm (l l' : list Point) :
  Permutation l l' -> in_determines_point l -> in_determines_point l'.
Proof.
  intros HP Hd p q Hp Hq.
  apply Hd; eapply Permutation_in; try (symmetry; exact HP); assumption.
Qed.

(** The loop stops at the point whose [in] is the input, with that point
    as both bounds. *)
Lemma bracket_at_point (sorted : list Point) (p : Point) :
  Sorted le_in sorted -> in_determines_point sorted -> In p sorted ->
  forall lower upper, bracket sorted (in_ p) lower upper = (p, p).
Proof.
  induction sorted as [|x rest IH]; intros Hs Hd Hin lower upper;
    [destruct Hin|].
  cbn [bracket].
  assert (Hxp : le_in x p) by (apply (sorted_head_min Hs); exact Hin).
  destruct (Qle_bool (in_ p) (in_ x)) eqn:E.
  - apply Qle_bool_iff in E.
    assert (Ex : x = p).
    { apply Hd; [now left|exact Hin|]. now apply Qle_antisym. }
    subst x.
    now rewrite (proj2 (Qle_bool_iff _ _) (Qle_refl (in_ p))).
  - apply IH.
    + now inversion Hs.
    + intros a b Ha Hb. apply Hd; now right.
    + destruct Hin as [->|Hin]; [|exact Hin].
      rewrite (proj2 (Qle_bool_iff _ _) (Qle_refl (in_ p))) in E. discriminate E.
Qed.

(** X1.  The curve passes through its control points: when no two
    different points share their [in], [interpolateCurve] at the [in] of a
    point returns the [out] of that point, for every point whose [in] is
    neither [0] nor [1]. *)
Theorem interpolateCurve_through_points (curvePoints : list Point) (p : Point) :
  in_determines_point curvePoints -> In p curvePoints ->
  ~ (in_ p == 0)%Q -> ~ (in_ p == 1)%Q ->
  exists q, interpolateCurve (in_ p) curvePoints = Fin q /\ (q == out p)%Q.
Proof.
  intros Hd Hin H0 H1. unfold interpolateCurve.
  pose proof (sort_by_in_perm curvePoints) as HP.
  pose proof (sort_by_in_sorted curvePoints) as Hs.
  pose proof (in_determines_point_perm HP Hd) as Hd'.
  pose proof (Permutation_in _ HP Hin) as Hin'.
  destruct (sort_by_in curvePoints) as [|first rest] eqn:E; [destruct Hin'|].
  rewrite (@bracket_at_point _ p Hs Hd' Hin').
  destruct (Qle_bool (in_ p) (in_ first)) eqn:E1.
  - apply Qle_bool_iff in E1.
    assert (Ef : first = p).
    { apply Hd'; [now left|exact Hin'|].
      apply Qle_antisym; [|exact E1]. now apply (sorted_head_min Hs). }
    subst first. cbn [jsdiv jsmul].
    destruct (Qeq_bool (in_ p) 0) eqn:Ez;
      [apply Qeq_bool_iff in Ez; contradiction|].
    eexists. split; [reflexivity|]. field. exact H0.
  - destruct (Qle_bool (in_ (last (first :: rest) first)) (in_ p)) eqn:E2.
    + apply Qle_bool_iff in E2.
      assert (El : last (first :: rest) first = p).
      { apply Hd'; [|exact Hin'|].
        - apply last_in_cons.
        - apply Qle_antisym; [exact E2|]. now apply (sorted_last_max Hs). }
      rewrite El. cbn [jssub jsneg jsadd jsdiv jsmul].
      destruct (Qeq_bool (1 + - in_ p) 0) eqn:Ez.
      { apply Qeq_bool_iff in Ez. exfalso. apply H1.
        rewrite <- (Qplus_0_r (in_ p)), <- Ez. ring. }
      cbn [jsmul jsadd]. eexists. split; [reflexivity|]. field.
      intros Hz. apply H1. rewrite <- (Qplus_0_r (in_ p)), <- Hz. ring.
    + rewrite (proj2 (Qeq_bool_iff _ _) (Qeq_refl (in_ p))).
      eexists. split; [reflexivity|]. reflexivity.
Qed.

Lemma interpolateCurve_through_points_witness :
  exists q,
    interpolateCurve (1 # 2) [mkPoint 0 0; mkPoint (1 # 2) (1 # 4); mkPoint 1 1]
    = Fin q /\ (q == 1 # 4)%Q.
Proof.
  apply (@interpolateCurve_through_points
           [mkPoint 0 0; mkPoint (1 # 2) (1 # 4); mkPoint 1 1]
           (mkPoint (1 # 2) (1 # 4))).
  - intros p q [<-|[<-|[<-|[]]]] [<-|[<-|[<-|[]]]] H; try reflexivity;
      vm_compute in H; discriminate H.
  - simpl. auto.
  - intros H. vm_compute in H. discriminate H.
  - intros H. vm_compute in H. discriminate H.
Defined.

(** X2.  At the upper end the division is not guarded either: when the
    greatest [in] of the curve is [1] and some point lies below [1],
    [interpolateCurve] at input [1] divides [0] by [1 - 1] and returns
    NaN. *)
Theorem interpolateCurve_one_over_one (curvePoints : list Point) (p p' : Point) :
  (forall q, In q curvePoints -> in_ q <= 1)%Q ->
  In p curvePoints -> (in_ p == 1)%Q ->
  In p' curvePoints -> (in_ p' < 1)%Q ->
  interpolateCurve 1 curvePoints = NaN.
Proof.
  intros Hle Hin Hp Hin' Hp'. unfold interpolateCurve.
  pose proof (sort_by_in_perm curvePoints) as HP.
  pose proof (sort_by_in_sorted curvePoints) as Hs.
  destruct (sort_by_in curvePoints) as [|first rest] eqn:E.
  { now apply Permutation_sym, Permutation_nil in HP; subst. }
  destruct (bracket _ _ _ _) as [lower upper].
  assert (Hfirst : (in_ first < 1)%Q).
  { eapply Qle_lt_trans; [|exact Hp'].
    apply (sorted_head_min Hs). eapply Permutation_in; [exact HP|exact Hin']. }
  destruct (Qle_bool 1 (in_ first)) eqn:E1.
  { apply Qle_bool_iff in E1. exfalso.
    apply (Qlt_irrefl 1). eapply Qle_lt_trans; [exact E1|exact Hfirst]. }
  set (lastPoint := last (first :: rest) first).
  assert (Hlast : (in_ lastPoint == 1)%Q).
  { apply Qle_antisym.
    - apply Hle. eapply Permutation_in; [symmetry; exact HP|].
      apply last_in_cons.
    - rewrite <- Hp. apply (sorted_last_max Hs).
      eapply Permutation_in; [exact HP|exact Hin]. }
  assert (Hl : Qle_bool (in_ lastPoint) 1 = true).
  { apply Qle_bool_iff. rewrite Hlast. apply Qle_refl. }
  rewrite Hl.
  cbn [jssub jsneg jsadd jsdiv].
  assert (Hz : Qeq_bool (1 + - in_ lastPoint) 0 = true).
  { apply Qeq_bool_iff. rewrite Hlast. reflexivity. }
  rewrite Hz. unfold Qsign.
  assert (Hc : (0 ?= 1 + - in_ lastPoint)%Q = Eq).
  { apply Qeq_alt. rewrite Hlast. reflexivity. }
  rewrite Hc. reflexivity.
Qed.

Lemma interpolateCurve_one_over_one_witness :
  interpolateCurve 1 [mkPoint 0 0; mkPoint (1 # 2) (1 # 4); mkPoint 1 1] = NaN.
Proof.
  apply (@interpolateCurve_one_over_one
           [mkPoint 0 0; mkPoint (1 # 2) (1 # 4); mkPoint 1 1]
           (mkPoint 1 1) (mkPoint 0 0)).
  - intros q [<-|[<-|[<-|[]]]]; vm_compute; discriminate.
  - simpl. auto.
  - reflexivity.
  - simpl. auto.
  - reflexivity.
Defined.

(** What the loop of [interpolateCurve] leaves in [lower] and [upper]:
    bounds of the input that are the initial ones or points of the list. *)
Lemma bracket_bounds (P : Point -> Prop) (input : Q) (sorted : list Point) :
  (forall x, In x sorted -> P x) ->
  forall lower upper,
    P lower -> P upper -> (in_ lower <= input)%Q -> (input <= in_ upper)%Q ->
    P (fst (bracket sorted input lower upper))
    /\ P (snd (bracket sorted input lower upper))
    /\ (in_ (fst (bracket sorted input lower upper)) <= input)%Q
    /\ (input <= in_ (snd (bracket sorted input lower upper)))%Q.
Proof.
  induction sorted as [|x rest IH]; intros HP lower upper Hl Hu Hli Hui.
  - cbn [bracket fst snd]. auto.
  - cbn [bracket].
    assert (HPx : P x) by (apply HP; now left).
    assert (HPr : forall y, In y rest -> P y) by (intros y Hy; apply HP; now right).
    destruct (Qle_bool input (in_ x)) eqn:E2.
    + apply Qle_bool_iff in E2. cbn [fst snd].
      destruct (Qle_bool (in_ x) input) eqn:E1.
      * apply Qle_bool_iff in E1. auto.
      * auto.
    + destruct (Qle_bool (in_ x) input) eqn:E1.
      * apply Qle_bool_iff in E1. now apply IH.
      * now apply IH.
Qed.

Lemma unit_interval_div (a b : Q) :
  (0 <= a)%Q -> (a <= b)%Q -> (0 < b)%Q -> (0 <= a / b <= 1)%Q.
Proof.
  intros Ha Hab Hb. split.
  - apply Qle_shift_div_l; [exact Hb|]. now rewrite Qmult_0_l.
  - apply Qle_shift_div_r; [exact Hb|]. now rewrite Qmult_1_l.
Qed.

Lemma unit_interval_mix (a b t : Q) :
  (0 <= a <= 1)%Q -> (0 <= b <= 1)%Q -> (0 <= t <= 1)%Q ->
  (0 <= a + t * (b + - a) <= 1)%Q.
Proof.
  intros [Ha0 Ha1] [Hb0 Hb1] [Ht0 Ht1].
  assert (E : (a + t * (b + - a) == (1 - t) * a + t * b)%Q) by ring.
  rewrite E.
  assert (H1t : (0 <= 1 - t)%Q) by lra.
  split.
  - apply Qle_trans with (0 + 0)%Q; [lra|].
    apply Qplus_le_compat; apply Qmult_le_0_compat; assumption.
  - apply Qle_trans with ((1 - t) * 1 + t * 1)%Q; [|lra].
    apply Qplus_le_compat.
    + rewrite !(Qmult_comm (1 - t)). now apply Qmult_le_compat_r.
    + rewrite !(Qmult_comm t). now apply Qmult_le_compat_r.
Qed.

(** X3.  With the input and every coordinate of the curve in [0,1], the
    value [interpolateCurve] returns is a number of [0,1], or NaN (the
    unguarded divisions at [in = 0] and [in = 1]); it is never an infinity
    and never leaves the unit interval. *)
Theorem interpolateCurve_range (input : Q) (curvePoints : list Point) :
  (0 <= input <= 1)%Q ->
  (forall p, In p curvePoints -> (0 <= in_ p <= 1)%Q /\ (0 <= out p <= 1)%Q) ->
  interpolateCurve input curvePoints = NaN
  \/ exists q, interpolateCurve input curvePoints = Fin q /\ (0 <= q <= 1)%Q.
Proof.
  intros [Hi0 Hi1] Hpts. unfold interpolateCurve.
  pose proof (sort_by_in_perm curvePoints) as HP.
  destruct (sort_by_in curvePoints) as [|first rest] eqn:E.
  { right. exists input. auto. }
  set (P := fun x : Point => (0 <= in_ x <= 1)%Q /\ (0 <= out x <= 1)%Q).
  assert (HPs : forall x, In x (first :: rest) -> P x).
  { intros x Hx. apply Hpts. eapply Permutation_in; [symmetry; exact HP|exact Hx]. }
  destruct (@bracket_bounds P input (first :: rest) HPs (mkPoint 0 0) (mkPoint 1 1))
    as (Hlo & Hup & Hloi & Hupi).
  { unfold P. cbn [in_ out]. lra. }
  { unfold P. cbn [in_ out]. lra. }
  { exact Hi0. }
  { exact Hi1. }
  destruct (bracket (first :: rest) input (mkPoint 0 0) (mkPoint 1 1))
    as [lower upper].
  cbn [fst snd] in Hlo, Hup, Hloi, Hupi.
  assert (Hfirst : P first) by (apply HPs; now left).
  assert (Hlast : P (last (first :: rest) first)) by (apply HPs, last_in_cons).
  destruct Hfirst as [[Hf0 Hf1] [Hfo0 Hfo1]].
  destruct Hlast as [[Hl0 Hl1] [Hlo0 Hlo1]].
  set (lastPoint := last (first :: rest) first) in *.
  destruct (Qle_bool input (in_ first)) eqn:E1.
  - apply Qle_bool_iff in E1. cbn [jsdiv].
    destruct (Qeq_bool (in_ first) 0) eqn:Ez.
    + left. apply Qeq_bool_iff in Ez.
      assert (Hc : Qsign input = Eq).
      { unfold Qsign. apply Qeq_alt. lra. }
      rewrite Hc. reflexivity.
    + right. cbn [jsmul]. eexists. split; [reflexivity|].
      assert (Hpos : (0 < in_ first)%Q).
      { apply Qeq_bool_neq in Ez. lra. }
      destruct (unit_interval_div Hi0 E1 Hpos) as [Ht0 Ht1].
      split.
      * now apply Qmult_le_0_compat.
      * apply Qle_trans with (1 * 1)%Q; [|lra].
        apply Qle_trans with (1 * (input / in_ first))%Q.
        -- now apply Qmult_le_compat_r.
        -- rewrite !Qmult_1_l. exact Ht1.
  - destruct (Qle_bool (in_ lastPoint) input) eqn:E2.
    + apply Qle_bool_iff in E2. cbn [jssub jsneg jsadd jsdiv].
      destruct (Qeq_bool (1 + - in_ lastPoint) 0) eqn:Ez.
      * left. apply Qeq_bool_iff in Ez.
        assert (Hc : Qsign (input + - in_ lastPoint) = Eq).
        { unfold Qsign. apply Qeq_alt. lra. }
        rewrite Hc. reflexivity.
      * right. cbn [jsmul jsadd]. eexists. split; [reflexivity|].
        assert (Hpos : (0 < 1 + - in_ lastPoint)%Q).
        { apply Qeq_bool_neq in Ez. lra. }
        assert (Ha : (0 <= input + - in_ lastPoint)%Q) by lra.
        assert (Hab : (input + - in_ lastPoint <= 1 + - in_ lastPoint)%Q) by lra.
        pose proof (unit_interval_div Ha Hab Hpos) as Ht.
        apply (@unit_interval_mix (out lastPoint) 1); [lra|lra|exact Ht].
    + destruct Hlo as [[Ha0 Ha1] [Hao0 Hao1]].
      destruct Hup as [[Hb0 Hb1] [Hbo0 Hbo1]].
      right.
      destruct (Qeq_bool (in_ lower) (in_ upper)) eqn:E3.
      * eexists. split; [reflexivity|]. lra.
      * cbn [jssub jsneg jsadd jsdiv].
        destruct (Qeq_bool (in_ upper + - in_ lower) 0) eqn:Ez.
        { apply Qeq_bool_iff in Ez. apply Qeq_bool_neq in E3.
          exfalso. apply E3. lra. }
        cbn [jsmul jsadd]. eexists. split; [reflexivity|].
        apply Qeq_bool_neq in E3.
        assert (Hpos : (0 < in_ upper + - in_ lower)%Q) by lra.
        assert (Ha : (0 <= input + - in_ lower)%Q) by lra.
        assert (Hab : (input + - in_ lower <= in_ upper + - in_ lower)%Q) by lra.
        pose proof (unit_interval_div Ha Hab Hpos) as Ht.
        apply unit_interval_mix; [lra|lra|exact Ht].
Qed.

Lemma interpolateCurve_range_witness :
  interpolateCurve (3 # 4) [mkPoint (1 # 2) (1 # 4)] = NaN
  \/ exists q, interpolateCurve (3 # 4) [mkPoint (1 # 2) (1 # 4)] = Fin q
               /\ (0 <= q <= 1)%Q.
Proof.
  apply interpolateCurve_range.
  - split; vm_compute; discriminate.
  - intros p [<-|[]]; repeat split; vm_compute; discriminate.
Defined.

(* ================================================================== *)
(** * Adding a curve point *)
(* ================================================================== *)

Lemma last_cons_default {A : Type} (x d d' : A) (l : list A) :
  last (x :: l) d = last (x :: l) d'.
Proof.
  revert x. induction l as [|y l IH]; intros x; [reflexivity|].
  change (last (y :: l) d = last (y :: l) d'). apply IH.
Qed.

Lemma insert_input_perm (a : Q) (l : list Q) :
  Permutation (a :: l) (insert_input a l).
Proof.
  induction l as [|b l IH]; simpl; [reflexivity|].
  destruct (Qle_bool a b); [reflexivity|].
  rewrite perm_swap. now constructor.
Qed.

Lemma sort_inputs_perm (l : list Q) : Permutation l (sort_inputs l).
Proof.
  induction l as [|a l IH]; simpl; [constructor|].
  rewrite <- insert_input_perm. now constructor.
Qed.

Lemma insert_input_sorted (a : Q) (l : list Q) :
  StronglySorted Qle l -> StronglySorted Qle (insert_input a l).
Proof.
  induction 1 as [|b l Hs IH Hall]; simpl.
  - repeat constructor.
  - destruct (Qle_bool a b) eqn:E.
    + apply Qle_bool_iff in E. constructor; [now constructor|].
      constructor; [exact E|].
      eapply Forall_impl; [|exact Hall]. intros c Hc. now apply Qle_trans with b.
    + apply Qle_bool_false, Qlt_le_weak in E.
      constructor; [exact IH|].
      eapply Permutation_Forall; [apply insert_input_perm|].
      now constructor.
Qed.

Lemma sort_inputs_sorted (l : list Q) : StronglySorted Qle (sort_inputs l).
Proof.
  induction l; simpl; [constructor|now apply insert_input_sorted].
Qed.

Lemma Qgt_bool_true (a b : Q) : Qgt_bool a b = true -> (b < a)%Q.
Proof.
  unfold Qgt_bool. intros H. apply Qle_bool_false.
  now destruct (Qle_bool a b).
Qed.

Lemma Qgt_bool_false (a b : Q) : Qgt_bool a b = false -> (a <= b)%Q.
Proof.
  unfold Qgt_bool. intros H. apply Qle_bool_iff.
  now destruct (Qle_bool a b).
Qed.

(** The loop keeps a gap [(gapStart, gapStart + maxGap)] that none of the
    inputs seen so far lies in, and that ends at or before the input the
    loop stands at; [maxGap] can only be non-positive while every input
    seen is. *)
Lemma largest_gap_inv (rest : list Q) :
  forall (a m g : Q) (pre : list Q),
    StronglySorted Qle (a :: rest) ->
    (forall x, In x pre -> x <= a)%Q ->
    (forall x, In x (a :: pre) -> x <= g \/ g + m <= x)%Q ->
    (g + m <= a)%Q -> (m <= 0 -> a <= 0)%Q ->
    (g = 0%Q \/ In g (a :: pre)) ->
    let r := largest_gap (a :: rest) m g in
    let lst := last (a :: rest) a in
    (forall x, In x (pre ++ a :: rest)%list -> x <= snd r \/ snd r + fst r <= x)%Q
    /\ (snd r + fst r <= lst)%Q
    /\ (fst r <= 0 -> lst <= 0)%Q
    /\ (snd r = 0%Q \/ In (snd r) (pre ++ a :: rest)%list)
    /\ (forall x, In x (pre ++ a :: rest)%list -> x <= lst)%Q.
Proof.
  induction rest as [|b rest IH]; intros a m g pre Hs Hpre Hav Hend Hpos Hg.
  - cbn [largest_gap last fst snd]. repeat split.
    + intros x Hx. apply Hav. apply in_app_or in Hx.
      destruct Hx as [Hx|[<-|[]]]; [now right|now left].
    + exact Hend.
    + exact Hpos.
    + destruct Hg as [Hg|Hg]; [now left|right].
      apply in_or_app. destruct Hg as [<-|Hg]; [right; now left|now left].
    + intros x Hx. apply in_app_or in Hx.
      destruct Hx as [Hx|[<-|[]]]; [now apply Hpre|apply Qle_refl].
  - assert (Hab : (a <= b)%Q).
    { inversion Hs as [|? ? _ Hall]; subst. now inversion Hall. }
    assert (Hs' : StronglySorted Qle (b :: rest)) by now inversion Hs.
    assert (Hpre' : (forall x, In x (pre ++ [a])%list -> x <= b)%Q).
    { intros x Hx. apply in_app_or in Hx.
      destruct Hx as [Hx|[<-|[]]]; [|exact Hab].
      apply Qle_trans with a; [now apply Hpre|exact Hab]. }
    assert (Ein : forall x, In x (b :: (pre ++ [a])%list) ->
                            x = b \/ In x (a :: pre)).
    { intros x [<-|Hx]; [now left|right]. apply in_app_or in Hx.
      destruct Hx as [Hx|[<-|[]]]; [now right|now left]. }
    change (largest_gap (a :: b :: rest) m g)
      with (if Qgt_bool (b - a) m then largest_gap (b :: rest) (b - a) a
            else largest_gap (b :: rest) m g).
    change (last (a :: b :: rest) a) with (last (b :: rest) a).
    rewrite (last_cons_default b a b rest).
    replace (pre ++ a :: b :: rest)%list with ((pre ++ [a]) ++ b :: rest)%list
      by (now rewrite <- app_assoc).
    destruct (Qgt_bool (b - a) m) eqn:E.
    + apply Qgt_bool_true in E.
      apply IH; [exact Hs'|exact Hpre'| | | |].
      * intros x Hx. destruct (Ein x Hx) as [->|[<-|Hx']].
        -- right. lra.
        -- left. apply Qle_refl.
        -- left. now apply Hpre.
      * lra.
      * intros Hle. assert (Ha : (a <= 0)%Q) by (apply Hpos; lra). lra.
      * right. right. apply in_or_app. right. now left.
    + apply Qgt_bool_false in E.
      apply IH; [exact Hs'|exact Hpre'| | | |].
      * intros x Hx. destruct (Ein x Hx) as [->|Hx'].
        -- right. lra.
        -- now apply Hav.
      * lra.
      * intros Hle. assert (Ha : (a <= 0)%Q) by (apply Hpos; exact Hle). lra.
      * destruct Hg as [Hg|Hg]; [now left|right; right].
        apply in_or_app. destruct Hg as [<-|Hg]; [right; now left|now left].
Qed.

(** Where the new point goes: strictly inside an interval that holds no
    input of the curve, bounded below by [0] or an input and above by an
    input or [1]. *)
Lemma newIn_in_gap (curvePoints : list Point) :
  exists lo hi : Q,
    (lo < newIn curvePoints < hi)%Q
    /\ (forall p, In p curvePoints -> in_ p <= lo \/ hi <= in_ p)%Q
    /\ (lo = 0%Q \/ exists p, In p curvePoints /\ lo = in_ p)
    /\ (hi = 1%Q \/ exists p, In p curvePoints /\ (hi <= in_ p)%Q).
Proof.
  unfold newIn.
  pose proof (sort_inputs_perm (map in_ curvePoints)) as HP.
  pose proof (sort_inputs_sorted (map in_ curvePoints)) as Hs.
  assert (Hmem : forall x, In x (sort_inputs (map in_ curvePoints)) ->
                           exists p, In p curvePoints /\ x = in_ p).
  { intros x Hx. apply (Permutation_in _ (Permutation_sym HP)) in Hx.
    apply in_map_iff in Hx as (p & <- & Hp). now exists p. }
  assert (Hall : forall p, In p curvePoints ->
                           In (in_ p) (sort_inputs (map in_ curvePoints))).
  { intros p Hp. apply (Permutation_in _ HP). now apply in_map. }
  destruct (sort_inputs (map in_ curvePoints)) as [|first rest] eqn:E.
  { exists 0%Q, 1%Q. split; [lra|]. split; [|split; now left].
    intros p Hp. destruct (Hall p Hp). }
  assert (Hmin : forall x, In x (first :: rest) -> (first <= x)%Q).
  { intros x [<-|Hx]; [apply Qle_refl|].
    inversion Hs as [|? ? _ Hf]; subst. rewrite Forall_forall in Hf. now apply Hf. }
  destruct (@largest_gap_inv rest first first 0%Q [] Hs) as (Hav & Hend & Hpos & Hg & Hmax).
  { intros x []. }
  { intros x [<-|[]]. right. lra. }
  { lra. }
  { intros H. exact H. }
  { now left. }
  cbn [app] in Hav, Hg, Hmax.
  destruct (largest_gap (first :: rest) first 0%Q) as [maxGap gapStart].
  cbn [fst snd] in Hav, Hend, Hpos, Hg.
  set (lastInput := last (first :: rest) first) in *.
  assert (Hlast : exists p, In p curvePoints /\ lastInput = in_ p).
  { apply Hmem. apply last_in_cons. }
  destruct (Qgt_bool (1 - lastInput) maxGap) eqn:Eg.
  - apply Qgt_bool_true in Eg.
    assert (Hgap : (0 < 1 - lastInput)%Q).
    { destruct (Qlt_le_dec 0 (1 - lastInput)) as [H|H]; [exact H|].
      assert (Hl : (lastInput <= 0)%Q) by (apply Hpos; lra). lra. }
    exists lastInput, 1%Q. split; [|split; [|split]].
    + assert (Eh : ((1 - lastInput) / 2 == (1 - lastInput) * (1 # 2))%Q)
        by (field; discriminate).
      rewrite Eh. lra.
    + intros p Hp. left. apply Hmax. now apply Hall.
    + right. exact Hlast.
    + now left.
  - apply Qgt_bool_false in Eg.
    assert (Hgap : (0 < maxGap)%Q).
    { destruct (Qlt_le_dec 0 maxGap) as [H|H]; [exact H|].
      assert (Hl : (lastInput <= 0)%Q) by (apply Hpos; exact H). lra. }
    exists gapStart, (gapStart + maxGap)%Q. split; [|split; [|split]].
    + assert (Eh : (maxGap / 2 == maxGap * (1 # 2))%Q) by (field; discriminate).
      rewrite Eh. lra.
    + intros p Hp. apply Hav. now apply Hall.
    + destruct Hg as [Hg|Hg]; [now left|right]. now apply Hmem.
    + right. destruct Hlast as (p & Hp & El). exists p. split; [exact Hp|].
      now rewrite <- El.
Qed.

(** X4.  [addCurvePoint] adds exactly one point, on the diagonal and at
    an input that no point of the curve has, and leaves the points sorted
    by [in]. *)
Theorem addCurvePoint_adds_fresh_input (curvePoints : list Point) :
  (forall p, In p curvePoints -> ~ (in_ p == newIn curvePoints)%Q)
  /\ Permutation (mkPoint (newIn curvePoints) (newIn curvePoints) :: curvePoints)
                 (addCurvePoint_points curvePoints)
  /\ Sorted le_in (addCurvePoint_points curvePoints).
Proof.
  split; [|split].
  - intros p Hp Heq.
    destruct (newIn_in_gap curvePoints) as (lo & hi & [Hlo Hhi] & Hav & _).
    destruct (Hav p Hp) as [H|H]; rewrite Heq in H; lra.
  - unfold addCurvePoint_points. rewrite <- sort_by_in_perm.
    apply Permutation_cons_append.
  - apply sort_by_in_sorted.
Qed.

(** X5.  When every input of the curve lies in [0,1], so does the input of
    the added point, strictly: it is the middle of a gap of positive
    width. *)
Theorem addCurvePoint_input_in_range (curvePoints : list Point) :
  (forall p, In p curvePoints -> 0 <= in_ p <= 1)%Q ->
  (0 < newIn curvePoints < 1)%Q.
Proof.
  intros Hr.
  destruct (newIn_in_gap curvePoints) as (lo & hi & [Hlo Hhi] & _ & Hl & Hh).
  split.
  - destruct Hl as [->|(p & Hp & ->)]; [exact Hlo|].
    destruct (Hr p Hp). lra.
  - destruct Hh as [->|(p & Hp & Hle)]; [exact Hhi|].
    destruct (Hr p Hp). lra.
Qed.

Lemma addCurvePoint_input_in_range_witness :
  (0 < newIn [mkPoint (1 # 5) 0; mkPoint (9 # 10) 1] < 1)%Q.
Proof.
  apply addCurvePoint_input_in_range.
  intros p [<-|[<-|[]]]; split; vm_compute; discriminate.
Defined.

(* ================================================================== *)
(** * Further properties of the trees *)
(* ================================================================== *)

Lemma preorder_unfold (n : Node) :
  preorder n = n :: flat_map preorder (children n).
Proof. now destruct n. Qed.

Lemma searchChildren_preorder (n : Node) (p : string) :
  searchChildren n p = find (path_is p) (flat_map preorder (children n)).
Proof.
  induction n as [d cs IH] using Node_induction.
  cbn [searchChildren children].
  induction IH as [|c cs Hc _ IHcs]; [reflexivity|].
  cbn [flat_map]. rewrite find_app, preorder_unfold. cbn [find].
  destruct (path_is p c); [reflexivity|].
  rewrite <- Hc. destruct (searchChildren c p); [reflexivity|exact IHcs].
Qed.

(** X6.  [findNodeByPath] returns the first node, in depth-first
    preorder, whose path is the one sought, and [null] when the tree has
    no such node or the path sought is empty. *)
Theorem findNodeByPath_preorder (root : Node) (p : string) :
  findNodeByPath (Some root) p
  = if str_truthy p then find (path_is p) (preorder root) else None.
Proof.
  unfold findNodeByPath. destruct (str_truthy p); [|reflexivity].
  cbn [negb]. rewrite preorder_unfold. cbn [find].
  destruct (path_is p root); [reflexivity|]. apply searchChildren_preorder.
Qed.

Lemma preorder_markDisabled (n : Node) :
  map data (preorder (markDisabled n))
  = map (fun m => set_disabled true (Some disabled_reason) (data m)) (preorder n).
Proof.
  induction n as [d cs IH] using Node_induction.
  cbn [markDisabled preorder map data]. f_equal.
  induction IH as [|c cs Hc _ IHcs]; [reflexivity|].
  cbn [map flat_map]. now rewrite !map_app, Hc, IHcs.
Qed.

Lemma preorder_markSectionType (s : string) (pre : option string) (n : Node) :
  Forall (fun m => sectionType (data m) = Some s)
         (preorder (markSectionType s pre n)).
Proof.
  induction n as [d cs IH] using Node_induction.
  cbn [markSectionType preorder]. constructor.
  - cbn [data]. destruct pre as [pr|]; [|reflexivity].
    cbn [set_sectionType path].
    destruct (path d) as [q|]; [|reflexivity].
    now destruct (str_truthy pr && str_truthy q).
  - induction IH as [|c cs Hc _ IHcs]; [constructor|].
    cbn [map flat_map]. apply Forall_app. now split.
Qed.

Lemma preorder_map_data (f : NodeData -> NodeData) (n : Node) :
  preorder (map_data f n) = map_data f n :: flat_map preorder (children n).
Proof. now destruct n. Qed.

(** X7.  In the display tree of a class with two sections every node of
    the sensitivity-curves section, the section node included, is
    disabled with the fixed reason and bears the section type [curves];
    every node of the inversion section bears the section type
    [inversion]. *)
Theorem two_section_tree_sections (deviceType : string)
        (rawData inversionNode n : Node) :
  In n (preorder (two_section_tree deviceType rawData inversionNode)) ->
  n = two_section_tree deviceType rawData inversionNode
  \/ (In n (preorder (inversionClone inversionNode))
      /\ sectionType (data n) = Some "inversion")
  \/ (In n (preorder (curvesClone deviceType inversionNode))
      /\ sectionType (data n) = Some "curves"
      /\ disabled (data n) = true
      /\ disabledReason (data n) = Some disabled_reason).
Proof.
  unfold two_section_tree, display_root. cbn [preorder flat_map].
  rewrite app_nil_r. intros [<-|Hin]; [now left|right].
  apply in_app_or in Hin. destruct Hin as [Hin|Hin]; [left|right];
    (split; [exact Hin|]).
  - unfold inversionClone in Hin.
    pose proof (preorder_markSectionType "inversion" None (jsonClone inversionNode))
      as Hall.
    destruct (markSectionType "inversion" None (jsonClone inversionNode))
      as [d cs] eqn:E.
    cbn [map_data preorder] in Hin. cbn [preorder] in Hall.
    inversion Hall as [|? ? Hd Hcs]; subst.
    destruct Hin as [<-|Hin]; [exact Hd|].
    rewrite Forall_forall in Hcs. now apply Hcs.
  - unfold curvesClone in Hin.
    apply (in_map data) in Hin. rewrite preorder_markDisabled in Hin.
    apply in_map_iff in Hin as (m & Em & Hm). rewrite <- Em.
    cbn [set_disabled sectionType disabled disabledReason].
    split; [|split; reflexivity].
    pose proof (preorder_markSectionType "curves" (Some "sensitivity_curves")
                                         (jsonClone inversionNode)) as Hall.
    destruct (markSectionType "curves" (Some "sensitivity_curves")
                              (jsonClone inversionNode)) as [d cs] eqn:E.
    cbn [map_data preorder] in Hm. cbn [preorder] in Hall.
    inversion Hall as [|? ? Hd Hcs]; subst.
    destruct Hm as [<-|Hm]; [exact Hd|].
    rewrite Forall_forall in Hcs. now apply Hcs.
Qed.

Lemma two_section_tree_sections_witness :
  let n := curvesClone "joystick" joystick_inversion in
  n = two_section_tree "joystick" joystick_raw joystick_inversion
  \/ (In n (preorder (inversionClone joystick_inversion))
      /\ sectionType (data n) = Some "inversion")
  \/ (In n (preorder (curvesClone "joystick" joystick_inversion))
      /\ sectionType (data n) = Some "curves"
      /\ disabled (data n) = true
      /\ disabledReason (data n) = Some disabled_reason).
Proof.
  apply (@two_section_tree_sections "joystick" joystick_raw joystick_inversion).
  unfold two_section_tree, display_root. cbn [preorder flat_map].
  right. apply in_or_app. right. apply in_or_app. left.
  rewrite preorder_unfold. now left.
Defined.

(** Every node of a parsed tree is itself the parse of an element. *)
Lemma parsed_descendant (e : Element) :
  forall deviceType parentPath n,
    In n (preorder (parseOptionGroup e deviceType parentPath)) ->
    exists e' pp, n = parseOptionGroup e' deviceType pp.
Proof.
  induction e as [t attrs cs IH] using Element_induction.
  intros deviceType parentPath n Hin.
  rewrite preorder_unfold in Hin. destruct Hin as [<-|Hin].
  { now eexists; eexists. }
  rewrite parseOptionGroup_children in Hin.
  apply in_flat_map in Hin as (c & Hc & Hn).
  apply in_map_iff in Hc as (e' & <- & He').
  apply filter_In in He' as [He' _].
  rewrite Forall_forall in IH. exact (IH e' He' _ _ _ Hn).
Qed.

(** X8.  In a parsed option tree the name of a node is the final segment
    of its path: for every node whose name is not the fallback [root] and
    holds no dot.  (The export names an entry by the final segment of the
    path it is stored under.) *)
Theorem parseOptionGroup_name_is_last_segment (e : Element)
        (deviceType : string) (parentPath : option string) (n : Node) :
  In n (preorder (parseOptionGroup e deviceType parentPath)) ->
  node_name n <> "root" -> dot_free (node_name n) = true ->
  exists p, node_path n = Some p /\ last_segment p = node_name n.
Proof.
  intros Hin Hroot Hdf.
  apply parsed_descendant in Hin as (e' & pp & ->).
  rewrite parseOptionGroup_name in Hroot, Hdf.
  rewrite parseOptionGroup_name, parseOptionGroup_path.
  unfold group_name in *. unfold group_path.
  destruct (lookup_attr "name" (el_attrs e')) as [s|]; [|congruence].
  destruct (str_truthy s); [|congruence].
  destruct (opt_str_truthy pp).
  - eexists. split; [reflexivity|]. cbn [opt_or].
    unfold last_segment. rewrite split_dot_app.
    rewrite (split_dot_dot_free_string _ Hdf). apply last_last.
  - exists s. split; [reflexivity|].
    unfold last_segment. now rewrite (split_dot_dot_free_string _ Hdf).
Qed.

Lemma parseOptionGroup_name_is_last_segment_witness :
  exists p,
    node_path (child_named "inversion"
                 (child_named "joystick_curves" (child_named "master" joystick_raw)))
    = Some p
    /\ last_segment p = "inversion".
Proof.
  apply (@parseOptionGroup_name_is_last_segment joystick_tree "joystick" (Some "")
           (child_named "inversion"
              (child_named "joystick_curves" (child_named "master" joystick_raw)))).
  - vm_compute. auto 10.
  - vm_compute. discriminate.
  - reflexivity.
Defined.

(* ================================================================== *)
(** * Further properties of the settings store *)
(* ================================================================== *)

(** What a bucket holds after a write: the value at the path and setting
    written, and what it held before everywhere else. *)
Lemma own_setting_store (bucket : Value) (p s : string) (v b' : Value)
      (p' s' : string) :
  store_in_bucket bucket p s v = Some b' ->
  own_setting b' p' s'
  = if String.eqb p' p && String.eqb s' s
    then (if is_undefined v then None else Some v)
    else own_setting bucket p' s'.
Proof.
  intros H. apply store_in_bucket_inv in H as (o & r & -> & Hr & ->).
  unfold own_setting. cbn [prop].
  destruct (String.eqb_spec p' p) as [->|Hp].
  - rewrite get_own_set_own_eq. cbn [truthy prop andb].
    destruct (String.eqb_spec s' s) as [->|Hs].
    + rewrite get_own_set_own_eq. now destruct (is_undefined v).
    + rewrite get_own_set_own_neq by congruence.
      destruct Hr as [->|[Hf ->]]; [reflexivity|].
      rewrite Hf. reflexivity.
  - cbn [andb]. rewrite get_own_set_own_neq by congruence. reflexivity.
Qed.

(** [setUserSetting] is a write into the bucket the reads go to, and it
    leaves the selected class and instances as they are. *)
Lemma setUserSetting_bucket (st st' : State) (p s : string) (v : Value) :
  setUserSetting st p s v = Some st' ->
  exists B B',
    current_settings st = Some B /\ current_settings st' = Some B'
    /\ store_in_bucket B p s v = Some B'
    /\ currentDeviceType st' = currentDeviceType st
    /\ currentGamepadInstance st' = currentGamepadInstance st
    /\ currentJoystickInstance st' = currentJoystickInstance st
    /\ controlsData st' = controlsData st.
Proof.
  unfold setUserSetting, current_settings. intros H.
  destruct (String.eqb (currentDeviceType st) "joystick") eqn:Ej;
    [|destruct (String.eqb (currentDeviceType st) "gamepad") eqn:Eg].
  - destruct (store_in_instance _ _ p s v) as [j|] eqn:Es;
      cbn [bind] in H; [|discriminate H].
    injection H as <-. cbn [currentDeviceType userSettings currentGamepadInstance
                             currentJoystickInstance controlsData].
    rewrite Ej.
    apply store_in_instance_inv in Es as (co & B' & Ec & Hs & ->).
    rewrite Ec, get_own_set_own_eq. cbn [nullish prop].
    rewrite get_own_set_own_eq.
    pose proof Hs as Hs'.
    apply store_in_bucket_inv in Hs' as (o & r & _ & _ & ->).
    eexists; eexists. repeat split; try reflexivity. exact Hs.
  - destruct (store_in_instance _ _ p s v) as [g|] eqn:Es;
      cbn [bind] in H; [|discriminate H].
    injection H as <-. cbn [currentDeviceType userSettings currentGamepadInstance
                             currentJoystickInstance controlsData].
    rewrite Ej, Eg.
    apply store_in_instance_inv in Es as (co & B' & Ec & Hs & ->).
    rewrite Ec, get_own_set_own_eq. cbn [nullish prop].
    rewrite get_own_set_own_eq.
    pose proof Hs as Hs'.
    apply store_in_bucket_inv in Hs' as (o & r & _ & _ & ->).
    eexists; eexists. repeat split; try reflexivity. exact Hs.
  - destruct (store_in_bucket _ p s v) as [b|] eqn:Es;
      cbn [bind] in H; [|discriminate H].
    injection H as <-. cbn [currentDeviceType userSettings currentGamepadInstance
                             currentJoystickInstance controlsData].
    rewrite Ej, Eg, get_own_set_own_eq.
    pose proof Es as Hs'.
    apply store_in_bucket_inv in Hs' as (o & r & Eo & _ & ->).
    rewrite Eo in *. cbn [or_empty truthy].
    eexists; eexists. repeat split; try reflexivity. exact Es.
Qed.

(** A value that was written is the value read back. *)
Lemma written_setting_read (st st' : State) (p s : string) (v d : Value) :
  setUserSetting st p s v = Some st' -> is_undefined v = false ->
  getUserSetting st' p s d = Some v.
Proof.
  intros H Hv. apply setUserSetting_bucket in H as (B & B' & _ & HB' & Hs & _).
  unfold getUserSetting. rewrite HB'. unfold lookup_setting.
  rewrite (@own_setting_store B p s v B' p s Hs), !String.eqb_refl, Hv.
  reflexivity.
Qed.

(** X10.  A write leaves every other setting as it was.  On a store of
    the shape the editor builds, for the keyboard, the gamepad or the
    joystick, and with paths and setting names other than those every
    object has from [Object.prototype]: after [setUserSetting(path, name,
    value)], a read of another setting name, or a read at a path which is
    not the path written and does not end in it as its bare option name,
    returns what it returned before. *)
Theorem setUserSetting_frame (st st' : State) (p s : string) (v : Value)
        (p' s' : string) (d : Value) :
  well_formed_store (userSettings st) ->
  is_device_class (currentDeviceType st) = true ->
  plain_key p -> plain_key s -> plain_path p' -> plain_key s' ->
  setUserSetting st p s v = Some st' ->
  s' <> s \/ (p' <> p /\ last_segment p' <> p) ->
  getUserSetting st' p' s' d = getUserSetting st p' s' d.
Proof.
  intros _ _ _ _ _ _ H Hne.
  apply setUserSetting_bucket in H as (B & B' & HB & HB' & Hs & _).
  unfold getUserSetting. rewrite HB, HB'. f_equal. unfold lookup_setting.
  rewrite (@own_setting_store B p s v B' p' s' Hs).
  rewrite (@own_setting_store B p s v B' (last_segment p') s' Hs).
  assert (E1 : String.eqb p' p && String.eqb s' s = false).
  { destruct Hne as [Hs'|[Hp _]].
    - apply andb_false_iff. right. now apply String.eqb_neq.
    - apply andb_false_iff. left. now apply String.eqb_neq. }
  assert (E2 : String.eqb (last_segment p') p && String.eqb s' s = false).
  { destruct Hne as [Hs'|[_ Hp]].
    - apply andb_false_iff. right. now apply String.eqb_neq.
    - apply andb_false_iff. left. now apply String.eqb_neq. }
  now rewrite E1, E2.
Qed.

Lemma setUserSetting_frame_witness :
  getUserSetting
    (mkState None "keyboard" 1 1 true
             [("keyboard", VObj [("a.b", VObj [("exponent", VNum (Fin 2))])]);
              ("gamepad", VObj []); ("joystick", VObj [])] true)
    "a.b" "invert" (VBool false)
  = getUserSetting initial_state "a.b" "invert" (VBool false).
Proof.
  apply (@setUserSetting_frame initial_state _ "a.b" "exponent" (VNum (Fin 2))).
  - split; [|split]; exists []; (split; [reflexivity|intros ? ? []]).
  - reflexivity.
  - reflexivity.
  - reflexivity.
  - split; reflexivity.
  - reflexivity.
  - reflexivity.
  - left. discriminate.
Defined.

Lemma store_in_bucket_total (b : obj) (p s : string) (v : Value) :
  all_objects b ->
  exists o, store_in_bucket (VObj b) p s v = Some (VObj o) /\ all_objects o.
Proof.
  intros Hb.
  assert (Hex : exists b', store_in_bucket (VObj b) p s v = Some b').
  { unfold store_in_bucket, ensure_object. cbn [nullish prop].
    destruct (get_own_undefined_or_object p Hb) as [E|[r E]]; rewrite E.
    - cbn [truthy write bind prop]. rewrite get_own_set_own_eq.
      cbn [write bind]. now eexists.
    - cbn [truthy bind prop]. rewrite E. cbn [write bind]. now eexists. }
  destruct Hex as [b' E].
  destruct (@store_in_bucket_all_objects _ _ _ _ _ Hb E) as [o [-> Ho]].
  now exists o.
Qed.

Lemma store_in_instance_total (class : Value) (k p s : string) (v : Value) :
  per_instance class ->
  exists c', store_in_instance class k p s v = Some c' /\ per_instance c'.
Proof.
  intros Hc.
  assert (Hex : exists c', store_in_instance class k p s v = Some c').
  { destruct Hc as [g [-> Hg]]. unfold store_in_instance, ensure_object.
    cbn [nullish prop].
    destruct (get_own_In g k) as [E|E].
    - rewrite E. cbn [truthy write bind prop]. rewrite get_own_set_own_eq.
      destruct (@store_in_bucket_total [] p s v) as [o [Eo _]].
      { intros ? ? []. }
      rewrite Eo. cbn [bind write]. now eexists.
    - destruct (Hg _ _ E) as [b0 [Eb Hb0]]. rewrite Eb.
      cbn [truthy bind prop]. rewrite Eb.
      destruct (@store_in_bucket_total b0 p s v Hb0) as [o [Eo _]].
      rewrite Eo. cbn [bind write]. now eexists. }
  destruct Hex as [c' E]. exists c'. split; [exact E|].
  exact (@store_in_instance_per_instance _ _ _ _ _ _ Hc E).
Qed.

Lemma is_device_class_cases (t : string) :
  is_device_class t = true -> t = "keyboard" \/ t = "gamepad" \/ t = "joystick".
Proof.
  unfold is_device_class. intros H.
  apply orb_true_iff in H as [H|H]; [apply orb_true_iff in H as [H|H]|];
    apply String.eqb_eq in H; auto.
Qed.

Lemma setUserSetting_well_formed (st : State) (p s : string) (v : Value) :
  well_formed_store (userSettings st) ->
  is_device_class (currentDeviceType st) = true ->
  exists st',
    setUserSetting st p s v = Some st'
    /\ well_formed_store (userSettings st')
    /\ currentDeviceType st' = currentDeviceType st.
Proof.
  intros (Hk & Hg & Hj) Hc. unfold setUserSetting.
  apply is_device_class_cases in Hc as [E|[E|E]]; rewrite E;
    cbn [String.eqb Ascii.eqb Bool.eqb].
  - destruct Hk as (b & Eb & Hb). rewrite Eb.
    destruct (@store_in_bucket_total b p s v Hb) as (o & Eo & Ho).
    rewrite Eo. cbn [bind]. eexists. split; [reflexivity|].
    cbn [userSettings currentDeviceType]. split; [|reflexivity].
    split; [|split].
    + exists o. now rewrite get_own_set_own_eq.
    + now rewrite get_own_set_own_neq by discriminate.
    + now rewrite get_own_set_own_neq by discriminate.
  - destruct (@store_in_instance_total _ (string_of_Z (currentGamepadInstance st))
                p s v Hg) as (c' & Ec & Hc').
    rewrite Ec. cbn [bind]. eexists. split; [reflexivity|].
    cbn [userSettings currentDeviceType]. split; [|reflexivity].
    split; [|split].
    + now rewrite get_own_set_own_neq by discriminate.
    + now rewrite get_own_set_own_eq.
    + now rewrite get_own_set_own_neq by discriminate.
  - destruct (@store_in_instance_total _ (string_of_Z (currentJoystickInstance st))
                p s v Hj) as (c' & Ec & Hc').
    rewrite Ec. cbn [bind]. eexists. split; [reflexivity|].
    cbn [userSettings currentDeviceType]. split; [|reflexivity].
    split; [|split].
    + now rewrite get_own_set_own_neq by discriminate.
    + now rewrite get_own_set_own_neq by discriminate.
    + now rewrite get_own_set_own_eq.
Qed.

(** X11.  On a store of the shape the editor builds, [setUserSetting]
    never throws for the keyboard, the gamepad or the joystick, whatever
    the value and whatever the path and the setting name among those
    which [Object.prototype] does not supply, and it leaves a store of
    that shape. *)
Theorem setUserSetting_total (st : State) (p s : string) (v : Value) :
  well_formed_store (userSettings st) ->
  is_device_class (currentDeviceType st) = true ->
  plain_key p -> plain_key s ->
  exists st',
    setUserSetting st p s v = Some st'
    /\ well_formed_store (userSettings st')
    /\ currentDeviceType st' = currentDeviceType st.
Proof.
  intros Hwf Hc _ _. now apply setUserSetting_well_formed.
Qed.

Lemma well_formed_empty : well_formed_store empty_userSettings.
Proof.
  split; [|split].
  - exists []. split; [reflexivity|]. intros ? ? [].
  - exists []. split; [reflexivity|]. intros ? ? [].
  - exists []. split; [reflexivity|]. intros ? ? [].
Qed.

Lemma setUserSetting_total_witness :
  exists st',
    setUserSetting initial_state "a.b" "invert" (VBool true) = Some st'
    /\ well_formed_store (userSettings st')
    /\ currentDeviceType st' = currentDeviceType initial_state.
Proof.
  apply setUserSetting_total.
  - split; [|split]; exists []; (split; [reflexivity|intros ? ? []]).
  - reflexivity.
  - reflexivity.
  - reflexivity.
Defined.

(** X9.  A setting that was written is the setting that is read.  On a
    store of the shape the editor builds, for the keyboard, the gamepad or
    the joystick, and with a path and a setting name other than those
    every object has from [Object.prototype]:
    [setUserSetting(path, name, value)] does not throw and, when the value
    is not [undefined], [getUserSetting(path, name, d)] then returns that
    value, whatever the default. *)
Theorem setUserSetting_then_getUserSetting (st : State) (p s : string)
        (v d : Value) :
  well_formed_store (userSettings st) ->
  is_device_class (currentDeviceType st) = true ->
  plain_key p -> plain_key s ->
  is_undefined v = false ->
  exists st',
    setUserSetting st p s v = Some st'
    /\ getUserSetting st' p s d = Some v.
Proof.
  intros Hwf Hc _ _ Hv.
  destruct (@setUserSetting_well_formed st p s v Hwf Hc) as (st' & Hs & _).
  exists st'. split; [exact Hs|]. eapply written_setting_read; [exact Hs|exact Hv].
Qed.

Lemma setUserSetting_then_getUserSetting_witness :
  exists st',
    setUserSetting (select_device "joystick" 2 initial_state)
                   "a.b" "exponent" (VNum (Fin 2)) = Some st'
    /\ getUserSetting st' "a.b" "exponent" (VNum (Fin 1)) = Some (VNum (Fin 2)).
Proof.
  apply setUserSetting_then_getUserSetting.
  - split; [|split]; exists []; (split; [reflexivity|intros ? ? []]).
  - reflexivity.
  - reflexivity.
  - reflexivity.
  - reflexivity.
Defined.

Lemma get_own_delete_own_eq (o : obj) (k : string) :
  get_own (delete_own o k) k = VUndefined.
Proof.
  induction o as [|[k0 v0] o IH]; [reflexivity|]. cbn [delete_own].
  destruct (String.eqb_spec k0 k) as [->|Hn]; [exact IH|].
  cbn [get_own]. destruct (String.eqb_spec k0 k); [congruence|exact IH].
Qed.

Lemma get_own_delete_own_neq (o : obj) (k k' : string) :
  k <> k' -> get_own (delete_own o k) k' = get_own o k'.
Proof.
  intros Hne. induction o as [|[k0 v0] o IH]; [reflexivity|].
  cbn [delete_own get_own].
  destruct (String.eqb_spec k0 k) as [->|Hn].
  - destruct (String.eqb_spec k k'); [congruence|exact IH].
  - cbn [get_own]. now rewrite IH.
Qed.

Lemma In_delete_own (o : obj) (k k' : string) (v : Value) :
  In (k', v) (delete_own o k) -> In (k', v) o.
Proof.
  induction o as [|[k0 v0] o IH]; [intros []|]. cbn [delete_own].
  destruct (String.eqb k0 k); [intros H; right; now apply IH|].
  intros [H|H]; [now left|right; now apply IH].
Qed.

(** X12.  For the gamepad the reset misses its target: the records live
    in the bucket of the instance, and [resetNodeSettings] deletes the
    path from the class object that holds the buckets.  Unless the path is
    the number of the selected instance, every read returns after the
    reset what it returned before; only the unsaved flag is cleared. *)
Theorem resetNodeSettings_gamepad_keeps_settings (st : State) (node : Node) :
  well_formed_store (userSettings st) ->
  currentDeviceType st = "gamepad" ->
  path_key (data node) <> string_of_Z (currentGamepadInstance st) ->
  exists st',
    resetNodeSettings st node = Some st'
    /\ hasUnsavedChanges st' = false
    /\ forall p s d, getUserSetting st' p s d = getUserSetting st p s d.
Proof.
  intros (_ & (g & Eg & Hg) & _) Hdt Hkey.
  unfold resetNodeSettings. rewrite Hdt, Eg.
  cbn [String.eqb Ascii.eqb Bool.eqb nullish delete_prop bind].
  eexists. split; [reflexivity|]. split; [reflexivity|].
  intros p s d. unfold getUserSetting, current_settings.
  cbn [currentDeviceType userSettings currentGamepadInstance].
  rewrite Hdt. cbn [String.eqb Ascii.eqb Bool.eqb].
  rewrite get_own_set_own_eq, Eg. cbn [nullish prop].
  now rewrite get_own_delete_own_neq by exact Hkey.
Qed.

Lemma resetNodeSettings_gamepad_keeps_settings_witness :
  exists st',
    resetNodeSettings gamepad_state (node_at "inversion.fps.pitch") = Some st'
    /\ hasUnsavedChanges st' = false
    /\ forall p s d, getUserSetting st' p s d = getUserSetting gamepad_state p s d.
Proof.
  apply resetNodeSettings_gamepad_keeps_settings.
  - split; [|split].
    + exists []. split; [reflexivity|intros ? ? []].
    + eexists. split; [reflexivity|].
      intros k v [H|[]]. injection H as <- <-. eexists. split; [reflexivity|].
      intros k v [H|[]]. now injection H as <- <-.
    + exists []. split; [reflexivity|intros ? ? []].
  - reflexivity.
  - discriminate.
Defined.

(** The bucket in use after a reset under the keyboard or the joystick:
    the record at the path is gone and every other key is as before. *)
Lemma resetNodeSettings_bucket (st : State) (node : Node) :
  well_formed_store (userSettings st) ->
  currentDeviceType st = "keyboard" \/ currentDeviceType st = "joystick" ->
  exists st' b b',
    resetNodeSettings st node = Some st'
    /\ current_settings st = Some (VObj b)
    /\ current_settings st' = Some (VObj b')
    /\ b' = delete_own b (path_key (data node))
    /\ hasUnsavedChanges st' = false.
Proof.
  intros ((k & Ek & Hk) & _ & (j & Ej & Hj)) [Hdt|Hdt];
    unfold resetNodeSettings, current_settings; rewrite Hdt;
    cbn [String.eqb Ascii.eqb Bool.eqb].
  - rewrite Ek. cbn [nullish delete_prop bind or_empty truthy].
    eexists; eexists; eexists. split; [reflexivity|].
    cbn [currentDeviceType userSettings hasUnsavedChanges].
    cbn [String.eqb Ascii.eqb Bool.eqb].
    rewrite get_own_set_own_eq. cbn [or_empty truthy]. auto.
  - rewrite Ej. cbn [nullish prop].
    destruct (get_own_In j (string_of_Z (currentJoystickInstance st))) as [E|E].
    + rewrite E. cbn [truthy bind or_empty].
      eexists; eexists; eexists. split; [reflexivity|].
      cbn [currentDeviceType userSettings hasUnsavedChanges currentJoystickInstance].
      cbn [String.eqb Ascii.eqb Bool.eqb].
      rewrite Ej. cbn [nullish prop]. rewrite E. cbn [or_empty truthy]. auto.
    + destruct (Hj _ _ E) as (b & Eb & _). rewrite Eb.
      cbn [truthy delete_prop bind write or_empty].
      eexists; eexists; eexists. split; [reflexivity|].
      cbn [currentDeviceType userSettings hasUnsavedChanges currentJoystickInstance].
      cbn [String.eqb Ascii.eqb Bool.eqb].
      rewrite get_own_set_own_eq. cbn [nullish prop].
      rewrite get_own_set_own_eq. cbn [or_empty truthy]. auto.
Qed.

(** X13.  For the keyboard and the joystick the reset removes the record
    of the node, and nothing else.  With paths and setting names other
    than those every object has from [Object.prototype]: a read at the
    path of the node then returns what the record under its bare option
    name gives, or else the default; a read at any other path, which does
    not end in the path of the node either, returns what it returned
    before.  The unsaved flag is cleared by the reset. *)
Theorem resetNodeSettings_removes_record (st : State) (node : Node) :
  well_formed_store (userSettings st) ->
  currentDeviceType st = "keyboard" \/ currentDeviceType st = "joystick" ->
  plain_path (path_key (data node)) ->
  exists st' B,
    resetNodeSettings st node = Some st'
    /\ current_settings st = Some B
    /\ hasUnsavedChanges st' = false
    /\ (forall s d,
          plain_key s ->
          getUserSetting st' (path_key (data node)) s d
          = Some (if String.eqb (last_segment (path_key (data node)))
                                (path_key (data node))
                  then d
                  else opt_or (own_setting B (last_segment (path_key (data node))) s)
                              d))
    /\ (forall p s d,
          plain_path p -> plain_key s ->
          p <> path_key (data node) ->
          last_segment p <> path_key (data node) ->
          getUserSetting st' p s d = getUserSetting st p s d).
Proof.
  intros Hwf Hdt _.
  destruct (@resetNodeSettings_bucket st node Hwf Hdt)
    as (st' & b & b' & Hr & HB & HB' & -> & Hu).
  exists st', (VObj b). split; [exact Hr|]. split; [exact HB|].
  split; [exact Hu|]. set (key := path_key (data node)). split.
  - intros s d _. unfold getUserSetting. rewrite HB'. f_equal.
    unfold lookup_setting, own_setting. cbn [prop].
    rewrite get_own_delete_own_eq. cbn [truthy andb].
    destruct (String.eqb_spec (last_segment key) key) as [E|E]; [reflexivity|].
    cbn [negb].
    rewrite get_own_delete_own_neq by (intros Hc; apply E; symmetry; exact Hc).
    now destruct (truthy (get_own b (last_segment key))
                  && negb (is_undefined (prop (get_own b (last_segment key)) s))).
  - intros p s d _ _ Hp Hl. unfold getUserSetting. rewrite HB, HB'. f_equal.
    unfold lookup_setting, own_setting. cbn [prop].
    subst key.
    rewrite (@get_own_delete_own_neq b (path_key (data node)) p)
      by (intros Hc; apply Hp; symmetry; exact Hc).
    rewrite (@get_own_delete_own_neq b (path_key (data node)) (last_segment p))
      by (intros Hc; apply Hl; symmetry; exact Hc).
    reflexivity.
Qed.

Lemma resetNodeSettings_removes_record_witness :
  exists st' B,
    resetNodeSettings joystick_pitch_state (node_at "inversion.fps.pitch") = Some st'
    /\ current_settings joystick_pitch_state = Some B
    /\ hasUnsavedChanges st' = false
    /\ (forall s d,
          plain_key s ->
          getUserSetting st' (path_key (data (node_at "inversion.fps.pitch"))) s d
          = Some (if String.eqb
                       (last_segment (path_key (data (node_at "inversion.fps.pitch"))))
                       (path_key (data (node_at "inversion.fps.pitch")))
                  then d
                  else opt_or (own_setting B
                                 (last_segment
                                    (path_key (data (node_at "inversion.fps.pitch"))))
                                 s)
                              d))
    /\ (forall p s d,
          plain_path p -> plain_key s ->
          p <> path_key (data (node_at "inversion.fps.pitch")) ->
          last_segment p <> path_key (data (node_at "inversion.fps.pitch")) ->
          getUserSetting st' p s d = getUserSetting joystick_pitch_state p s d).
Proof.
  apply resetNodeSettings_removes_record.
  - split; [|split].
    + exists []. split; [reflexivity|intros ? ? []].
    + exists []. split; [reflexivity|intros ? ? []].
    + eexists. split; [reflexivity|].
      intros k v [H|[]]. injection H as <- <-. eexists. split; [reflexivity|].
      intros k v [H|[]]. now injection H as <- <-.
  - now right.
  - split; reflexivity.
Defined.

(** A write of the propagation keeps what it wrote before, at the same
    path and at every other. *)
Lemma setting_written_preserved (mode sn : string) (v : Value) (st st' : State)
      (p s0 : string) (v0 : Value) (q : string) :
  sn <> "curveMode" -> is_undefined v = false ->
  (s0 = "curveMode" /\ v0 = VStr mode) \/ (s0 = sn /\ v0 = v) ->
  setUserSetting st p s0 v0 = Some st' ->
  setting_written mode sn v st q -> setting_written mode sn v st' q.
Proof.
  intros Hsn Hv Hwhat Hset (B & HB & Hm & Hs).
  apply setUserSetting_bucket in Hset as (B0 & B' & HB0 & HB' & Hst & _).
  rewrite HB in HB0. injection HB0 as <-.
  exists B'. split; [exact HB'|].
  rewrite (@own_setting_store B p s0 v0 B' q "curveMode" Hst).
  rewrite (@own_setting_store B p s0 v0 B' q sn Hst).
  destruct (String.eqb_spec q p) as [->|Hq]; cbn [andb]; [|now split].
  destruct Hwhat as [[-> ->]|[-> ->]].
  - cbn [String.eqb Ascii.eqb Bool.eqb is_undefined]. split; [reflexivity|].
    destruct (String.eqb_spec sn "curveMode"); [contradiction|exact Hs].
  - rewrite String.eqb_refl, Hv. split; [|reflexivity].
    destruct (String.eqb_spec "curveMode" sn) as [E|_]; [|exact Hm].
    symmetry in E. contradiction.
Qed.

Lemma setting_written_after (mode sn : string) (v : Value) (st st1 st2 : State)
      (p : string) :
  sn <> "curveMode" -> is_undefined v = false ->
  setUserSetting st p "curveMode" (VStr mode) = Some st1 ->
  setUserSetting st1 p sn v = Some st2 ->
  setting_written mode sn v st2 p.
Proof.
  intros Hsn Hv H1 H2.
  apply setUserSetting_bucket in H1 as (B & B1 & _ & HB1 & Hs1 & _).
  apply setUserSetting_bucket in H2 as (B1' & B2 & HB1' & HB2 & Hs2 & _).
  rewrite HB1 in HB1'. injection HB1' as <-.
  exists B2. split; [exact HB2|].
  rewrite (@own_setting_store B1 p sn v B2 p "curveMode" Hs2).
  rewrite (@own_setting_store B1 p sn v B2 p sn Hs2).
  rewrite !String.eqb_refl, Hv. cbn [andb]. split; [|reflexivity].
  destruct (String.eqb_spec "curveMode" sn) as [E|_].
  { symmetry in E. contradiction. }
  rewrite (@own_setting_store B p "curveMode" (VStr mode) B1 p "curveMode" Hs1).
  now rewrite !String.eqb_refl.
Qed.

(** The loop over the children, given what the walk does at each. *)
Lemma forEach_written (mode sn : string) (v : Value) (cs : list Node) :
  Forall
    (fun n =>
       forall st st',
         applyToDescendants mode sn v n st = Some st' ->
         (forall d, In d (preorder n) ->
                    setting_written mode sn v st' (path_key (data d)))
         /\ (forall q, setting_written mode sn v st q ->
                       setting_written mode sn v st' q)) cs ->
  forall s2 s',
    forEach_node (applyToDescendants mode sn v) cs s2 = Some s' ->
    (forall c, In c cs -> forall x, In x (preorder c) ->
               setting_written mode sn v s' (path_key (data x)))
    /\ (forall q, setting_written mode sn v s2 q ->
                  setting_written mode sn v s' q).
Proof.
  induction 1 as [|c cs Hc _ IHcs]; intros s2 s' H.
  - cbn [forEach_node] in H. injection H as <-. split; [intros c []|auto].
  - cbn [forEach_node] in H.
    destruct (applyToDescendants mode sn v c s2) as [s3|] eqn:E3;
      cbn [bind] in H; [|discriminate H].
    destruct (Hc _ _ E3) as [Hc1 Hc2].
    destruct (IHcs _ _ H) as [Hr1 Hr2].
    split.
    + intros c' [<-|Hc'] x Hx; [|now apply (Hr1 c')].
      apply Hr2. now apply Hc1.
    + intros q Hq. apply Hr2. now apply Hc2.
Qed.

(** The walk over a subtree writes the mode and the value at every node
    of the subtree and keeps what was written before. *)
Lemma applyToDescendants_written (mode sn : string) (v : Value) (n : Node) :
  sn <> "curveMode" -> is_undefined v = false ->
  forall st st',
    applyToDescendants mode sn v n st = Some st' ->
    (forall d, In d (preorder n) ->
               setting_written mode sn v st' (path_key (data d)))
    /\ (forall q, setting_written mode sn v st q -> setting_written mode sn v st' q).
Proof.
  intros Hsn Hv. induction n as [d cs IH] using Node_induction.
  intros st st' H. cbn [applyToDescendants] in H.
  destruct (setUserSetting st (path_key d) "curveMode" (VStr mode))
    as [st1|] eqn:E1; cbn [bind] in H; [|discriminate H].
  destruct (setUserSetting st1 (path_key d) sn v)
    as [st2|] eqn:E2; cbn [bind] in H; [|discriminate H].
  assert (Hroot : setting_written mode sn v st2 (path_key d))
    by exact (@setting_written_after mode sn v st st1 st2 _ Hsn Hv E1 E2).
  assert (Hkeep : forall q, setting_written mode sn v st q ->
                            setting_written mode sn v st2 q).
  { intros q Hq.
    apply (@setting_written_preserved mode sn v st1 st2 (path_key d) sn v q
             Hsn Hv (or_intror (conj eq_refl eq_refl)) E2).
    apply (@setting_written_preserved mode sn v st st1 (path_key d)
             "curveMode" (VStr mode) q
             Hsn Hv (or_introl (conj eq_refl eq_refl)) E1).
    exact Hq. }
  destruct (@forEach_written mode sn v cs IH _ _ H) as [Hl1 Hl2]. split.
  - intros x Hx. cbn [preorder] in Hx. destruct Hx as [<-|Hx].
    + apply Hl2. exact Hroot.
    + apply in_flat_map in Hx as (c & Hc & Hx). now apply (Hl1 c).
  - intros q Hq. apply Hl2. now apply Hkeep.
Qed.

(** On a store of the shape the editor builds the walk never throws. *)
Lemma applyToDescendants_total (mode sn : string) (v : Value) (n : Node) :
  forall st,
    well_formed_store (userSettings st) ->
    is_device_class (currentDeviceType st) = true ->
    exists st',
      applyToDescendants mode sn v n st = Some st'
      /\ well_formed_store (userSettings st')
      /\ currentDeviceType st' = currentDeviceType st.
Proof.
  induction n as [d cs IH] using Node_induction.
  intros st Hwf Hc. cbn [applyToDescendants].
  destruct (@setUserSetting_well_formed st (path_key d) "curveMode" (VStr mode)
              Hwf Hc) as (st1 & E1 & Hwf1 & Hd1).
  rewrite E1. cbn [bind].
  assert (Hc1 : is_device_class (currentDeviceType st1) = true) by now rewrite Hd1.
  destruct (@setUserSetting_well_formed st1 (path_key d) sn v Hwf1 Hc1)
    as (st2 & E2 & Hwf2 & Hd2).
  rewrite E2. cbn [bind].
  assert (Hc2 : is_device_class (currentDeviceType st2) = true) by now rewrite Hd2.
  assert (Hd : currentDeviceType st2 = currentDeviceType st) by congruence.
  rewrite <- Hd. clear E1 E2 Hwf Hc Hwf1 Hc1 Hd1 Hd2 Hd st st1.
  revert st2 Hwf2 Hc2.
  induction IH as [|c cs Hc _ IHcs]; intros s2 Hwf2 Hc2.
  - cbn [forEach_node]. now exists s2.
  - cbn [forEach_node].
    destruct (Hc s2 Hwf2 Hc2) as (s3 & E3 & Hwf3 & Hd3).
    rewrite E3. cbn [bind].
    assert (Hc3 : is_device_class (currentDeviceType s3) = true) by now rewrite Hd3.
    destruct (IHcs s3 Hwf3 Hc3) as (s' & E' & Hwf' & Hd').
    exists s'. split; [exact E'|]. split; [exact Hwf'|]. congruence.
Qed.

Lemma forEach_total (mode sn : string) (v : Value) (cs : list Node) :
  forall st,
    well_formed_store (userSettings st) ->
    is_device_class (currentDeviceType st) = true ->
    exists st', forEach_node (applyToDescendants mode sn v) cs st = Some st'.
Proof.
  induction cs as [|c cs IH]; intros st Hwf Hc.
  - now exists st.
  - cbn [forEach_node].
    destruct (@applyToDescendants_total mode sn v c st Hwf Hc)
      as (s3 & E3 & Hwf3 & Hd3).
    rewrite E3. cbn [bind]. apply IH; [exact Hwf3|now rewrite Hd3].
Qed.

Lemma setting_written_read (mode sn : string) (v : Value) (st : State) (q : string)
      (d : Value) :
  setting_written mode sn v st q ->
  getUserSetting st q sn d = Some v
  /\ getUserSetting st q "curveMode" d = Some (VStr mode).
Proof.
  intros (B & HB & Hm & Hs). unfold getUserSetting. rewrite HB.
  unfold lookup_setting. now rewrite Hm, Hs.
Qed.

(** X14.  [propagateExponentToChildren] reaches every node below the
    container: on a store of the shape the editor builds, and when the
    path of no node below is a name every object has from
    [Object.prototype], it does not throw, and afterwards every proper
    descendant reads the exponent that was propagated (a value other than
    [undefined]) and the curve mode [exponent] as its own settings, at the
    key its path makes. *)
Theorem propagateExponentToChildren_reaches_descendants (st : State)
        (node : Node) (e : Value) :
  well_formed_store (userSettings st) ->
  is_device_class (currentDeviceType st) = true ->
  Forall (fun x => plain_key (path_key (data x))) (proper_descendants node) ->
  is_undefined e = false ->
  exists st',
    propagateExponentToChildren st node e = Some st'
    /\ forall x, In x (proper_descendants node) ->
         forall d,
           getUserSetting st' (path_key (data x)) "exponent" d = Some e
           /\ getUserSetting st' (path_key (data x)) "curveMode" d
              = Some (VStr "exponent").
Proof.
  intros Hwf Hc _ He. unfold propagateExponentToChildren, proper_descendants.
  destruct (children node) as [|c cs] eqn:Ecs.
  { exists st. split; [reflexivity|]. intros x []. }
  destruct (@forEach_total "exponent" "exponent" e (c :: cs) st Hwf Hc) as [st' E].
  exists st'. split; [exact E|]. intros x Hx d.
  apply in_flat_map in Hx as (c' & Hc' & Hx).
  apply (@setting_written_read "exponent" "exponent" e).
  assert (Hall : Forall
            (fun n =>
               forall s s',
                 applyToDescendants "exponent" "exponent" e n s = Some s' ->
                 (forall y, In y (preorder n) ->
                            setting_written "exponent" "exponent" e s'
                                            (path_key (data y)))
                 /\ (forall q, setting_written "exponent" "exponent" e s q ->
                               setting_written "exponent" "exponent" e s' q))
            (c :: cs)).
  { apply Forall_forall. intros n _.
    apply applyToDescendants_written; [discriminate|exact He]. }
  destruct (@forEach_written _ _ _ _ Hall _ _ E) as [H1 _].
  now apply (H1 c').
Qed.

Lemma propagateExponentToChildren_reaches_descendants_witness :
  exists st',
    propagateExponentToChildren initial_state joystick_raw (VNum (Fin 2)) = Some st'
    /\ forall x, In x (proper_descendants joystick_raw) ->
         forall d,
           getUserSetting st' (path_key (data x)) "exponent" d
           = Some (VNum (Fin 2))
           /\ getUserSetting st' (path_key (data x)) "curveMode" d
              = Some (VStr "exponent").
Proof.
  apply propagateExponentToChildren_reaches_descendants.
  - split; [|split]; exists []; (split; [reflexivity|intros ? ? []]).
  - reflexivity.
  - repeat constructor.
  - reflexivity.
Defined.

Lemma jsonValue_defined (v : Value) :
  is_undefined v = false -> is_undefined (jsonValue v) = false.
Proof.
  destruct v as [| |b|n|s|l|o]; try reflexivity; try discriminate.
  cbn [jsonValue]. now destruct (jsonNum n).
Qed.

(** X15.  [propagateCurveToChildren] reaches every node below the
    container as well: on a store of the shape the editor builds, when the
    path of no node below is a name every object has from
    [Object.prototype], and for a curve other than [undefined], it does
    not throw, and afterwards every proper descendant reads the curve mode
    [curve] and its own copy of the curve, as JSON prints and reads it
    back, at the key its path makes. *)
Theorem propagateCurveToChildren_reaches_descendants (st : State)
        (node : Node) (c : Value) :
  well_formed_store (userSettings st) ->
  is_device_class (currentDeviceType st) = true ->
  Forall (fun x => plain_key (path_key (data x))) (proper_descendants node) ->
  is_undefined c = false ->
  exists st',
    propagateCurveToChildren st node c = Some st'
    /\ forall x, In x (proper_descendants node) ->
         forall d,
           getUserSetting st' (path_key (data x)) "curve" d
           = Some (jsonValue (jsonValue c))
           /\ getUserSetting st' (path_key (data x)) "curveMode" d
              = Some (VStr "curve").
Proof.
  intros Hwf Hc _ He. unfold propagateCurveToChildren, proper_descendants.
  destruct (children node) as [|c0 cs] eqn:Ecs.
  { exists st. split; [reflexivity|]. intros x []. }
  rewrite He.
  assert (Hv : is_undefined (jsonValue (jsonValue c)) = false)
    by now apply jsonValue_defined, jsonValue_defined.
  destruct (@forEach_total "curve" "curve" (jsonValue (jsonValue c)) (c0 :: cs) st
              Hwf Hc) as [st' E].
  exists st'. split; [exact E|]. intros x Hx d.
  apply in_flat_map in Hx as (c' & Hc' & Hx).
  apply (@setting_written_read "curve" "curve" (jsonValue (jsonValue c))).
  assert (Hall : Forall
            (fun n =>
               forall s s',
                 applyToDescendants "curve" "curve" (jsonValue (jsonValue c)) n s
                 = Some s' ->
                 (forall y, In y (preorder n) ->
                            setting_written "curve" "curve" (jsonValue (jsonValue c))
                                            s' (path_key (data y)))
                 /\ (forall q,
                       setting_written "curve" "curve" (jsonValue (jsonValue c)) s q ->
                       setting_written "curve" "curve" (jsonValue (jsonValue c)) s' q))
            (c0 :: cs)).
  { apply Forall_forall. intros n _.
    apply applyToDescendants_written; [discriminate|exact Hv]. }
  destruct (@forEach_written _ _ _ _ Hall _ _ E) as [H1 _].
  now apply (H1 c').
Qed.

Lemma propagateCurveToChildren_reaches_descendants_witness :
  exists st',
    propagateCurveToChildren initial_state joystick_raw
      (VObj [("reset", VBool false);
             ("points", VArr [VObj [("in", VNum (Fin (1 # 2)));
                                    ("out", VNum (Fin (1 # 4)))]])])
    = Some st'
    /\ forall x, In x (proper_descendants joystick_raw) ->
         forall d,
           getUserSetting st' (path_key (data x)) "curve" d
           = Some (jsonValue (jsonValue
                     (VObj [("reset", VBool false);
                            ("points", VArr [VObj [("in", VNum (Fin (1 # 2)));
                                                   ("out", VNum (Fin (1 # 4)))]])])))
           /\ getUserSetting st' (path_key (data x)) "curveMode" d
              = Some (VStr "curve").
Proof.
  apply propagateCurveToChildren_reaches_descendants.
  - split; [|split]; exists []; (split; [reflexivity|intros ? ? []]).
  - reflexivity.
  - repeat constructor.
  - reflexivity.
Defined.

(* ================================================================== *)
(** * Further properties of the export *)
(* ================================================================== *)

Lemma collect_entries_total (l : list (string * Value)) :
  (forall k v, In (k, v) l -> nullish v = false) ->
  exists r, collect_entries l = Some r.
Proof.
  induction l as [|[k v] l IH]; intros H; [now exists []|].
  cbn [collect_entries]. unfold entry_of at 1.
  rewrite (H k v (or_introl eq_refl)).
  destruct IH as [r Er]; [intros k' v' Hin; apply (H k' v'); now right|].
  rewrite Er. cbn [bind].
  destruct (negb (hasInvert v) && negb (hasExponent v) && negb (hasCurve v));
    cbn [bind]; now eexists.
Qed.

Lemma generateControlOptionsXml_nonempty (us : obj) (deviceType : string) (i : Z)
      (l : list FlatEntry) :
  generateControlOptionsXml us deviceType i = Some (Some l) -> l <> [].
Proof.
  unfold generateControlOptionsXml.
  destruct (export_settings us deviceType i) as [settings|]; [|discriminate].
  cbn [bind]. destruct (own_entries settings) as [|kv entries]; [discriminate|].
  destruct (collect_entries (kv :: entries)) as [[|e r]|]; cbn [bind];
    try discriminate.
  intros H. injection H as <-. discriminate.
Qed.

Lemma all_objects_not_nullish (b : obj) (k : string) (v : Value) :
  all_objects b -> In (k, v) (own_entries (VObj b)) -> nullish v = false.
Proof.
  intros Hb Hin. apply In_own_entries in Hin.
  pose proof (Hb _ _ Hin) as Ho. now destruct v.
Qed.

(** On a store of the shape the editor builds the export of a bucket
    does not throw. *)
Lemma generateControlOptionsXml_total (us : obj) (deviceType : string) (i : Z) :
  well_formed_store us -> is_device_class deviceType = true ->
  exists r, generateControlOptionsXml us deviceType i = Some r.
Proof.
  intros ((k & Ek & Hk) & (g & Eg & Hg) & (j & Ej & Hj)) Hc.
  assert (Hgen : forall b,
             all_objects b ->
             exists r,
               match own_entries (VObj b) with
               | [] => Some None
               | entries =>
                   controlOptions <- collect_entries entries ;;
                   Some (match controlOptions with
                         | [] => None
                         | _ => Some controlOptions
                         end)
               end = Some r).
  { intros b Hb.
    destruct (@collect_entries_total (own_entries (VObj b))) as [r Er].
    { intros k0 v0. now apply all_objects_not_nullish. }
    destruct (own_entries (VObj b)); [now eexists|].
    rewrite Er. cbn [bind]. now eexists. }
  unfold generateControlOptionsXml, export_settings.
  apply is_device_class_cases in Hc as [ -> | [ -> | -> ] ];
    cbn [String.eqb Ascii.eqb Bool.eqb].
  - rewrite Ek. cbn [or_empty truthy bind]. now apply Hgen.
  - rewrite Eg. cbn [or_empty truthy bind]. apply Hgen.
    intros k0 v0 Hin. destruct (Hg _ _ Hin) as (b & -> & _). reflexivity.
  - rewrite Ej. cbn [nullish prop bind].
    destruct (get_own_In j (string_of_Z i)) as [E|E].
    + rewrite E. cbn [or_empty truthy]. apply Hgen. intros ? ? [].
    + destruct (Hj _ _ E) as (b & Eb & Hb). rewrite Eb.
      cbn [or_empty truthy]. now apply Hgen.
Qed.

Lemma push_options_inv (us : obj) (deviceType : string) (i : Z)
      (allOptions all' : list DeviceEntry) :
  push_options us deviceType i allOptions = Some all' ->
  all' = allOptions
  \/ exists l, generateControlOptionsXml us deviceType i = Some (Some l)
               /\ all' = (allOptions ++ [mkDeviceEntry deviceType i l])%list.
Proof.
  unfold push_options.
  destruct (generateControlOptionsXml us deviceType i) as [[l|]|];
    cbn [bind]; intros H; try discriminate H; injection H as <-.
  - right. now exists l.
  - now left.
Qed.

Lemma push_joysticks_inv (us : obj) (n : nat) :
  forall (i : Z) (allOptions all' : list DeviceEntry),
    push_joysticks us i n allOptions = Some all' ->
    exists more,
      all' = (allOptions ++ more)%list
      /\ (List.length more <= n)%nat
      /\ forall e, In e more ->
                   de_deviceType e = "joystick"
                   /\ (i <= de_instance e < i + Z.of_nat n)%Z
                   /\ generateControlOptionsXml us "joystick" (de_instance e)
                      = Some (Some (de_options e)).
Proof.
  induction n as [|n IH]; intros i allOptions all' H.
  - cbn [push_joysticks] in H. injection H as <-. exists [].
    rewrite app_nil_r. split; [reflexivity|]. split; [apply Nat.le_refl|].
    intros e [].
  - cbn [push_joysticks] in H.
    destruct (push_options us "joystick" i allOptions) as [a|] eqn:Ep;
      cbn [bind] in H; [|discriminate H].
    destruct (IH _ _ _ H) as (more & -> & Hlen & Hmore).
    assert (Hshift : forall e, In e more ->
                de_deviceType e = "joystick"
                /\ (i <= de_instance e < i + Z.of_nat (S n))%Z
                /\ generateControlOptionsXml us "joystick" (de_instance e)
                   = Some (Some (de_options e))).
    { intros e He. destruct (Hmore e He) as (H1 & H2 & H3).
      split; [exact H1|]. split; [lia|exact H3]. }
    apply push_options_inv in Ep as [->|(l & El & ->)].
    + exists more. split; [reflexivity|]. split; [now apply Nat.le_le_succ_r|].
      exact Hshift.
    + exists (mkDeviceEntry "joystick" i l :: more).
      split; [now rewrite <- app_assoc|]. split; [cbn [List.length]; lia|].
      intros e [<-|He]; [|now apply Hshift].
      cbn [de_deviceType de_instance de_options].
      split; [reflexivity|]. split; [lia|exact El].
Qed.



(* ================================================================== *)
(** * The save file *)
(* ================================================================== *)

Lemma not_in_keys_get_own (o : obj) (k : string) :
  ~ In k (map fst o) -> get_own o k = VUndefined.
Proof.
  induction o as [|[k0 v0] o IH]; [reflexivity|]. cbn [map fst get_own].
  intros H. destruct (String.eqb_spec k0 k) as [->|_].
  - exfalso. apply H. now left.
  - apply IH. intros Hin. apply H. now right.
Qed.

Lemma in_get_own (o : obj) (k : string) (v : Value) :
  NoDup (map fst o) -> In (k, v) o -> get_own o k = v.
Proof.
  induction o as [|[k0 v0] o IH]; [intros _ []|]. cbn [map fst get_own].
  intros Hnd Hin. inversion Hnd as [|? ? Hno Hnd']; subst.
  destruct Hin as [E|Hin].
  - injection E as -> ->. now rewrite String.eqb_refl.
  - destruct (String.eqb_spec k0 k) as [->|_].
    + exfalso. apply Hno. now apply (in_map fst) in Hin.
    + now apply IH.
Qed.

Lemma keys_set_own (o : obj) (k k' : string) (v : Value) :
  In k' (map fst (set_own o k v)) <-> k' = k \/ In k' (map fst o).
Proof.
  induction o as [|[k0 v0] o IH]; cbn [set_own map fst].
  - cbn. intuition.
  - destruct (String.eqb_spec k0 k) as [->|Hn]; cbn [map fst In].
    + intuition.
    + rewrite IH. intuition.
Qed.

Lemma NoDup_set_own (o : obj) (k : string) (v : Value) :
  NoDup (map fst o) -> NoDup (map fst (set_own o k v)).
Proof.
  induction o as [|[k0 v0] o IH]; cbn [set_own map fst]; intros Hnd.
  - constructor; [intros []|constructor].
  - inversion Hnd as [|? ? Hno Hnd']; subst.
    destruct (String.eqb_spec k0 k) as [->|Hn]; cbn [map fst].
    + now constructor.
    + constructor; [|now apply IH].
      rewrite keys_set_own. intros [E|Hin]; [congruence|contradiction].
Qed.

(** The loop of [convertSettingsForSave]: with records that are neither
    [undefined] nor [null] it does not throw; what it adds to the result
    are records of [invert] alone, under final segments of the paths; and
    when no two paths end in the same segment, each path has its record
    under its final segment. *)
Lemma convert_for_save_spec (l : list (string * Value)) :
  (forall k v, In (k, v) l -> nullish v = false) ->
  forall acc,
    exists res,
      convert_for_save l acc = Some res
      /\ (NoDup (map fst acc) -> NoDup (map fst res))
      /\ (forall n x, In (n, x) res ->
                      In (n, x) acc
                      \/ exists k v, In (k, v) l /\ n = last_segment k
                                     /\ x = VObj (saved_record v))
      /\ (forall n, ~ In n (map (fun kv => last_segment (fst kv)) l) ->
                    get_own res n = get_own acc n)
      /\ (NoDup (map (fun kv => last_segment (fst kv)) l) ->
          forall k v, In (k, v) l ->
                      get_own res (last_segment k) = VObj (saved_record v)).
Proof.
  induction l as [|[k0 v0] l IH]; intros Hnn acc.
  - exists acc. split; [reflexivity|]. split; [auto|]. split; [auto|].
    split; [auto|]. intros _ k v [].
  - cbn [convert_for_save]. unfold save_record.
    rewrite (Hnn k0 v0 (or_introl eq_refl)). cbn [bind].
    destruct (IH (fun k v H => Hnn k v (or_intror H))
                 (set_own acc (last_segment k0) (VObj (saved_record v0))))
      as (res & Er & Hnd & Hin & Hother & Hget).
    exists res. split; [exact Er|]. split; [|split; [|split]].
    + intros Ha. apply Hnd. now apply NoDup_set_own.
    + intros n x Hx. destruct (Hin n x Hx) as [Hacc|(k & v & Hkv & En & Ex)].
      * apply In_set_own in Hacc as [[-> ->]|Hacc]; [|now left].
        right. exists k0, v0. split; [now left|]. now split.
      * right. exists k, v. split; [now right|]. now split.
    + intros n Hn. cbn [map fst] in Hn. rewrite Hother.
      * apply get_own_set_own_neq. intros E. apply Hn. now left.
      * intros Hc. apply Hn. now right.
    + intros Hd k v Hkv. cbn [map fst] in Hd.
      inversion Hd as [|? ? Hno Hd']; subst.
      destruct Hkv as [E|Hkv].
      * injection E as -> ->. rewrite Hother by exact Hno.
        apply get_own_set_own_eq.
      * now apply Hget.
Qed.

Lemma has_keys_obj (r : obj) : has_keys (VObj r) = negb (is_nil r).
Proof.
  unfold has_keys. pose proof (own_entries_perm r) as HP.
  destruct r as [|kv r].
  - reflexivity.
  - destruct (own_entries (VObj (kv :: r))); [|reflexivity].
    now apply Permutation_nil in HP.
Qed.

(** The loop of [convertLoadedSettings]: with records that are neither
    [undefined] nor [null] it does not throw, and with distinct names it
    keeps under each name the four fields of its record, unless the record
    has none of them. *)
Lemma convert_loaded_spec (l : list (string * Value)) :
  (forall k v, In (k, v) l -> nullish v = false) ->
  forall acc,
    exists res,
      convert_loaded l acc = Some res
      /\ (forall n, ~ In n (map fst l) -> get_own res n = get_own acc n)
      /\ (NoDup (map fst l) ->
          forall k v, In (k, v) l ->
                      get_own res k
                      = if is_nil (loaded_fields v) then get_own acc k
                        else VObj (loaded_fields v))
      /\ (forall n x, In (n, x) res ->
                      In (n, x) acc
                      \/ exists v, In (n, v) l /\ x = VObj (loaded_fields v)).
Proof.
  induction l as [|[k0 v0] l IH]; intros Hnn acc.
  - exists acc. split; [reflexivity|]. split; [auto|]. split; [|auto].
    intros _ k v [].
  - cbn [convert_loaded]. unfold loaded_record.
    rewrite (Hnn k0 v0 (or_introl eq_refl)). cbn [bind].
    rewrite has_keys_obj.
    destruct (IH (fun k v H => Hnn k v (or_intror H))
                 (if negb (is_nil (loaded_fields v0))
                  then set_own acc k0 (VObj (loaded_fields v0)) else acc))
      as (res & Er & Hother & Hget & Hin).
    exists res. split; [exact Er|]. split; [|split].
    + intros n Hn. cbn [map fst] in Hn. rewrite Hother.
      * destruct (is_nil (loaded_fields v0)); cbn [negb]; [reflexivity|].
        apply get_own_set_own_neq. intros E. apply Hn. now left.
      * intros Hc. apply Hn. now right.
    + intros Hd k v Hkv. cbn [map fst] in Hd.
      inversion Hd as [|? ? Hno Hd']; subst.
      destruct Hkv as [E|Hkv].
      * injection E as -> ->. rewrite Hother by exact Hno.
        destruct (is_nil (loaded_fields v)); cbn [negb]; [reflexivity|].
        apply get_own_set_own_eq.
      * rewrite (Hget Hd' k v Hkv).
        destruct (is_nil (loaded_fields v)); [|reflexivity].
        destruct (is_nil (loaded_fields v0)); cbn [negb]; [reflexivity|].
        apply get_own_set_own_neq. intros E. subst k0. apply Hno.
        now apply (in_map fst) in Hkv.
    + intros n x Hx. destruct (Hin n x Hx) as [Hacc|(v & Hv & Ex)].
      * destruct (is_nil (loaded_fields v0)); cbn [negb] in Hacc; [now left|].
        apply In_set_own in Hacc as [[-> ->]|Hacc]; [|now left].
        right. exists v0. split; [now left|reflexivity].
      * right. exists v. split; [now right|exact Ex].
Qed.

Lemma loaded_fields_saved_record (v : Value) :
  loaded_fields (VObj (saved_record v)) = saved_record v.
Proof.
  unfold saved_record, loaded_fields, copy_field.
  destruct (is_undefined (prop v "invert")) eqn:E; cbn [negb]; [reflexivity|].
  cbn [prop get_own String.eqb Ascii.eqb Bool.eqb is_undefined negb set_own].
  now rewrite E.
Qed.

Lemma convert_for_save_records (l : list (string * Value)) :
  forall acc res,
    convert_for_save l acc = Some res ->
    forall n x, In (n, x) res ->
                In (n, x) acc \/ exists v, x = VObj (saved_record v).
Proof.
  induction l as [|[k0 v0] l IH]; intros acc res H n x Hx.
  - cbn [convert_for_save] in H. injection H as <-. now left.
  - cbn [convert_for_save] in H. unfold save_record in H.
    destruct (nullish v0); cbn [bind] in H; [discriminate H|].
    destruct (IH _ _ H n x Hx) as [Hacc|Hv]; [|now right].
    apply In_set_own in Hacc as [[_ ->]|Hacc]; [right; now exists v0|now left].
Qed.

(** X17.  The save file keeps [invert] and nothing else: in what
    [convertSettingsForSave] returns, no record under any name has a
    setting other than [invert]; the curve mode, the exponent and the curve
    are left out. *)
Theorem convertSettingsForSave_keeps_invert_only (settings saved : Value) :
  convertSettingsForSave settings = Some saved ->
  forall n s, s <> "invert" -> prop (prop saved n) s = VUndefined.
Proof.
  unfold convertSettingsForSave. destruct (nullish settings); [discriminate|].
  destruct (convert_for_save (own_entries settings) []) as [res|] eqn:E;
    [|discriminate].
  cbn [option_map]. intros H n s Hs. injection H as <-. cbn [prop].
  destruct (get_own_In res n) as [->|Hin]; [reflexivity|].
  destruct (convert_for_save_records _ _ E _ _ Hin) as [[]|[v ->]].
  cbn [prop]. unfold saved_record.
  destruct (negb (is_undefined (prop v "invert"))); [|reflexivity].
  cbn [get_own]. destruct (String.eqb_spec "invert" s); [congruence|reflexivity].
Qed.

Lemma convertSettingsForSave_keeps_invert_only_witness :
  prop (prop (VObj [("pitch", VObj [("invert", VBool true)]);
                    ("yaw", VObj []);
                    ("roll", VObj [("invert", VBool false)])]) "pitch") "exponent"
  = VUndefined.
Proof.
  refine (@convertSettingsForSave_keeps_invert_only
           (VObj (value_of_bucket
                    [("inversion.fps.pitch",
                      mkSettingsRecord (Some true) (Some ModeExponent)
                                       (Some (Fin 2)) None);
                     ("inversion.fps.yaw",
                      mkSettingsRecord None (Some ModeExponent) (Some (Fin (3 # 2)))
                                       None);
                     ("inversion.flight.roll",
                      mkSettingsRecord (Some false) (Some ModeCurve) None
                                       (Some (mkStoredCurve false
                                                [mkPoint (1 # 2) (1 # 4)])))]))
            _ _ "pitch" "exponent" _).
  - vm_compute. reflexivity.
  - discriminate.
Defined.

Lemma NoDup_final_segments (b : obj) :
  NoDup (map fst b) -> distinct_final_segments b ->
  NoDup (map (fun kv => last_segment (fst kv)) b).
Proof.
  induction b as [|[k0 v0] b IH]; intros Hnd Hd; [constructor|].
  cbn [map fst] in *. inversion Hnd as [|? ? Hno Hnd']; subst.
  constructor.
  - intros Hin. apply in_map_iff in Hin as ([k v] & E & Hkv). cbn [fst] in E.
    apply Hno. rewrite (Hd k0 v0 k v); [now apply (in_map fst) in Hkv|now left|
                                         now right|now symmetry].
  - apply IH; [exact Hnd'|]. intros k1 v1 k2 v2 H1 H2.
    apply (Hd k1 v1 k2 v2); now right.
Qed.

Lemma undefined_not_key (o : obj) (n : string) :
  all_objects o -> get_own o n = VUndefined -> ~ In n (map fst o).
Proof.
  intros Ho E Hin. apply in_map_iff in Hin as ([k v] & <- & Hkv).
  cbn [fst] in E.
  induction o as [|[k0 v0] o IH]; [destruct Hkv|].
  cbn [get_own] in E. destruct (String.eqb_spec k0 k) as [->|Hn].
  - subst v0. now pose proof (Ho k VUndefined (or_introl eq_refl)).
  - destruct Hkv as [Ekv|Hkv]; [congruence|].
    apply IH; [|exact E|exact Hkv].
    intros k' v' H'. apply (Ho k' v'). now right.
Qed.

(** What [convertSettingsForSave] makes of a bucket of records. *)
Lemma convertSettingsForSave_bucket (b : obj) :
  all_objects b ->
  exists saved,
    convertSettingsForSave (VObj b) = Some (VObj saved)
    /\ NoDup (map fst saved)
    /\ (forall n x, In (n, x) saved ->
                    exists k v, In (k, v) b /\ n = last_segment k
                                /\ x = VObj (saved_record v))
    /\ (forall n, (forall k v, In (k, v) b -> last_segment k <> n) ->
                  get_own saved n = VUndefined)
    /\ (NoDup (map fst b) -> distinct_final_segments b ->
        forall k v, In (k, v) b ->
                    get_own saved (last_segment k) = VObj (saved_record v)).
Proof.
  intros Hb. unfold convertSettingsForSave. cbn [nullish].
  pose proof (own_entries_perm b) as HP.
  destruct (@convert_for_save_spec (own_entries (VObj b))
              (fun k v H => @all_objects_not_nullish b k v Hb H) [])
    as (res & Er & Hnd & Hin & Hother & Hget).
  rewrite Er. cbn [option_map]. exists res. split; [reflexivity|].
  split; [apply Hnd; constructor|]. split; [|split].
  - intros n x Hx. destruct (Hin n x Hx) as [[]|(k & v & Hkv & En & Ex)].
    exists k, v. split; [|now split]. eapply Permutation_in; [exact HP|exact Hkv].
  - intros n Hn. rewrite Hother; [reflexivity|].
    intros Hc. apply in_map_iff in Hc as ([k v] & E & Hkv). cbn [fst] in E.
    apply (Hn k v); [|exact E]. eapply Permutation_in; [exact HP|exact Hkv].
  - intros Hndb Hd k v Hkv. apply Hget.
    + eapply Permutation_NoDup;
        [apply Permutation_map; symmetry; exact HP|].
      now apply NoDup_final_segments.
    + eapply Permutation_in; [symmetry; exact HP|exact Hkv].
Qed.

(** What [convertLoadedSettings] makes of what was saved: the records
    that kept an [invert], as they are. *)
Lemma convertLoadedSettings_saved (saved : obj) :
  NoDup (map fst saved) ->
  (forall n x, In (n, x) saved -> exists v, x = VObj (saved_record v)) ->
  exists loaded,
    convertLoadedSettings (VObj saved) = Some (VObj loaded)
    /\ (forall n x, In (n, x) loaded -> exists v, x = VObj (saved_record v))
    /\ forall n, get_own loaded n
                 = match get_own saved n with
                   | VObj [] => VUndefined
                   | x => x
                   end.
Proof.
  intros Hnd Hrec. unfold convertLoadedSettings. cbn [nullish].
  pose proof (own_entries_perm saved) as HP.
  assert (Hobj : all_objects saved).
  { intros n x Hx. destruct (Hrec n x Hx) as [v ->]. reflexivity. }
  destruct (@convert_loaded_spec (own_entries (VObj saved))
              (fun k v H => @all_objects_not_nullish saved k v Hobj H) [])
    as (res & Er & Hother & Hget & Hin).
  rewrite Er. cbn [option_map]. exists res. split; [reflexivity|]. split.
  - intros n x Hx. destruct (Hin n x Hx) as [[]|(v & Hv & ->)].
    apply (Permutation_in _ HP) in Hv. destruct (Hrec n v Hv) as [w ->].
    exists w. now rewrite loaded_fields_saved_record.
  - intros n. destruct (get_own_In saved n) as [E|Hn].
    + rewrite E, Hother; [reflexivity|].
      intros Hc. apply (@undefined_not_key saved n Hobj E).
      eapply Permutation_in; [apply Permutation_map; exact HP|exact Hc].
    + destruct (Hrec _ _ Hn) as [v Ev].
      rewrite (Hget (Permutation_NoDup (Permutation_map fst (Permutation_sym HP)) Hnd)
                    n (get_own saved n)
                    (Permutation_in _ (Permutation_sym HP) Hn)).
      rewrite Ev, loaded_fields_saved_record. cbn [get_own].
      now destruct (saved_record v).
Qed.

Lemma own_setting_saved_record (loaded : obj) (n s : string) (v : Value) :
  get_own loaded n = match VObj (saved_record v) with
                     | VObj [] => VUndefined
                     | x => x
                     end ->
  own_setting (VObj loaded) n s
  = if String.eqb s "invert" && negb (is_undefined (prop v "invert"))
    then Some (prop v "invert") else None.
Proof.
  intros E. unfold own_setting. cbn [prop]. rewrite E. unfold saved_record.
  destruct (is_undefined (prop v "invert")) eqn:Ei; cbn [negb truthy andb].
  - now rewrite andb_false_r.
  - cbn [prop get_own]. rewrite andb_true_r, String.eqb_sym.
    destruct (String.eqb s "invert") eqn:Es; [now rewrite Ei|reflexivity].
Qed.

(** A bucket of records, saved and loaded again: every path of the bucket
    reads the [invert] it read before, and the default for every other
    setting, provided no two paths end in the same segment. *)
Lemma bucket_round_trip (b : obj) :
  all_objects b -> NoDup (map fst b) -> distinct_final_segments b ->
  exists saved loaded,
    convertSettingsForSave (VObj b) = Some (VObj saved)
    /\ convertLoadedSettings (VObj saved) = Some (VObj loaded)
    /\ forall p v, In (p, v) b -> forall s d,
         lookup_setting (VObj loaded) p s d
         = if String.eqb s "invert" then lookup_setting (VObj b) p "invert" d
           else d.
Proof.
  intros Hb Hnd Hd.
  destruct (@convertSettingsForSave_bucket b Hb)
    as (saved & Es & Hnds & Hins & Hnone & Hget).
  destruct (@convertLoadedSettings_saved saved Hnds) as (loaded & El & _ & Hl).
  { intros n x Hx. destruct (Hins n x Hx) as (k & v & _ & _ & ->). now exists v. }
  exists saved, loaded. split; [exact Es|]. split; [exact El|].
  intros p v Hpv s d.
  assert (Ev : get_own b p = v) by now apply in_get_own.
  assert (Hv : truthy v = true).
  { pose proof (Hb _ _ Hpv) as Ho. now destruct v. }
  assert (Hseg : own_setting (VObj loaded) (last_segment p) s
                 = if String.eqb s "invert" && negb (is_undefined (prop v "invert"))
                   then Some (prop v "invert") else None).
  { apply own_setting_saved_record. rewrite Hl.
    now rewrite (Hget Hnd Hd p v Hpv). }
  assert (Hown : own_setting (VObj b) p "invert"
                 = if negb (is_undefined (prop v "invert"))
                   then Some (prop v "invert") else None).
  { unfold own_setting. cbn [prop]. now rewrite Ev, Hv. }
  unfold lookup_setting. rewrite Hown.
  destruct (String.eqb_spec (last_segment p) p) as [Ep|Ep]; cbn [negb].
  - rewrite Ep in Hseg. rewrite Hseg.
    destruct (String.eqb s "invert"); cbn [andb]; [|reflexivity].
    now destruct (negb (is_undefined (prop v "invert"))).
  - assert (Hp : own_setting (VObj loaded) p s = None).
    { unfold own_setting. cbn [prop]. rewrite Hl, Hnone; [reflexivity|].
      intros k w Hkw E. apply Ep. rewrite <- E. apply last_segment_idem. }
    rewrite Hp, Hseg.
    assert (Hfall : own_setting (VObj b) (last_segment p) "invert" = None).
    { unfold own_setting. cbn [prop].
      destruct (get_own_In b (last_segment p)) as [E|Hin]; [now rewrite E|].
      exfalso. apply Ep.
      apply (Hd _ _ _ _ Hin Hpv). apply last_segment_idem. }
    rewrite Hfall.
    destruct (String.eqb s "invert"); cbn [andb]; [|reflexivity].
    now destruct (negb (is_undefined (prop v "invert"))).
Qed.

(** The loop of [getControlsForSaving] over the instances of a class. *)
Lemma convert_instances_spec (l : list (string * Value)) :
  (forall k x, In (k, x) l -> exists b, x = VObj b /\ all_objects b) ->
  forall acc,
    exists res,
      convert_instances l acc = Some res
      /\ (NoDup (map fst acc) -> NoDup (map fst res))
      /\ (forall n, ~ In n (map fst l) -> get_own res n = get_own acc n)
      /\ (NoDup (map fst l) ->
          forall k b, In (k, VObj b) l -> b <> [] ->
                      convertSettingsForSave (VObj b) = Some (get_own res k))
      /\ (forall n x, In (n, x) res ->
                      In (n, x) acc
                      \/ exists b, all_objects b
                                   /\ convertSettingsForSave (VObj b) = Some x).
Proof.
  induction l as [|[k0 x0] l IH]; intros Hshape acc.
  - exists acc. split; [reflexivity|]. split; [auto|]. split; [auto|].
    split; [|auto]. intros _ k b [].
  - cbn [convert_instances].
    destruct (Hshape k0 x0 (or_introl eq_refl)) as (b0 & -> & Hb0).
    cbn [truthy andb]. rewrite has_keys_obj.
    destruct (@convertSettingsForSave_bucket b0 Hb0) as (saved0 & Es0 & _).
    destruct (IH (fun k x H => Hshape k x (or_intror H))
                 (if negb (is_nil b0) then set_own acc k0 (VObj saved0) else acc))
      as (res & Er & Hnd & Hother & Hget & Hin).
    exists res. split.
    { destruct (is_nil b0); cbn [negb] in *; [exact Er|].
      rewrite Es0. cbn [bind]. exact Er. }
    split; [|split; [|split]].
    + intros Ha. apply Hnd. destruct (is_nil b0); cbn [negb]; [exact Ha|].
      now apply NoDup_set_own.
    + intros n Hn. cbn [map fst] in Hn. rewrite Hother.
      * destruct (is_nil b0); cbn [negb]; [reflexivity|].
        apply get_own_set_own_neq. intros E. apply Hn. now left.
      * intros Hc. apply Hn. now right.
    + intros Hd k b Hkb Hne. cbn [map fst] in Hd.
      inversion Hd as [|? ? Hno Hd']; subst.
      destruct Hkb as [E|Hkb].
      * injection E as -> ->. rewrite Hother by exact Hno.
        destruct b as [|kv b]; [congruence|]. cbn [is_nil negb].
        now rewrite get_own_set_own_eq.
      * now apply Hget.
    + intros n x Hx. destruct (Hin n x Hx) as [Hacc|Hb]; [|now right].
      destruct (is_nil b0); cbn [negb] in Hacc; [now left|].
      apply In_set_own in Hacc as [[-> ->]|Hacc]; [|now left].
      right. now exists b0.
Qed.

(** The loop of [loadControlsFromFile] over the instances of a class. *)
Lemma load_instances_spec (l : list (string * Value)) :
  (forall k x, In (k, x) l ->
               exists b, all_objects b /\ convertSettingsForSave (VObj b) = Some x) ->
  forall acc,
    exists res,
      load_instances l acc = Some res
      /\ (forall n, ~ In n (map fst l) -> get_own res n = get_own acc n)
      /\ (NoDup (map fst l) ->
          forall k x, In (k, x) l ->
                      convertLoadedSettings x = Some (get_own res k)).
Proof.
  induction l as [|[k0 x0] l IH]; intros Hshape acc.
  - exists acc. split; [reflexivity|]. split; [auto|]. intros _ k x [].
  - cbn [load_instances].
    destruct (Hshape k0 x0 (or_introl eq_refl)) as (b0 & Hb0 & Es0).
    destruct (@convertSettingsForSave_bucket b0 Hb0)
      as (saved0 & Es0' & Hnd0 & Hin0 & _).
    rewrite Es0 in Es0'. injection Es0' as ->.
    destruct (@convertLoadedSettings_saved saved0 Hnd0) as (loaded0 & El0 & _).
    { intros n x Hx. destruct (Hin0 n x Hx) as (k & v & _ & _ & ->). now exists v. }
    rewrite El0. cbn [bind].
    destruct (IH (fun k x H => Hshape k x (or_intror H))
                 (set_own acc k0 (VObj loaded0)))
      as (res & Er & Hother & Hget).
    exists res. split; [exact Er|]. split.
    + intros n Hn. cbn [map fst] in Hn. rewrite Hother.
      * apply get_own_set_own_neq. intros E. apply Hn. now left.
      * intros Hc. apply Hn. now right.
    + intros Hd k x Hkx. cbn [map fst] in Hd.
      inversion Hd as [|? ? Hno Hd']; subst.
      destruct Hkx as [E|Hkx].
      * injection E as <- <-. rewrite Hother by exact Hno.
        now rewrite get_own_set_own_eq.
      * now apply Hget.
Qed.

(** The keyboard part of the save file, written and read back. *)
Lemma flat_part_round_trip (b : obj) :
  all_objects b ->
  exists k K',
    (if truthy (VObj b) && has_keys (VObj b)
     then convertSettingsForSave (VObj b) else Some VNull) = Some k
    /\ match (if truthy k then Some k else None) with
       | Some kb => convertLoadedSettings kb
       | None => Some (VObj [])
       end = Some (VObj K')
    /\ (NoDup (map fst b) -> distinct_final_segments b ->
        forall p v, In (p, v) b -> forall s d,
          lookup_setting (VObj K') p s d
          = if String.eqb s "invert" then lookup_setting (VObj b) p "invert" d
            else d).
Proof.
  intros Hb. cbn [truthy andb]. rewrite has_keys_obj.
  destruct b as [|kv b]; cbn [is_nil negb].
  - exists VNull, []. split; [reflexivity|]. split; [reflexivity|].
    intros _ _ p v [].
  - destruct (@convertSettingsForSave_bucket (kv :: b) Hb)
      as (saved & Es & Hnds & Hins & _).
    destruct (@convertLoadedSettings_saved saved Hnds) as (loaded & El & _).
    { intros n x Hx. destruct (Hins n x Hx) as (k & v & _ & _ & ->). now exists v. }
    exists (VObj saved), loaded. split; [exact Es|]. cbn [truthy].
    split; [exact El|].
    intros Hnd Hd.
    destruct (bucket_round_trip Hb Hnd Hd) as (saved' & loaded' & Es' & El' & H).
    rewrite Es in Es'. injection Es' as <-.
    rewrite El in El'. injection El' as <-. exact H.
Qed.

(** The part of the save file for a class kept per instance, written and
    read back. *)
Lemma instances_part_round_trip (g : obj) :
  per_instance (VObj g) ->
  exists k C',
    save_instances (VObj g) = Some k
    /\ match (if truthy k then Some k else None) with
       | Some gp => option_map VObj (load_instances (own_entries gp) [])
       | None => Some (VObj [])
       end = Some (VObj C')
    /\ (NoDup (map fst g) ->
        forall instKey B,
          or_empty (get_own g instKey) = VObj B ->
          NoDup (map fst B) -> distinct_final_segments B ->
          forall p v, In (p, v) B -> forall s d,
            lookup_setting (or_empty (get_own C' instKey)) p s d
            = if String.eqb s "invert" then lookup_setting (VObj B) p "invert" d
              else d).
Proof.
  intros (g0 & Eg & Hg). injection Eg as <-.
  unfold save_instances. cbn [truthy andb]. rewrite has_keys_obj.
  pose proof (own_entries_perm g) as HP.
  destruct (@convert_instances_spec (own_entries (VObj g))
              (fun k x H => Hg k x (Permutation_in _ HP H)) [])
    as (r & Er & Hndr & Hotherr & Hgetr & Hinr).
  assert (Hndr' : NoDup (map fst r)) by (apply Hndr; constructor).
  pose proof (own_entries_perm r) as HPr.
  destruct (@load_instances_spec (own_entries (VObj r))) with (acc := @nil (string * Value))
    as (C & EC & HotherC & HgetC).
  { intros k x Hx. apply (Permutation_in _ HPr) in Hx.
    destruct (Hinr k x Hx) as [[]|Hb]. exact Hb. }
  exists (if negb (is_nil g) then (if has_keys (VObj r) then VObj r else VNull)
          else VNull),
         (if negb (is_nil g) then (if has_keys (VObj r) then C else []) else []).
  split; [|split].
  - destruct (is_nil g); cbn [negb]; [reflexivity|]. rewrite Er. reflexivity.
  - destruct (is_nil g); cbn [negb]; [reflexivity|].
    destruct (has_keys (VObj r)); cbn [truthy]; [|reflexivity].
    rewrite EC. reflexivity.
  - intros Hndg instKey B EB HndB HdB p v Hpv s d.
    assert (Hin : In (instKey, VObj B) g).
    { unfold or_empty in EB.
      destruct (get_own_In g instKey) as [E|Hin].
      - rewrite E in EB. cbn [truthy] in EB. injection EB as <-. destruct Hpv.
      - destruct (Hg _ _ Hin) as (b & Eb & _). rewrite Eb in EB, Hin.
        cbn [truthy] in EB. injection EB as <-. exact Hin. }
    assert (HB : all_objects B).
    { destruct (Hg _ _ Hin) as (b & Eb & Hb). injection Eb as <-. exact Hb. }
    assert (HneB : B <> []) by (intros ->; destruct Hpv).
    assert (Hneg : is_nil g = false) by (destruct g; [destruct Hin|reflexivity]).
    rewrite Hneg. cbn [negb].
    destruct (bucket_round_trip HB HndB HdB) as (saved & loaded & Es & El & Hread).
    assert (Hr : get_own r instKey = VObj saved).
    { assert (E : convertSettingsForSave (VObj B) = Some (get_own r instKey)).
      { apply Hgetr.
        - eapply Permutation_NoDup; [apply Permutation_map; symmetry; exact HP|].
          exact Hndg.
        - eapply Permutation_in; [symmetry; exact HP|exact Hin].
        - exact HneB. }
      rewrite Es in E. now injection E as <-. }
    assert (Hinr' : In (instKey, VObj saved) r).
    { destruct (get_own_In r instKey) as [E|E]; [congruence|]. now rewrite Hr in E. }
    assert (Hner : has_keys (VObj r) = true).
    { rewrite has_keys_obj. destruct r; [destruct Hinr'|reflexivity]. }
    rewrite Hner.
    assert (HC : get_own C instKey = VObj loaded).
    { assert (E : convertLoadedSettings (VObj saved) = Some (get_own C instKey)).
      { apply HgetC.
        - eapply Permutation_NoDup; [apply Permutation_map; symmetry; exact HPr|].
          exact Hndr'.
        - eapply Permutation_in; [symmetry; exact HPr|exact Hinr']. }
      rewrite El in E. now injection E as <-. }
    rewrite HC. cbn [or_empty truthy]. exact (Hread p v Hpv s d).
Qed.

(** X18.  Saving and loading keeps [invert] and drops the rest.  On a
    store of the shape the editor builds, [getControlsForSaving] does not
    throw, and [loadControlsFromFile] on data whose [devices] are what was
    saved does not throw either and clears the unsaved flag; afterwards,
    for the class and instance in use, every path that had a record reads
    the [invert] it read before and the default for every other setting.
    This holds when no two paths of the bucket end in the same segment
    (keys of an object being distinct): the file names a record by the
    final segment alone.  The paths of the bucket, their final segments
    and the setting read are names other than those every object has from
    [Object.prototype]. *)
Theorem save_file_round_trip (st : State) (B : obj) :
  well_formed_store (userSettings st) ->
  is_device_class (currentDeviceType st) = true ->
  (forall g, get_own (userSettings st) (currentDeviceType st) = VObj g ->
             NoDup (map fst g)) ->
  current_settings st = Some (VObj B) ->
  NoDup (map fst B) -> distinct_final_segments B ->
  (forall p v, In (p, v) B -> plain_path p) ->
  exists devices,
    getControlsForSaving (userSettings st) = Some devices
    /\ forall loadedData,
         nullish loadedData = false -> prop loadedData "devices" = devices ->
         exists st',
           loadControlsFromFile st loadedData = Some st'
           /\ hasUnsavedChanges st' = false
           /\ forall p v, In (p, v) B -> forall s d,
                plain_key s ->
                getUserSetting st' p s d
                = if String.eqb s "invert" then getUserSetting st p "invert" d
                  else Some d.
Proof.
  intros ((bk & Ek & Hk) & (gg & Eg & Hg) & (gj & Ej & Hj)) Hc Hkeys HB HndB HdB _.
  destruct (@flat_part_round_trip bk Hk) as (k & K' & Hsk & Hlk & Hrk).
  destruct (@instances_part_round_trip gg) as (g' & G' & Hsg & Hlg & Hrg).
  { exists gg. split; [reflexivity|exact Hg]. }
  destruct (@instances_part_round_trip gj) as (j' & J' & Hsj & Hlj & Hrj).
  { exists gj. split; [reflexivity|exact Hj]. }
  exists (VObj [("keyboard", k); ("gamepad", g'); ("joystick", j')]).
  split.
  { unfold getControlsForSaving. rewrite Ek, Eg, Ej, Hsk. cbn [bind].
    rewrite Hsg. cbn [bind]. rewrite Hsj. reflexivity. }
  intros loadedData Hnn Hdev. unfold loadControlsFromFile, device_part.
  rewrite Hnn, Hdev.
  cbn [truthy andb prop get_own String.eqb Ascii.eqb Bool.eqb].
  rewrite Hlk. cbn [bind]. rewrite Hlg. cbn [bind]. rewrite Hlj. cbn [bind].
  eexists. split; [reflexivity|]. split; [reflexivity|].
  intros p v Hpv s d _. unfold getUserSetting. rewrite HB.
  unfold current_settings in *.
  cbn [currentDeviceType userSettings currentGamepadInstance
       currentJoystickInstance].
  apply is_device_class_cases in Hc as [E|[E|E]]; rewrite E in *;
    cbn [String.eqb Ascii.eqb Bool.eqb get_own nullish prop] in *.
  - rewrite Ek in HB. cbn [or_empty truthy] in HB. injection HB as <-.
    cbn [or_empty truthy].
    rewrite (Hrk HndB HdB p v Hpv s d). now destruct (String.eqb s "invert").
  - rewrite Eg in HB. cbn [nullish prop] in HB. injection HB as HB.
    rewrite (Hrg (Hkeys gg Eg) _ B HB HndB HdB p v Hpv s d).
    now destruct (String.eqb s "invert").
  - rewrite Ej in HB. cbn [nullish prop] in HB. injection HB as HB.
    rewrite (Hrj (Hkeys gj Ej) _ B HB HndB HdB p v Hpv s d).
    now destruct (String.eqb s "invert").
Qed.

Lemma save_file_round_trip_witness :
  exists devices,
    getControlsForSaving (userSettings joystick_pitch_state) = Some devices
    /\ forall loadedData,
         nullish loadedData = false -> prop loadedData "devices" = devices ->
         exists st',
           loadControlsFromFile joystick_pitch_state loadedData = Some st'
           /\ hasUnsavedChanges st' = false
           /\ forall p v,
                In (p, v) [("inversion.fps.pitch", VObj [("invert", VBool true)])] ->
                forall s d,
                  plain_key s ->
                  getUserSetting st' p s d
                  = if String.eqb s "invert"
                    then getUserSetting joystick_pitch_state p "invert" d
                    else Some d.
Proof.
  apply save_file_round_trip.
  - split; [|split].
    + exists []. split; [reflexivity|intros ? ? []].
    + exists []. split; [reflexivity|intros ? ? []].
    + eexists. split; [reflexivity|].
      intros k v [H|[]]. injection H as <- <-. eexists. split; [reflexivity|].
      intros k v [H|[]]. now injection H as <- <-.
  - reflexivity.
  - intros g H. vm_compute in H. injection H as <-.
    repeat constructor; simpl; intuition.
  - reflexivity.
  - repeat constructor; simpl; intuition.
  - intros k1 v1 k2 v2 [H1|[]] [H2|[]] _. congruence.
  - intros p v [H|[]]. injection H as <- _. split; reflexivity.
Defined.

(** Without that proviso the file merges records: two paths that end in
    [x] are saved under the one name [x], and the path with [invert] on
    reads it off after the round trip. *)
Example save_file_merges_equal_names :
  getUserSetting colliding_state "a.x" "invert" VUndefined = Some (VBool true)
  /\ bind (getControlsForSaving (userSettings colliding_state))
          (fun devices =>
             bind (loadControlsFromFile colliding_state (VObj [("devices", devices)]))
                  (fun st' => getUserSetting st' "a.x" "invert" VUndefined))
     = Some (VBool false).
Proof. split; reflexivity. Qed.

(* ================================================================== *)
(** * Device tabs *)
(* ================================================================== *)

(** Reading decimal digits back, with an accumulator that is positive. *)
Lemma digits_prefix_of_uint_acc (d : Decimal.uint) :
  forall acc : positive,
    digits_prefix 10 (NilEmpty.string_of_uint d) (Some (Z.pos acc))
    = Some (Z.pos (Pos.of_uint_acc d acc)).
Proof.
  induction d; intros acc; cbn [NilEmpty.string_of_uint Pos.of_uint_acc];
    [reflexivity|..];
    change (digits_prefix 10 (String ?c ?s) (Some ?a))
      with (digits_prefix 10 s (Some (10 * a + (Z.of_nat (nat_of_ascii c) - 48))%Z));
    rewrite <- IHd; f_equal; f_equal;
    match goal with
    | |- context [Z.of_nat (nat_of_ascii ?c)] =>
        let n := eval vm_compute in (Z.of_nat (nat_of_ascii c)) in
        change (Z.of_nat (nat_of_ascii c)) with n
    end; lia.
Qed.

(** Reading the digits of a number back gives the number. *)
Lemma digits_prefix_of_uint (d : Decimal.uint) :
  d <> Decimal.Nil ->
  forall acc, acc = None \/ acc = Some 0%Z ->
    digits_prefix 10 (NilEmpty.string_of_uint d) acc
    = Some (Z.of_N (Pos.of_uint d)).
Proof.
  induction d; intros Hd acc Hacc; [congruence|..];
    cbn [NilEmpty.string_of_uint Pos.of_uint];
    change (digits_prefix 10 (String ?c ?s) acc)
      with (digits_prefix 10 s
              (Some (10 * match acc with Some a => a | None => 0 end
                     + (Z.of_nat (nat_of_ascii c) - 48))%Z));
    match goal with
    | |- context [Z.of_nat (nat_of_ascii ?c)] =>
        let n := eval vm_compute in (Z.of_nat (nat_of_ascii c)) in
        change (Z.of_nat (nat_of_ascii c)) with n
    end;
    (replace (10 * match acc with Some a => a | None => 0 end)%Z with 0%Z
      by (destruct Hacc as [->| ->]; reflexivity));
    cbn [Z.add Z.sub Z.opp Z.pos_sub Pos.pred_double Z.succ_double Z.pred_double
         Z.double].
  - destruct d; [reflexivity|..]; apply IHd; try discriminate; now right.
  - apply (digits_prefix_of_uint_acc d 1).
  - apply (digits_prefix_of_uint_acc d 2).
  - apply (digits_prefix_of_uint_acc d 3).
  - apply (digits_prefix_of_uint_acc d 4).
  - apply (digits_prefix_of_uint_acc d 5).
  - apply (digits_prefix_of_uint_acc d 6).
  - apply (digits_prefix_of_uint_acc d 7).
  - apply (digits_prefix_of_uint_acc d 8).
  - apply (digits_prefix_of_uint_acc d 9).
Qed.

Lemma parseInt_of_uint (d : Decimal.uint) :
  d <> Decimal.Nil ->
  parseInt (NilEmpty.string_of_uint d)
  = option_map (Z.mul 1) (digits_prefix 10 (NilEmpty.string_of_uint d) None)
  /\ parseInt (String "-" (NilEmpty.string_of_uint d))
     = option_map (Z.mul (-1)) (digits_prefix 10 (NilEmpty.string_of_uint d) None).
Proof.
  intros Hd. destruct d as [|d|d|d|d|d|d|d|d|d|d]; [congruence|..];
    try (split; reflexivity).
  destruct d; split; reflexivity.
Qed.

(** Printing an integer and reading it with [parseInt] gives the integer
    back. *)
Lemma parseInt_string_of_Z (z : Z) : parseInt (string_of_Z z) = Some z.
Proof.
  unfold string_of_Z. destruct z as [|p|p]; [reflexivity|..];
    cbn [Z.to_int NilZero.string_of_int];
    pose proof (DecimalPos.Unsigned.to_uint_nonnil p) as Hn;
    assert (Es : NilZero.string_of_uint (Pos.to_uint p)
                 = NilEmpty.string_of_uint (Pos.to_uint p))
      by (unfold NilZero.string_of_uint; destruct (Pos.to_uint p);
          [congruence|reflexivity..]);
    rewrite Es;
    destruct (parseInt_of_uint Hn) as [Hpos Hneg];
    rewrite ?Hpos, ?Hneg;
    rewrite (digits_prefix_of_uint Hn (or_introl eq_refl));
    rewrite DecimalPos.Unsigned.of_to; reflexivity.
Qed.

Lemma prefix_app (a b : string) : prefix a (a ++ b) = true.
Proof.
  induction a as [|c a IH]; [apply prefix_nil|].
  change (String c a ++ b) with (String c (a ++ b)).
  now rewrite prefix_cons, Ascii.eqb_refl, IH.
Qed.

Lemma replace_first_head (a b : string) : replace_first a "" (a ++ b) = b.
Proof.
  destruct a as [|c a]; [now destruct b|].
  change (String c a ++ b) with (String c (a ++ b)).
  cbn [replace_first]. rewrite prefix_cons, Ascii.eqb_refl, prefix_app.
  cbn [andb String.length drop append].
  rewrite <- (Nat.add_0_r (String.length a)). now rewrite drop_app.
Qed.

(** X19.  The device tabs select what they name: [switchDeviceType] on
    the id of the tab of joystick [i], or of gamepad [i], selects that
    class and that instance and leaves the other instance, the tree and
    the store alone, for every instance number other than 0 which a
    double holds exactly (at most [2^53] in absolute value); the id
    [keyboard] selects the keyboard.  An id without a number, or with the
    number 0, selects instance 1. *)
Theorem switchDeviceType_tab (st : State) (i : Z) :
  i <> 0%Z -> safe_integer i ->
  switchDeviceType (tab_id "joystick" i) st = select_device "joystick" i st
  /\ switchDeviceType (tab_id "gamepad" i) st = select_device "gamepad" i st
  /\ switchDeviceType "keyboard" st = select_device "keyboard" i st
  /\ switchDeviceType "joystick" st = select_device "joystick" 1 st
  /\ switchDeviceType (tab_id "joystick" 0) st = select_device "joystick" 1 st.
Proof.
  intros Hi _. unfold tab_id, switchDeviceType, select_device.
  rewrite !prefix_app, !replace_first_head, parseInt_string_of_Z.
  cbn [instances_or_1].
  destruct (Z.eqb_spec i 0) as [E|_]; [contradiction|].
  repeat split; reflexivity.
Qed.

Lemma switchDeviceType_tab_witness :
  switchDeviceType (tab_id "joystick" 3) initial_state
  = select_device "joystick" 3 initial_state
  /\ switchDeviceType (tab_id "gamepad" 3) initial_state
     = select_device "gamepad" 3 initial_state
  /\ switchDeviceType "keyboard" initial_state
     = select_device "keyboard" 3 initial_state
  /\ switchDeviceType "joystick" initial_state
     = select_device "joystick" 1 initial_state
  /\ switchDeviceType (tab_id "joystick" 0) initial_state
     = select_device "joystick" 1 initial_state.
Proof.
  apply switchDeviceType_tab.
  - discriminate.
  - vm_compute. discriminate.
Defined.

(* ================================================================== *)
(** * Loading a keybindings file *)
(* ================================================================== *)

(** The bucket the reads go to after one device has been loaded. *)
Lemma loadControlSettings_bucket (st : State) (deviceType inst : string) (i : Z)
      (opts : list ControlOption) :
  deviceType = "keyboard"
  \/ (deviceType = "joystick" /\ instance_key inst = string_of_Z i) ->
  exists st',
    loadControlSettings st (Some [mkDeviceOptions deviceType inst (Some opts)])
    = Some st'
    /\ current_settings (select_device deviceType i st')
       = Some (VObj (fold_left (load_step (controlsData st) deviceType) opts [])).
Proof.
  intros Hdt. unfold loadControlSettings.
  cbn [load_devices device_type instance control_options opt_or].
  destruct opts as [|opt opts].
  - cbn [store_options bind load_devices fold_left]. eexists.
    split; [reflexivity|]. destruct Hdt as [-> | [-> _]]; reflexivity.
  - destruct Hdt as [-> | [-> Hi]].
    + rewrite (@store_options_flat _ "keyboard" _ _ ltac:(discriminate)
                 empty_userSettings [] eq_refl).
      cbn [bind load_devices]. eexists. split; reflexivity.
    + rewrite store_options_joystick_fresh. cbn [bind load_devices].
      eexists. split; [reflexivity|].
      unfold current_settings.
      cbn [select_device with_userSettings currentDeviceType userSettings
           currentJoystickInstance String.eqb Ascii.eqb Bool.eqb get_own nullish].
      rewrite Hi. cbn [prop get_own]. now rewrite String.eqb_refl.
Qed.

(** X20.  What is loaded for the keyboard or for a joystick instance is
    what the editor reads: after [loadControlSettings] on one device whose
    options are stored under different keys, [getUserSetting] at the key
    of an option returns each setting the record rebuilt from that option
    has. *)
Theorem loadControlSettings_then_getUserSetting (st : State)
        (deviceType inst : string) (i : Z) (opts : list ControlOption) :
  deviceType = "keyboard"
  \/ (deviceType = "joystick" /\ instance_key inst = string_of_Z i) ->
  NoDup (map (key_of (controlsData st) deviceType) opts) ->
  exists st',
    loadControlSettings st (Some [mkDeviceOptions deviceType inst (Some opts)])
    = Some st'
    /\ forall opt s d,
         In opt opts ->
         is_undefined (get_own (settings_of_option opt) s) = false ->
         getUserSetting (select_device deviceType i st')
                        (key_of (controlsData st) deviceType opt) s d
         = Some (get_own (settings_of_option opt) s).
Proof.
  intros Hdt Hnd.
  destruct (@loadControlSettings_bucket st deviceType inst i opts Hdt)
    as (st' & Hl & Hc).
  exists st'. split; [exact Hl|]. intros opt s d Hin Hs.
  unfold getUserSetting. rewrite Hc. f_equal.
  unfold lookup_setting, own_setting. cbn [prop].
  erewrite fold_load_step_get by eassumption. cbn [truthy prop andb].
  now rewrite Hs.
Qed.

Lemma loadControlSettings_then_getUserSetting_witness :
  exists st',
    loadControlSettings initial_state
      (Some [mkDeviceOptions "joystick" "2"
               (Some [mkControlOption "flight_move_pitch"
                        (Some [("invert", SStr "1")]) None])])
    = Some st'
    /\ forall opt s d,
         In opt [mkControlOption "flight_move_pitch"
                   (Some [("invert", SStr "1")]) None] ->
         is_undefined (get_own (settings_of_option opt) s) = false ->
         getUserSetting (select_device "joystick" 2 st')
                        (key_of (controlsData initial_state) "joystick" opt) s d
         = Some (get_own (settings_of_option opt) s).
Proof.
  apply loadControlSettings_then_getUserSetting.
  - right. split; reflexivity.
  - repeat constructor; simpl; intuition.
Defined.

(** X21.  What is loaded for the gamepad is not what the editor reads:
    [loadControlSettings] puts the records of a gamepad device straight
    into the gamepad object, where the export looks for them, while the
    reads look into the bucket of the selected instance.  Unless an option
    is keyed by the very number of the instance, every read returns the
    default after the load.  The instance number is one a double holds
    exactly; the keys the options are stored under, the path and the
    setting read are names other than those every object has from
    [Object.prototype]. *)
Theorem loadControlSettings_gamepad_unseen (st : State) (inst : string) (i : Z)
        (opts : list ControlOption) :
  safe_integer i ->
  ~ In (string_of_Z i) (map (key_of (controlsData st) "gamepad") opts) ->
  Forall plain_key (map (key_of (controlsData st) "gamepad") opts) ->
  exists st',
    loadControlSettings st (Some [mkDeviceOptions "gamepad" inst (Some opts)])
    = Some st'
    /\ export_settings (userSettings st') "gamepad" i
       = Some (VObj (fold_left (load_step (controlsData st) "gamepad") opts []))
    /\ forall p s d,
         plain_path p -> plain_key s ->
         getUserSetting (select_device "gamepad" i st') p s d = Some d.
Proof.
  intros _ Hkey _. unfold loadControlSettings.
  cbn [load_devices device_type instance control_options opt_or].
  rewrite (@store_options_flat _ "gamepad" _ _ ltac:(discriminate)
             empty_userSettings [] eq_refl).
  cbn [bind load_devices]. eexists. split; [reflexivity|].
  assert (Eg : get_own (match opts with
                        | [] => empty_userSettings
                        | _ => set_own empty_userSettings "gamepad"
                                 (VObj (fold_left (load_step (controlsData st) "gamepad")
                                                  opts []))
                        end) "gamepad"
               = VObj (fold_left (load_step (controlsData st) "gamepad") opts [])).
  { destruct opts; reflexivity. }
  split.
  - unfold export_settings. cbn [String.eqb Ascii.eqb Bool.eqb with_userSettings
                                  userSettings].
    now rewrite Eg.
  - intros p s d _ _. unfold getUserSetting, current_settings.
    cbn [select_device with_userSettings currentDeviceType userSettings
         currentGamepadInstance String.eqb Ascii.eqb Bool.eqb].
    rewrite Eg. cbn [nullish prop].
    erewrite fold_load_step_other by exact Hkey.
    cbn [get_own]. f_equal. unfold lookup_setting, own_setting. cbn.
    now destruct (negb (last_segment p =? p)%string).
Qed.

Lemma loadControlSettings_gamepad_unseen_witness :
  exists st',
    loadControlSettings initial_state
      (Some [mkDeviceOptions "gamepad" "1"
               (Some [mkControlOption "flight_move_pitch"
                        (Some [("invert", SStr "1")]) None])])
    = Some st'
    /\ export_settings (userSettings st') "gamepad" 1
       = Some (VObj (fold_left (load_step (controlsData initial_state) "gamepad")
                               [mkControlOption "flight_move_pitch"
                                  (Some [("invert", SStr "1")]) None] []))
    /\ forall p s d,
         plain_path p -> plain_key s ->
         getUserSetting (select_device "gamepad" 1 st') p s d = Some d.
Proof.
  apply loadControlSettings_gamepad_unseen.
  - vm_compute. discriminate.
  - simpl. intros [H|[]]. discriminate H.
  - repeat constructor.
Defined.

(* ================================================================== *)
(** * Having and clearing settings *)
(* ================================================================== *)

Lemma set_own_not_nil (o : obj) (k : string) (v : Value) :
  is_nil (set_own o k v) = false.
Proof.
  destruct o as [|[k' v'] o]; [reflexivity|].
  cbn [set_own]. now destruct (String.eqb k' k).
Qed.

Lemma has_keys_set_own (o : obj) (k : string) (v : Value) :
  truthy (VObj (set_own o k v)) && has_keys (VObj (set_own o k v)) = true.
Proof.
  now rewrite has_keys_obj, set_own_not_nil.
Qed.

Lemma write_makes_settings (st st' : State) (p s : string) (v : Value) :
  is_device_class (currentDeviceType st) = true ->
  setUserSetting st p s v = Some st' ->
  hasControlSettings (userSettings st') = true
  /\ hasUnsavedControlSettings st' = true.
Proof.
  intros Hc H. unfold setUserSetting in H.
  apply is_device_class_cases in Hc as [E|[E|E]]; rewrite E in H;
    cbn [String.eqb Ascii.eqb Bool.eqb] in H.
  - destruct (store_in_bucket _ p s v) as [b|] eqn:Es;
      cbn [bind] in H; [|discriminate H].
    injection H as <-. split; [|reflexivity].
    apply store_in_bucket_inv in Es as (o & r & _ & _ & ->).
    unfold hasControlSettings. cbn [userSettings].
    rewrite get_own_set_own_eq, has_keys_set_own. reflexivity.
  - destruct (store_in_instance _ _ p s v) as [g|] eqn:Es;
      cbn [bind] in H; [|discriminate H].
    injection H as <-. split; [|reflexivity].
    apply store_in_instance_inv in Es as (co & B' & _ & _ & ->).
    unfold hasControlSettings. cbn [userSettings].
    rewrite (get_own_set_own_eq _ "gamepad"), has_keys_set_own.
    now rewrite orb_true_r.
  - destruct (store_in_instance _ _ p s v) as [j|] eqn:Es;
      cbn [bind] in H; [|discriminate H].
    injection H as <-. split; [|reflexivity].
    apply store_in_instance_inv in Es as (co & B' & _ & _ & ->).
    unfold hasControlSettings. cbn [userSettings].
    rewrite (get_own_set_own_eq _ "joystick"), has_keys_set_own.
    now rewrite orb_true_r.
Qed.

(** X22.  A write is noticed.  On a store of the shape the editor builds,
    for the keyboard, the gamepad or the joystick, and with a path and a
    setting name other than those every object has from
    [Object.prototype]: [setUserSetting] does not throw, and afterwards
    [hasControlSettings] answers yes and [hasUnsavedControlSettings]
    answers yes. *)
Theorem setUserSetting_then_hasControlSettings (st : State) (p s : string)
        (v : Value) :
  well_formed_store (userSettings st) ->
  is_device_class (currentDeviceType st) = true ->
  plain_key p -> plain_key s ->
  exists st',
    setUserSetting st p s v = Some st'
    /\ hasControlSettings (userSettings st') = true
    /\ hasUnsavedControlSettings st' = true.
Proof.
  intros Hwf Hc _ _.
  destruct (@setUserSetting_well_formed st p s v Hwf Hc) as (st' & Hs & _).
  exists st'. split; [exact Hs|]. eapply write_makes_settings; [exact Hc|exact Hs].
Qed.

Lemma setUserSetting_then_hasControlSettings_witness :
  exists st',
    setUserSetting (select_device "gamepad" 2 initial_state)
                   "a.b" "invert" (VBool true) = Some st'
    /\ hasControlSettings (userSettings st') = true
    /\ hasUnsavedControlSettings st' = true.
Proof.
  apply setUserSetting_then_hasControlSettings.
  - split; [|split]; exists []; (split; [reflexivity|intros ? ? []]).
  - reflexivity.
  - reflexivity.
  - reflexivity.
Defined.

(** X23.  [clearControlSettings] forgets everything: afterwards
    [hasControlSettings] and [hasUnsavedControlSettings] answer no, the
    export for the backend is empty, and every read, for each of the three
    device classes and every instance, returns the default, at every path
    and setting name other than those every object has from
    [Object.prototype]. *)
Theorem clearControlSettings_clears (st : State) :
  hasControlSettings (userSettings (clearControlSettings st)) = false
  /\ hasUnsavedControlSettings (clearControlSettings st) = false
  /\ getAllControlOptions (userSettings (clearControlSettings st)) = Some []
  /\ forall deviceType i p s d,
       is_device_class deviceType = true ->
       plain_path p -> plain_key s ->
       getUserSetting (select_device deviceType i (clearControlSettings st)) p s d
       = Some d.
Proof.
  split; [reflexivity|]. split; [reflexivity|]. split; [reflexivity|].
  intros deviceType i p s d _ _ _.
  unfold getUserSetting, current_settings.
  cbn [select_device clearControlSettings currentDeviceType userSettings
       currentGamepadInstance currentJoystickInstance controlsData
       hasUnsavedChanges syncScheduled].
  assert (Hd : forall B, (B = VObj [] \/ B = VUndefined) ->
                         lookup_setting (or_empty B) p s d = d).
  { intros B [-> | ->]; unfold lookup_setting, own_setting; cbn;
      now destruct (negb (last_segment p =? p)%string). }
  destruct (String.eqb deviceType "joystick") eqn:Ej;
    [|destruct (String.eqb deviceType "gamepad") eqn:Eg].
  - cbn. now destruct (negb (last_segment p =? p)%string).
  - cbn. now destruct (negb (last_segment p =? p)%string).
  - f_equal. apply Hd. unfold empty_userSettings. cbn [get_own].
    rewrite (String.eqb_sym "gamepad"), (String.eqb_sym "joystick"), Ej, Eg.
    destruct (String.eqb "keyboard" deviceType); auto.
Qed.

Lemma clearControlSettings_clears_witness :
  getUserSetting
    (select_device "joystick" 3 (clearControlSettings joystick_pitch_state))
    "inversion.fps.pitch" "invert" (VBool false)
  = Some (VBool false).
Proof.
  apply (proj2 (proj2 (proj2 (clearControlSettings_clears joystick_pitch_state)))).
  - reflexivity.
  - split; reflexivity.
  - reflexivity.
Defined.
